(** * Seven degrees of separation: layered BFS, bounded subgraph, frame layers

    A shallow embedding of the reachability code of the repository:
    - [SevenDegreesModel] (7contactosmejorado.py): the set based BFS that
      advances one degree per simulation step and records metrics;
    - [elegir_origen], [subgrafo_por_grados], [construir_capas] and the
      frame projection of [dibujar_frame] (anuimate_seven_degrees.py and
      viz/animacion2.py, whose versions of these functions are identical).

    The graph is a networkx [Graph]: an insertion ordered adjacency
    dictionary.  Order matters (BFS discovery order, stable sorting), so the
    dictionary is an association list. *)

From stdpp Require Import gmap list sorting strings.
From Stdlib Require Import ZArith QArith Lia.

Local Open Scope Z_scope.

#[local] Set Warnings "-clear-no-such-hyp".

(* ===================================================================== *)
(** ** networkx.Graph as an ordered adjacency list *)
(* ===================================================================== *)

Module Nx.

(** [G._adj]: node -> neighbours, both in insertion order. *)
Abbreviation Graph := (list (Z * list Z)).

(** [G.nodes()] *)
Definition nodes (G : Graph) : list Z := G.*1.

(** [G.number_of_nodes()] *)
Definition number_of_nodes (G : Graph) : nat := length G.

(** [G._adj[u]]; [None] stands for the KeyError / NetworkXError raised
    when [u] is not a node. *)
Fixpoint adj (G : Graph) (u : Z) : option (list Z) :=
  match G with
  | [] => None
  | (k, nb) :: G' => if decide (k = u) then Some nb else adj G' u
  end.

(** [u in G] *)
Definition contains (G : Graph) (u : Z) : bool := bool_decide (is_Some (adj G u)).

(** [G.neighbors(u)] *)
Definition neighbors (G : Graph) (u : Z) : option (list Z) := adj G u.

(** [G.degree[u]]: number of neighbours, a self loop counting twice. *)
Definition degree (G : Graph) (u : Z) : option Z :=
  nb ← adj G u;
  Some (Z.of_nat (length nb) + (if decide (u ∈ nb) then 1 else 0)).

(** [G.add_node(u)] *)
Definition add_node (G : Graph) (u : Z) : Graph :=
  if contains G u then G else G ++ [(u, [])].

(** [G._adj[u][v] = datadict]: a new key goes last, an old one stays. *)
Fixpoint set_nbr (G : Graph) (u v : Z) : Graph :=
  match G with
  | [] => []
  | (k, nb) :: G' =>
      if decide (k = u)
      then (k, if decide (v ∈ nb) then nb else nb ++ [v]) :: G'
      else (k, nb) :: set_nbr G' u v
  end.

(** [G.add_edge(u, v)] *)
Definition add_edge (G : Graph) (e : Z * Z) : Graph :=
  let G1 := add_node (add_node G e.1) e.2 in
  set_nbr (set_nbr G1 e.1 e.2) e.2 e.1.

(** [nx.read_edgelist] on the already parsed lines, one edge per line. *)
Definition from_edgelist (edges : list (Z * Z)) : Graph :=
  foldl add_edge [] edges.

(** Invariants every networkx graph has: unique keys, neighbours without
    repetition, and every neighbour is itself a node. *)
Definition wf_graph (G : Graph) : bool :=
  bool_decide (NoDup (nodes G)) &&
  forallb (λ '(_, nb), bool_decide (NoDup nb) &&
                       forallb (λ v, contains G v) nb) G.

(** [G.subgraph(nbunch).copy()]: the induced subgraph. *)
Definition subgraph (G : Graph) (nbunch : list Z) : Graph :=
  (λ '(u, nb), (u, filter (λ v, v ∈ nbunch) nb)) <$>
    filter (λ '(u, _), u ∈ nbunch) G.

End Nx.

(* ===================================================================== *)
(** ** Walks and hop distance: what the layers are compared against *)
(* ===================================================================== *)

Module Paths.

(** [v] is a neighbour of [u]. *)
Definition edge (G : Nx.Graph) (u v : Z) : Prop :=
  ∃ nb, Nx.adj G u = Some nb ∧ v ∈ nb.

(** [walk G o v n]: there is a walk of [n] edges from [o] to [v]. *)
Inductive walk (G : Nx.Graph) (o : Z) : Z → nat → Prop :=
  | walk_refl : walk G o o 0
  | walk_snoc w v n : walk G o w n → edge G w v → walk G o v (S n).

(** The unweighted shortest-path length from [o] to [v] is [d]. *)
Definition hop_dist (G : Nx.Graph) (o v : Z) (d : nat) : Prop :=
  walk G o v d ∧ ∀ k, walk G o v k → (d ≤ k)%nat.

End Paths.

(* ===================================================================== *)
(** ** 7contactosmejorado.py: SevenDegreesModel *)
(* ===================================================================== *)

(** [random.choice(seq)] with the generator's draw [rnd] made explicit;
    [None] is the IndexError on an empty sequence. *)
Definition random_choice {A} (rnd : nat) (seq : list A) : option A :=
  match seq with
  | [] => None
  | _ => seq !! (rnd mod length seq)%nat
  end.

Module SevenDegreesModel.

(** One row of the recorded variables. *)
Record Row := mkRow {
  grado : nat;
  personas_conocidas : nat;
  fraccion_conocida : Q
}.

Record Model := mkModel {
  source : Z;
  alcanzados : gset Z;
  frontera : gset Z;
  t : nat;
  running : bool;
  log : list Row
}.

(** [len(self.alcanzados) / self.G.number_of_nodes()]; [None] is the
    ZeroDivisionError. *)
Definition fraccion (G : Nx.Graph) (n : nat) : option Q :=
  match Nx.number_of_nodes G with
  | O => None
  | S _ => Some (Z.of_nat n # Pos.of_nat (Nx.number_of_nodes G))
  end.

(** The three [self.record] calls. *)
Definition record (G : Nx.Graph) (m : Model) : option Model :=
  fr ← fraccion G (size (alcanzados m));
  Some (mkModel (source m) (alcanzados m) (frontera m) (t m) (running m)
          (log m ++ [mkRow (t m) (size (alcanzados m)) fr])).

(** [setup]: the origin is [p.source_id] when it is given and in the graph,
    and a random node otherwise. *)
Definition setup (G : Nx.Graph) (source_id : option Z) (rnd : nat)
  : option Model :=
  src ← match source_id with
        | Some s => if Nx.contains G s then Some s
                    else random_choice rnd (Nx.nodes G)
        | None => random_choice rnd (Nx.nodes G)
        end;
  record G (mkModel src {[src]} {[src]} 0 true []).

(** The double loop of [step] that builds the next layer. *)
Definition nueva_frontera (G : Nx.Graph) (alc fro : gset Z)
  : option (gset Z) :=
  vs ← mapM (Nx.neighbors G) (elements fro);
  Some (list_to_set (filter (λ v, v ∉ alc) (concat vs))).

(** [self.stop()] *)
Definition stop (m : Model) : Model :=
  mkModel (source m) (alcanzados m) (frontera m) (t m) false (log m).

Definition step (G : Nx.Graph) (m : Model) : option Model :=
  nf ← nueva_frontera G (alcanzados m) (frontera m);
  m1 ← record G (mkModel (source m) (alcanzados m ∪ nf) nf (t m)
                   (running m) (log m));
  Some (if decide (frontera m1 = ∅) then stop m1 else m1).

(** agentpy's [Model.sim_step]: advance [t], call [step], and stop once
    [t] reaches the number of steps. *)
Definition sim_step (G : Nx.Graph) (steps : nat) (m : Model)
  : option Model :=
  m1 ← step G (mkModel (source m) (alcanzados m) (frontera m) (S (t m))
                 (running m) (log m));
  Some (if decide (steps ≤ t m1)%nat then stop m1 else m1).

(** agentpy's [Model.sim_setup]. *)
Definition sim_setup (G : Nx.Graph) (source_id : option Z) (rnd steps : nat)
  : option Model :=
  m0 ← setup G source_id rnd;
  Some (if decide (steps ≤ t m0)%nat then stop m0 else m0).

(** [while self.running: self.sim_step()], keeping every state the loop
    goes through.  The loop runs at most [steps] times, which bounds the
    recursion; [None] is an exception raised by a step. *)
Fixpoint sim_loop (G : Nx.Graph) (steps fuel : nat) (m : Model)
  : option (list Model) :=
  if running m then
    match fuel with
    | O => None
    | S fuel' =>
        m' ← sim_step G steps m;
        ms ← sim_loop G steps fuel' m';
        Some (m' :: ms)
    end
  else Some [].

(** The states of one run: after [setup] and after each step. *)
Definition run_states (G : Nx.Graph) (source_id : option Z) (rnd steps : nat)
  : option (list Model) :=
  m0 ← sim_setup G source_id rnd steps;
  ms ← sim_loop G steps steps m0;
  Some (m0 :: ms).

(** [Model.run]: the final state, whose [log] is the metrics stream. *)
Definition run (G : Nx.Graph) (source_id : option Z) (rnd steps : nat)
  : option Model :=
  ms ← run_states G source_id rnd steps;
  last ms.

End SevenDegreesModel.

(* ===================================================================== *)
(** ** Python built-ins used by the animation scripts *)
(* ===================================================================== *)

Module Py.

(** A [dict] with integer keys and values, in insertion order. *)
Abbreviation dict := (list (Z * Z)).

(** [d[k]]; [None] is the KeyError. *)
Fixpoint getitem (d : dict) (k : Z) : option Z :=
  match d with
  | [] => None
  | (k', v) :: d' => if decide (k' = k) then Some v else getitem d' k
  end.

(** [d[k] = v]: an existing key keeps its place, a new one goes last. *)
Fixpoint setitem (d : dict) (k v : Z) : dict :=
  match d with
  | [] => [(k, v)]
  | (k', v') :: d' =>
      if decide (k' = k) then (k', v) :: d' else (k', v') :: setitem d' k v
  end.

(** [dict(items)] *)
Definition dict_of_items (items : list (Z * Z)) : dict :=
  foldl (λ d '(k, v), setitem d k v) [] items.

(** [list(d.keys())] *)
Definition keys (d : dict) : list Z := d.*1.

(** [l[:n]]: a negative [n] counts from the end. *)
Definition slice_to {A} (l : list A) (n : Z) : list A :=
  if decide (0 ≤ n) then take (Z.to_nat n) l
  else take (length l - Z.to_nat (- n))%nat l.

(** Tuple comparison [a < b] on pairs of integers. *)
Definition tuple_lt (a b : Z * Z) : bool :=
  bool_decide (a.1 < b.1 ∨ (a.1 = b.1 ∧ a.2 < b.2)).

(** Stable insertion of a decorated element in front of a sorted list: it
    passes the elements whose key is smaller and stops at the first other. *)
Fixpoint insert_sorted {A} (x : (Z * Z) * A) (l : list ((Z * Z) * A))
  : list ((Z * Z) * A) :=
  match l with
  | [] => [x]
  | y :: l' => if tuple_lt y.1 x.1 then y :: insert_sorted x l' else x :: y :: l'
  end.

(** [sorted(l, key=key)]: keys are computed first (an exception in [key]
    aborts the call), then the list is sorted stably on them. *)
Definition sorted {A} (l : list A) (key : A → option (Z * Z))
  : option (list A) :=
  ks ← mapM key l;
  Some ((foldr insert_sorted [] (zip ks l)).*2).

End Py.

(* ===================================================================== *)
(** ** networkx.single_source_shortest_path_length *)
(* ===================================================================== *)

Module Bfs.

(** The inner loop [for w in adj[v]: if w not in seen: ...]: returns the
    updated [seen] and the nodes appended to [nextlevel]. *)
Fixpoint scan_adj (seen : gset Z) (ws : list Z) : gset Z * list Z :=
  match ws with
  | [] => (seen, [])
  | w :: ws' =>
      if decide (w ∈ seen) then scan_adj seen ws'
      else let '(s, nl) := scan_adj ({[w]} ∪ seen) ws' in (s, w :: nl)
  end.

(** [for v in thislevel: ...; if len(seen) == n: return].  The boolean
    tells whether the generator returned from inside the loop. *)
Fixpoint scan_level (G : Nx.Graph) (n : nat) (seen : gset Z)
    (thislevel : list Z) : option (gset Z * list Z * bool) :=
  match thislevel with
  | [] => Some (seen, [], false)
  | v :: vs =>
      nb ← Nx.adj G v;
      let '(s1, nl1) := scan_adj seen nb in
      if decide (size s1 = n) then Some (s1, nl1, true)
      else
        '(s2, nl2, ret) ← scan_level G n s1 vs;
        Some (s2, nl1 ++ nl2, ret)
  end.

(** [while nextlevel and cutoff > level]: [k] is [cutoff - level], the
    number of levels still allowed.  The result is the list of yielded
    [(node, level)] pairs. *)
Fixpoint levels (G : Nx.Graph) (n : nat) (k : nat) (seen : gset Z)
    (nextlevel : list Z) (level : Z) : option (list (Z * Z)) :=
  match k, nextlevel with
  | O, _ | _, [] => Some []
  | S k', _ :: _ =>
      '(s, nl, ret) ← scan_level G n seen nextlevel;
      let out := (λ w, (w, level + 1)) <$> nl in
      if (ret : bool) then Some out
      else rest ← levels G n k' s nl (level + 1); Some (out ++ rest)
  end.

(** [nx.single_source_shortest_path_length(G, source, cutoff)]; [None]
    is NodeNotFound. *)
Definition single_source_shortest_path_length (G : Nx.Graph) (source : Z)
    (cutoff : Z) : option Py.dict :=
  if Nx.contains G source then
    rest ← levels G (Nx.number_of_nodes G) (Z.to_nat cutoff) {[source]}
              [source] 0;
    Some (Py.dict_of_items ((source, 0) :: rest))
  else None.

End Bfs.

(* ===================================================================== *)
(** ** anuimate_seven_degrees.py / viz/animacion2.py *)
(* ===================================================================== *)

Module Anim.

(** [elegir_origen(G, source_id)], with the random draw made explicit. *)
Definition elegir_origen (G : Nx.Graph) (source_id : option Z) (rnd : nat)
  : option Z :=
  match source_id with
  | Some s => if Nx.contains G s then Some s
              else random_choice rnd (Nx.nodes G)
  | None => random_choice rnd (Nx.nodes G)
  end.

(** [deg_dict = {u: d for u, d in G.degree(nodos_alcance)}]: nodes that are
    not in the graph are skipped by the degree view. *)
Definition deg_dict (G : Nx.Graph) (nodos_alcance : list Z) : Py.dict :=
  omap (λ u, d ← Nx.degree G u; Some (u, d)) nodos_alcance.

(** [lambda u: (dist[u], -deg_dict.get(u, 0))] *)
Definition clave (dist degs : Py.dict) (u : Z) : option (Z * Z) :=
  d ← Py.getitem dist u;
  Some (d, - default 0 (Py.getitem degs u)).

(** Lines 44-56: the node list kept for drawing. *)
Definition nodos_seleccionados (G : Nx.Graph) (dist : Py.dict)
    (max_nodos : Z) : option (list Z) :=
  let nodos_alcance := Py.keys dist in
  if decide (max_nodos < Z.of_nat (length nodos_alcance)) then
    nodos_ordenados ← Py.sorted nodos_alcance
                         (clave dist (deg_dict G nodos_alcance));
    Some (Py.slice_to nodos_ordenados max_nodos)
  else Some nodos_alcance.

(** [subgrafo_por_grados(G, origen, cutoff, max_nodos)] returns the
    subgraph [H] and the distances of the nodes of [H]. *)
Definition subgrafo_por_grados (G : Nx.Graph) (origen cutoff max_nodos : Z)
  : option (Nx.Graph * Py.dict) :=
  dist ← Bfs.single_source_shortest_path_length G origen cutoff;
  nodos_alcance ← nodos_seleccionados G dist max_nodos;
  let H := Nx.subgraph G nodos_alcance in
  let dist_H := filter (λ '(u, _), Nx.contains H u = true) dist in
  Some (H, dist_H).

(** The loop body of [construir_capas]: [if 0 <= d <= max_grados:
    capas[d].add(u)]. *)
Definition poner (max_grados : Z) (capas : list (gset Z)) (item : Z * Z)
  : list (gset Z) :=
  if decide (0 ≤ item.2 ≤ max_grados)
  then alter (λ s, s ∪ {[item.1]}) (Z.to_nat item.2) capas
  else capas.

(** [construir_capas(dist, max_grados)] *)
Definition construir_capas (dist : Py.dict) (max_grados : Z)
  : list (gset Z) :=
  foldl (poner max_grados) (replicate (Z.to_nat (max_grados + 1)) ∅) dist.

(** [descubiertos]: the union of the sets of [capas[:t+1]], recomputed by
    [dibujar_frame] on every frame. *)
Definition descubiertos (capas : list (gset Z)) (t : Z) : gset Z :=
  ⋃ Py.slice_to capas (t + 1).

(** [frontera = capas[t] if 0 <= t < len(capas) else set()] *)
Definition frontera (capas : list (gset Z)) (t : Z) : gset Z :=
  if decide (0 ≤ t < Z.of_nat (length capas))
  then default ∅ (capas !! Z.to_nat t) else ∅.

(** The part of [animar] before any drawing: origin, subgraph, layers. *)
Definition animar (G : Nx.Graph) (source_id : option Z) (rnd : nat)
    (max_grados max_nodos_vista : Z)
  : option (Z * Nx.Graph * Py.dict * list (gset Z)) :=
  origen ← elegir_origen G source_id rnd;
  '(H, dist) ← subgrafo_por_grados G origen max_grados max_nodos_vista;
  Some (origen, H, dist, construir_capas dist max_grados).

End Anim.

(* ===================================================================== *)
(** ** The incremental layer index the specification asks for *)
(* ===================================================================== *)

Module LayerIndex.

(** [layer(t)], empty outside the layer list. *)
Definition layer (layers : list (gset Z)) (t : nat) : gset Z :=
  default ∅ (layers !! t).

(** The recurrence in the specification's words:
    discovered(0) = layer(0), discovered(t) = discovered(t-1) ∪ layer(t). *)
Fixpoint discovered (layers : list (gset Z)) (t : nat) : gset Z :=
  match t with
  | O => layer layers 0
  | S t' => discovered layers t' ∪ layer layers t
  end.

(** One pass in depth order that caches every prefix union. *)
Fixpoint prefix_accumulation (acc : gset Z) (layers : list (gset Z))
  : list (gset Z) :=
  match layers with
  | [] => []
  | l :: ls => (acc ∪ l) :: prefix_accumulation (acc ∪ l) ls
  end.

(** A frame query on the cache: a lookup, the last entry past the end. *)
Definition discovered_cached (cache : list (gset Z)) (t : nat) : gset Z :=
  match cache !! t with
  | Some s => s
  | None => default ∅ (last cache)
  end.

End LayerIndex.

(* ===================================================================== *)
(** ** The sampler as the specification words it *)
(* ===================================================================== *)

Module SpecSampler.

(** The key (distance ascending, degree descending, node id ascending). *)
Definition key_le (a b : Z * Z * Z) : bool :=
  bool_decide (a.1.1 < b.1.1 ∨
               (a.1.1 = b.1.1 ∧ (a.1.2 < b.1.2 ∨
                                 (a.1.2 = b.1.2 ∧ a.2 ≤ b.2)))).

Definition key (G : Nx.Graph) (dist : Py.dict) (u : Z) : Z * Z * Z :=
  (default 0 (Py.getitem dist u), - default 0 (Nx.degree G u), u).

Fixpoint insert (G : Nx.Graph) (dist : Py.dict) (x : Z) (l : list Z)
  : list Z :=
  match l with
  | [] => [x]
  | y :: l' => if key_le (key G dist x) (key G dist y) then x :: y :: l'
               else y :: insert G dist x l'
  end.

(** Sort all reached nodes by the key and take the first [cap]. *)
Definition sample (G : Nx.Graph) (dist : Py.dict) (cap : nat) : list Z :=
  take cap (foldr (insert G dist) [] (Py.keys dist)).

End SpecSampler.

(* ===================================================================== *)
(** ** Notions used to state the properties *)
(* ===================================================================== *)

(** The breadth-first invariant after [k] rounds from origin [o]: [alc]
    holds the nodes with a walk of at most [k] edges, [fro] those whose
    shortest walk has exactly [k], and every neighbour of a node already
    left behind has been reached. *)
Record bfs_inv (G : Nx.Graph) (o : Z) (k : nat) (alc fro : gset Z) : Prop := {
  inv_alc : ∀ v, v ∈ alc ↔ ∃ j, (j ≤ k)%nat ∧ Paths.walk G o v j;
  inv_fro : ∀ v, v ∈ fro ↔
              Paths.walk G o v k ∧ ∀ j, (j < k)%nat → ¬ Paths.walk G o v j;
  inv_closed : ∀ w v, w ∈ alc → w ∉ fro → Paths.edge G w v → v ∈ alc
}.

(** A recorded row belongs to a state. *)
Definition row_ok (G : Nx.Graph) (m : SevenDegreesModel.Model)
    (r : SevenDegreesModel.Row) : Prop :=
  SevenDegreesModel.grado r = SevenDegreesModel.t m ∧
  SevenDegreesModel.personas_conocidas r
    = size (SevenDegreesModel.alcanzados m) ∧
  SevenDegreesModel.fraccion G (size (SevenDegreesModel.alcanzados m))
    = Some (SevenDegreesModel.fraccion_conocida r).

(** What holds of every state of a run from origin [o]. *)
Definition good (G : Nx.Graph) (o : Z) (steps : nat)
    (m : SevenDegreesModel.Model) : Prop :=
  SevenDegreesModel.source m = o ∧
  bfs_inv G o (SevenDegreesModel.t m) (SevenDegreesModel.alcanzados m)
    (SevenDegreesModel.frontera m) ∧
  (SevenDegreesModel.running m = true →
     SevenDegreesModel.frontera m ≠ ∅ ∧ (SevenDegreesModel.t m < steps)%nat) ∧
  (SevenDegreesModel.running m = false →
     SevenDegreesModel.frontera m = ∅ ∨ (steps ≤ SevenDegreesModel.t m)%nat).

Module Sort.

(** [a <= b] on tuples, that is [not (b < a)]. *)
Definition tuple_le (a b : Z * Z) : Prop :=
  a.1 < b.1 ∨ (a.1 = b.1 ∧ a.2 ≤ b.2).

(** The sort of [Py.sorted] on the undecorated elements, for a key [K]
    that never fails. *)
Fixpoint ins {A} (K : A → Z * Z) (x : A) (l : list A) : list A :=
  match l with
  | [] => [x]
  | y :: l' =>
      if Py.tuple_lt (K y) (K x) then y :: ins K x l' else x :: y :: l'
  end.

Definition isort {A} (K : A → Z * Z) (l : list A) : list A :=
  foldr (ins K) [] l.

Definition key_le {A} (K : A → Z * Z) (x y : A) : Prop :=
  tuple_le (K x) (K y).

End Sort.

Module Seleccion.

(** [deg_dict.get(u, 0)] *)
Definition grado (G : Nx.Graph) (u : Z) : Z := default 0 (Nx.degree G u).

(** The sort key of a reached node. *)
Definition clave_de (G : Nx.Graph) (dist : Py.dict) (u : Z) : Z * Z :=
  (default 0 (Py.getitem dist u), - grado G u).

(** The reached nodes in sorted order. *)
Definition ordenados (G : Nx.Graph) (dist : Py.dict) : list Z :=
  Sort.isort (clave_de G dist) (Py.keys dist).

End Seleccion.

(* ===================================================================== *)
(** ** The rest of the scripts: loading, edges, frames *)
(* ===================================================================== *)

Module NxViews.

(** [G.edges()]: every node in turn reports the neighbours that have not
    reported yet, so an undirected edge appears once, from the endpoint
    that comes first in the node order; a self loop appears too. *)
Fixpoint edges_from (seen : gset Z) (G : Nx.Graph) : list (Z * Z) :=
  match G with
  | [] => []
  | (n, nbrs) :: G' =>
      ((λ nbr, (n, nbr)) <$> filter (λ nbr, nbr ∉ seen) nbrs)
      ++ edges_from ({[n]} ∪ seen) G'
  end.

Definition edges (G : Nx.Graph) : list (Z * Z) := edges_from ∅ G.

(** A neighbour list after [G._adj[u][v] = ...], as [Nx.set_nbr] leaves
    it: a new neighbour goes last. *)
Definition con (v : Z) (nb : list Z) : list Z :=
  if decide (v ∈ nb) then nb else nb ++ [v].

End NxViews.

Module Loader.

(** The files on disk, after parsing: a path holds the list of its edge
    lines, or nothing when there is no such file. *)
Abbreviation files := (string → option (list (Z * Z))).

(** [cargar_grafo(path)]; [None] is FileNotFoundError. *)
Definition cargar_grafo (fs : files) (path : string) : option Nx.Graph :=
  edges ← fs path; Some (Nx.from_edgelist edges).

(** [_load_graph_once(path)] on the global [_G_CACHE]: returns the graph
    and the new value of the cache; [None] is the error of
    [nx.read_edgelist] on a missing file, which leaves the cache as it was. *)
Definition _load_graph_once (fs : files) (_G_CACHE : option Nx.Graph)
    (path : string) : option (Nx.Graph * option Nx.Graph) :=
  match _G_CACHE with
  | None => edges ← fs path;
            Some (Nx.from_edgelist edges, Some (Nx.from_edgelist edges))
  | Some G => Some (G, Some G)
  end.

(** A sequence of calls of [_load_graph_once], threading the cache: the
    answers of the calls, [None] for a call that raised. *)
Fixpoint load_calls (fs : files) (_G_CACHE : option Nx.Graph)
    (paths : list string) : list (option Nx.Graph) :=
  match paths with
  | [] => []
  | path :: paths' =>
      match _load_graph_once fs _G_CACHE path with
      | Some (G, cache') => Some G :: load_calls fs cache' paths'
      | None => None :: load_calls fs _G_CACHE paths'
      end
  end.

End Loader.

Module Frame.

(** The constants of anuimate_seven_degrees.py. *)
Definition COLOR_DESCUBIERTO : string := "#2166f3".
Definition COLOR_FRONTERA : string := "#ff8f00".
Definition COLOR_OCULTO : string := "#d0d0d0".

(** What one call of [dibujar_frame(t)] computes before drawing it. *)
Record Frame := mkFrame {
  descubiertos : gset Z;
  frontera : gset Z;
  edges_visibles : list (Z * Z);
  colores : list string;
  tama : list Z;
  alcanzados : nat;
  porcentaje : Q
}.

(** [edges_visibles = [(u, v) for (u, v) in edges_todos
                       if u in descubiertos and v in descubiertos]] *)
Definition visibles (edges_todos : list (Z * Z)) (desc : gset Z)
  : list (Z * Z) :=
  filter (λ e, e.1 ∈ desc ∧ e.2 ∈ desc) edges_todos.

(** The branch of the colouring loop taken for node [u]: its colour and
    its size. *)
Definition pintar (fro desc : gset Z) (u : Z) : string * Z :=
  if decide (u ∈ fro) then (COLOR_FRONTERA, 70)
  else if decide (u ∈ desc) then (COLOR_DESCUBIERTO, 30)
  else (COLOR_OCULTO, 5).

(** [dibujar_frame(t)] with the variables it closes over as arguments.
    [porcentaje] is the exact value of [100.0 * alcanzados / grados_total];
    [None] is the ZeroDivisionError of that division. *)
Definition dibujar_frame (capas : list (gset Z)) (nodos_todos : list Z)
    (edges_todos : list (Z * Z)) (grados_total : nat) (t : Z)
  : option Frame :=
  let desc := Anim.descubiertos capas t in
  let fro := Anim.frontera capas t in
  let pintados := pintar fro desc <$> nodos_todos in
  match grados_total with
  | O => None
  | S _ =>
      Some (mkFrame desc fro (visibles edges_todos desc)
              (pintados.*1) (pintados.*2) (size desc)
              (100 * Z.of_nat (size desc) # Pos.of_nat grados_total))
  end.

(** [range(0, MAX_GRADOS + 1)] *)
Definition frames (max_grados : Z) : list Z :=
  Z.of_nat <$> seq 0 (Z.to_nat (max_grados + 1)).

(** [animar(G)] up to the frames of the animation: the origin, the
    subgraph and the result of [dibujar_frame] on every frame. *)
Definition animar (G : Nx.Graph) (source_id : option Z) (rnd : nat)
    (max_grados max_nodos_vista : Z)
  : option (Z * Nx.Graph * list (option Frame)) :=
  '(origen, H, dist, capas) ←
     Anim.animar G source_id rnd max_grados max_nodos_vista;
  Some (origen, H,
        dibujar_frame capas (Nx.nodes H) (NxViews.edges H)
          (Nx.number_of_nodes H) <$> frames max_grados).

End Frame.

(* ===================================================================== *)
(** ** The graphs of the end-to-end example *)
(* ===================================================================== *)

(** The star of the end-to-end example, read from the edge list
    0-1, 0-2, 0-3, 1-4. *)
Definition star : Nx.Graph := Nx.from_edgelist [(0,1); (0,2); (0,3); (1,4)].

(** The same graph read from the lines 0-3, 0-2, 0-1, 1-4. *)
Definition star' : Nx.Graph := Nx.from_edgelist [(0,3); (0,2); (0,1); (1,4)].

(* ===================================================================== *)
(** ** Running the code on the end-to-end example *)
(* ===================================================================== *)

Example star_adj :
  star = [(0, [1;2;3]); (1, [0;4]); (2, [0]); (3, [0]); (4, [1])].
Proof. reflexivity. Qed.

Example star'_adj :
  star' = [(0, [3;2;1]); (3, [0]); (2, [0]); (1, [0;4]); (4, [1])].
Proof. reflexivity. Qed.

Example star_wf : Nx.wf_graph star = true.
Proof. vm_compute. reflexivity. Qed.

Example star_run_grados :
  (λ m, SevenDegreesModel.grado <$> SevenDegreesModel.log m) <$>
    SevenDegreesModel.run star (Some 0) 0 7 = Some [0;1;2;3]%nat.
Proof. vm_compute. reflexivity. Qed.

Example star_dist :
  Bfs.single_source_shortest_path_length star 0 3
  = Some [(0,0); (1,1); (2,1); (3,1); (4,2)].
Proof. vm_compute. reflexivity. Qed.

Example star'_dist :
  Bfs.single_source_shortest_path_length star' 0 3
  = Some [(0,0); (3,1); (2,1); (1,1); (4,2)].
Proof. vm_compute. reflexivity. Qed.

Example star_sel :
  Anim.nodos_seleccionados star [(0,0); (1,1); (2,1); (3,1); (4,2)] 3
  = Some [0; 1; 2].
Proof. vm_compute. reflexivity. Qed.

Example star'_sel :
  Anim.nodos_seleccionados star' [(0,0); (3,1); (2,1); (1,1); (4,2)] 3
  = Some [0; 1; 3].
Proof. vm_compute. reflexivity. Qed.

Example star_sub0 :
  Anim.subgrafo_por_grados star 0 3 0 = Some ([], []).
Proof. vm_compute. reflexivity. Qed.

Example star_sub3 :
  Anim.subgrafo_por_grados star 0 3 3
  = Some ([(0, [1;2]); (1, [0]); (2, [0])], [(0,0); (1,1); (2,1)]).
Proof. vm_compute. reflexivity. Qed.

Example star_sub_neg :
  Anim.subgrafo_por_grados star 0 3 (-1)
  = Some ([(0, [1;2;3]); (1, [0]); (2, [0]); (3, [0])],
          [(0,0); (1,1); (2,1); (3,1)]).
Proof. vm_compute. reflexivity. Qed.

(* ===================================================================== *)
(** ** Facts about the graph representation *)
(* ===================================================================== *)

Section graph_facts.
Context (G : Nx.Graph).

Lemma adj_Some_elem u nb : Nx.adj G u = Some nb → (u, nb) ∈ G.
Proof.
  induction G as [|[k nb'] G' IH]; simpl; [done|].
  case_decide; intros ?; simplify_eq; [left | right; auto].
Qed.

Lemma adj_is_Some u : is_Some (Nx.adj G u) ↔ u ∈ Nx.nodes G.
Proof.
  unfold Nx.nodes. induction G as [|[k nb'] G' IH]; simpl.
  - split; [intros [? ?]; done | intros ?%elem_of_nil; done].
  - case_decide; subst.
    + split; [intros _; left | eauto].
    + rewrite IH. split; [by right|].
      intros [?|?]%elem_of_cons; [congruence | done].
Qed.

Lemma contains_nodes u : Nx.contains G u = true ↔ u ∈ Nx.nodes G.
Proof. unfold Nx.contains. rewrite bool_decide_eq_true. apply adj_is_Some. Qed.

Lemma wf_NoDup_nodes : Nx.wf_graph G = true → NoDup (Nx.nodes G).
Proof.
  unfold Nx.wf_graph. intros [H _]%andb_prop.
  by apply bool_decide_eq_true in H.
Qed.

Lemma wf_neighbours u nb v :
  Nx.wf_graph G = true → Nx.adj G u = Some nb → v ∈ nb → v ∈ Nx.nodes G.
Proof.
  unfold Nx.wf_graph. intros [_ H]%andb_prop Hadj Hv.
  rewrite forallb_forall in H.
  apply adj_Some_elem, list_elem_of_In, H in Hadj. simpl in Hadj.
  apply andb_prop in Hadj as [_ Hadj]. rewrite forallb_forall in Hadj.
  apply contains_nodes, Hadj, list_elem_of_In, Hv.
Qed.

Lemma edge_nodes u v :
  Nx.wf_graph G = true → Paths.edge G u v → u ∈ Nx.nodes G ∧ v ∈ Nx.nodes G.
Proof.
  intros Hwf (nb & Hadj & Hv). split.
  - apply adj_is_Some. eauto.
  - eapply wf_neighbours; eauto.
Qed.

Lemma walk_nodes o v n :
  Nx.wf_graph G = true → o ∈ Nx.nodes G → Paths.walk G o v n →
  v ∈ Nx.nodes G.
Proof.
  intros Hwf Ho Hw. destruct Hw as [|w v n _ He]; [done|].
  by apply edge_nodes in He as [_ ?].
Qed.
End graph_facts.

(* ===================================================================== *)
(** ** The breadth-first invariant shared by both searches *)
(* ===================================================================== *)

Section bfs_invariant.
Context (G : Nx.Graph) (o : Z).


Lemma bfs_inv_init : bfs_inv G o 0 {[o]} {[o]}.
Proof.
  split.
  - intros v. rewrite elem_of_singleton. split.
    + intros ->. exists 0%nat. split; [lia | constructor].
    + intros (j & Hj & Hw). assert (j = 0%nat) as -> by lia.
      by inversion Hw.
  - intros v. rewrite elem_of_singleton. split.
    + intros ->. split; [constructor | intros; lia].
    + intros [Hw _]. by inversion Hw.
  - intros w v Hw Hnw. done.
Qed.

Lemma bfs_inv_hop k alc fro v :
  bfs_inv G o k alc fro → (v ∈ fro ↔ Paths.hop_dist G o v k).
Proof.
  intros Hinv. rewrite (inv_fro _ _ _ _ _ Hinv). unfold Paths.hop_dist.
  split; intros [Hw Hmin]; (split; [done|]).
  - intros j Hj. destruct (decide (j < k)%nat) as [Hlt|]; [|lia].
    by destruct (Hmin j Hlt).
  - intros j Hj Hwj. apply Hmin in Hwj. lia.
Qed.

Lemma bfs_inv_fro_alc k alc fro v : bfs_inv G o k alc fro → v ∈ fro → v ∈ alc.
Proof.
  intros Hinv [Hw _]%(inv_fro _ _ _ _ _ Hinv).
  apply (inv_alc _ _ _ _ _ Hinv). eauto.
Qed.

(** One round: the next layer is made of the unreached neighbours of the
    current one. *)
Lemma bfs_inv_step k alc fro nf :
  bfs_inv G o k alc fro →
  (∀ v, v ∈ nf ↔ (v ∉ alc) ∧ ∃ u, u ∈ fro ∧ Paths.edge G u v) →
  bfs_inv G o (S k) (alc ∪ nf) nf.
Proof.
  intros Hinv Hnf.
  assert (Hnext : ∀ w v, w ∈ alc → Paths.edge G w v → v ∈ alc ∨ v ∈ nf).
  { intros w v Hw He. destruct (decide (v ∈ alc)) as [|Hv]; [by left|].
    right. apply Hnf. split; [done|].
    destruct (decide (w ∈ fro)) as [|Hwf]; [eauto|].
    destruct Hv. eapply inv_closed; eauto. }
  assert (Hfro : ∀ v, v ∈ nf ↔
            Paths.walk G o v (S k) ∧
            ∀ j, (j < S k)%nat → ¬ Paths.walk G o v j).
  { intros v. rewrite Hnf. split.
    - intros (Hv & u & Hu & He). split.
      + apply (inv_fro _ _ _ _ _ Hinv) in Hu as [Hu _].
        econstructor; eauto.
      + intros j Hj Hwj. apply Hv, (inv_alc _ _ _ _ _ Hinv).
        exists j. split; [lia | done].
    - intros [Hw Hmin].
      assert (Hv : v ∉ alc).
      { intros (j & Hj & Hwj)%(inv_alc _ _ _ _ _ Hinv).
        apply (Hmin j); [lia | done]. }
      split; [done|]. inversion Hw as [|w v' n Hww He]; subst.
      assert (Hwa : w ∈ alc) by (apply (inv_alc _ _ _ _ _ Hinv); eauto).
      destruct (decide (w ∈ fro)); [eauto|].
      destruct Hv. eapply inv_closed; eauto. }
  split; [| done |].
  - intros v. rewrite elem_of_union. split.
    + intros [(j & Hj & Hw)%(inv_alc _ _ _ _ _ Hinv) | [Hw _]%Hfro].
      * exists j. split; [lia | done].
      * exists (S k). split; [lia | done].
    + intros (j & Hj & Hw).
      destruct (decide (j ≤ k)%nat) as [Hle|Hgt].
      * left. apply (inv_alc _ _ _ _ _ Hinv). eauto.
      * assert (j = S k) as -> by lia.
        inversion Hw as [|w v' n Hww He]; subst.
        apply (Hnext w); [|done]. apply (inv_alc _ _ _ _ _ Hinv). eauto.
  - intros w v [Hw|Hw]%elem_of_union Hnw He; [|done].
    apply elem_of_union. eapply Hnext; eauto.
Qed.

(** Once the layer is empty, the reached set is closed: nothing else has
    a walk from the origin. *)
Lemma bfs_inv_exhausted k alc v j :
  bfs_inv G o k alc ∅ → Paths.walk G o v j → v ∈ alc.
Proof.
  intros Hinv Hw. induction Hw as [|w v n Hw IH He].
  - apply (inv_alc _ _ _ _ _ Hinv). exists 0%nat. split; [lia | constructor].
  - eapply inv_closed; eauto. set_solver.
Qed.

Lemma bfs_inv_exhausted_hop k alc v d :
  bfs_inv G o k alc ∅ → Paths.hop_dist G o v d → (d < k)%nat.
Proof.
  intros Hinv [Hw Hmin].
  pose proof (bfs_inv_exhausted _ _ _ _ Hinv Hw) as Hv.
  apply (inv_alc _ _ _ _ _ Hinv) in Hv as (j & Hj & Hwj).
  destruct (decide (j = k)) as [->|].
  - destruct (decide (d < k)%nat) as [|Hge]; [done|].
    assert (v ∈ (∅ : gset Z)); [|set_solver].
    apply (inv_fro _ _ _ _ _ Hinv). split; [done|].
    intros i Hi Hwi. apply Hmin in Hwi. lia.
  - apply Hmin in Hwj. lia.
Qed.
End bfs_invariant.

Lemma hop_dist_unique G o v d1 d2 :
  Paths.hop_dist G o v d1 → Paths.hop_dist G o v d2 → d1 = d2.
Proof.
  intros [Hw1 Hm1] [Hw2 Hm2]. apply Hm1 in Hw2. apply Hm2 in Hw1. lia.
Qed.

(* ===================================================================== *)
(** ** SevenDegreesModel: every step is one BFS round *)
(* ===================================================================== *)

Module ModelFacts.
Import SevenDegreesModel.

Lemma concat_neighbours G us vs v :
  Forall2 (λ u nb, Nx.neighbors G u = Some nb) us vs →
  v ∈ concat vs ↔ ∃ u, u ∈ us ∧ Paths.edge G u v.
Proof.
  induction 1 as [|u nb us vs Hu _ IH]; simpl.
  - split; [intros ?%elem_of_nil; done | intros (? & ?%elem_of_nil & _); done].
  - rewrite elem_of_app, IH. split.
    + intros [Hv | (u' & Hu' & He)].
      * exists u. split; [left | exists nb; done].
      * exists u'. split; [by right | done].
    + intros (u' & [->|Hu']%elem_of_cons & He).
      * left. destruct He as (nb' & Hnb' & Hv).
        unfold Nx.neighbors in Hu. congruence.
      * right. eauto.
Qed.

Lemma nueva_frontera_spec G alc fro nf :
  nueva_frontera G alc fro = Some nf →
  ∀ v, v ∈ nf ↔ (v ∉ alc) ∧ ∃ u, u ∈ fro ∧ Paths.edge G u v.
Proof.
  unfold nueva_frontera. intros Hnf v.
  destruct (mapM _ _) as [vs|] eqn:Hvs; simplify_eq/=.
  apply mapM_Some in Hvs.
  rewrite elem_of_list_to_set, list_elem_of_filter.
  rewrite (concat_neighbours _ _ _ _ Hvs).
  by setoid_rewrite elem_of_elements.
Qed.

Lemma nueva_frontera_total G alc fro :
  (∀ u, u ∈ fro → u ∈ Nx.nodes G) → is_Some (nueva_frontera G alc fro).
Proof.
  intros Hfro. unfold nueva_frontera.
  destruct (mapM _ _) as [vs|] eqn:Hvs; [by eexists|].
  assert (is_Some (mapM (Nx.neighbors G) (elements fro))) as [? ?];
    [|congruence].
  apply mapM_is_Some, Forall_forall. intros u Hu%elem_of_elements.
  by apply adj_is_Some, Hfro.
Qed.

Lemma fraccion_total G n u : u ∈ Nx.nodes G → is_Some (fraccion G n).
Proof.
  unfold fraccion, Nx.number_of_nodes, Nx.nodes.
  destruct G; [intros ?%elem_of_nil; done | by eexists].
Qed.


Lemma good_nodes G o steps m v :
  Nx.wf_graph G = true → o ∈ Nx.nodes G → good G o steps m →
  v ∈ alcanzados m → v ∈ Nx.nodes G.
Proof.
  intros Hwf Ho (_ & Hinv & _) (j & _ & Hw)%(inv_alc _ _ _ _ _ Hinv).
  eapply walk_nodes; eauto.
Qed.

(** [sim_step] in closed form. *)
Lemma sim_step_eq G steps m nf fr :
  nueva_frontera G (alcanzados m) (frontera m) = Some nf →
  fraccion G (size (alcanzados m ∪ nf)) = Some fr →
  sim_step G steps m =
    Some (mkModel (source m) (alcanzados m ∪ nf) nf (S (t m))
            (running m && negb (bool_decide (nf = ∅))
                       && negb (bool_decide (steps ≤ S (t m))%nat))
            (log m ++ [mkRow (S (t m)) (size (alcanzados m ∪ nf)) fr])).
Proof.
  intros Hnf Hfr. unfold sim_step, step, record, stop.
  cbn [source alcanzados frontera t running log].
  rewrite Hnf. cbn [mbind option_bind]. rewrite Hfr.
  cbn [mbind option_bind source alcanzados frontera t running log].
  destruct (decide (nf = ∅)) as [Hn|Hn];
    [rewrite (bool_decide_eq_true_2 _ Hn) | rewrite (bool_decide_eq_false_2 _ Hn)];
    cbn [source alcanzados frontera t running log];
    (destruct (decide (steps ≤ S (t m))%nat) as [Hs|Hs];
     [rewrite (bool_decide_eq_true_2 _ Hs) | rewrite (bool_decide_eq_false_2 _ Hs)]);
    cbn [source alcanzados frontera t running log negb];
    rewrite ?andb_false_r, ?andb_true_r; reflexivity.
Qed.

Lemma sim_setup_eq G o rnd steps fr :
  Nx.contains G o = true →
  fraccion G (size ({[o]} : gset Z)) = Some fr →
  sim_setup G (Some o) rnd steps =
    Some (mkModel o {[o]} {[o]} 0 (negb (bool_decide (steps ≤ 0)%nat))
            [mkRow 0 (size ({[o]} : gset Z)) fr]).
Proof.
  intros Ho Hfr. unfold sim_setup, setup, record, stop. rewrite Ho.
  cbn [mbind option_bind source alcanzados frontera t running log].
  rewrite Hfr.
  cbn [mbind option_bind source alcanzados frontera t running log app].
  destruct (decide (steps ≤ 0)%nat) as [Hs|Hs];
    [rewrite (bool_decide_eq_true_2 _ Hs) | rewrite (bool_decide_eq_false_2 _ Hs)];
    reflexivity.
Qed.

Lemma sim_setup_spec G o rnd steps :
  Nx.contains G o = true →
  ∃ m0 r, sim_setup G (Some o) rnd steps = Some m0 ∧ good G o steps m0 ∧
    t m0 = 0%nat ∧ alcanzados m0 = {[o]} ∧ frontera m0 = {[o]} ∧
    log m0 = [r] ∧ row_ok G m0 r.
Proof.
  intros Ho.
  destruct (fraccion_total G (size ({[o]} : gset Z)) o) as [fr Hfr];
    [by apply contains_nodes|].
  eexists _, _. split; [by apply sim_setup_eq|].
  split; [|by repeat split].
  split; [done|]. split; [apply bfs_inv_init|].
  cbn [source alcanzados frontera t running log]. split.
  - intros Hs%negb_true_iff%bool_decide_eq_false.
    split; [set_solver | lia].
  - intros Hs%negb_false_iff%bool_decide_eq_true. by right.
Qed.

Lemma sim_step_spec G o steps m :
  Nx.wf_graph G = true → o ∈ Nx.nodes G → good G o steps m →
  ∃ m' r, sim_step G steps m = Some m' ∧ good G o steps m' ∧
    t m' = S (t m) ∧ alcanzados m' = alcanzados m ∪ frontera m' ∧
    log m' = log m ++ [r] ∧ row_ok G m' r.
Proof.
  intros Hwf Ho Hgood. pose proof Hgood as (Hsrc & Hinv & Hrun & Hstop).
  destruct (nueva_frontera_total G (alcanzados m) (frontera m)) as [nf Hnf].
  { intros u Hu. eapply good_nodes; eauto.
    eapply bfs_inv_fro_alc; eauto. }
  pose proof (bfs_inv_step _ _ _ _ _ _ Hinv
                (nueva_frontera_spec _ _ _ _ Hnf)) as Hinv'.
  destruct (fraccion_total G (size (alcanzados m ∪ nf)) o Ho) as [fr Hfr].
  eexists _, _. split; [by apply sim_step_eq|].
  split; [|by repeat split].
  split; [done|]. split; [done|].
  cbn [source alcanzados frontera t running log]. split.
  - intros [[Hr Hn%negb_true_iff%bool_decide_eq_false]%andb_prop
            Hs%negb_true_iff%bool_decide_eq_false]%andb_prop.
    split; [done | lia].
  - intros Hr. destruct (decide (nf = ∅)) as [|Hn]; [by left|].
    destruct (decide (steps ≤ S (t m))%nat) as [|Hs]; [by right|].
    rewrite (bool_decide_eq_false_2 _ Hn), (bool_decide_eq_false_2 _ Hs) in Hr.
    rewrite !andb_true_r in Hr. destruct (Hstop Hr) as [Hf|?]; [|right; lia].
    left. apply set_eq. intros v.
    rewrite (nueva_frontera_spec _ _ _ _ Hnf v), Hf. split.
    + intros (_ & u & Hu%not_elem_of_empty & _). done.
    + intros Hv%not_elem_of_empty. done.
Qed.

(** The loop ends, and every state it goes through is a BFS round. *)
Lemma sim_loop_spec G o steps fuel m :
  Nx.wf_graph G = true → o ∈ Nx.nodes G → good G o steps m →
  (steps - t m ≤ fuel)%nat →
  ∃ ms mf rows, sim_loop G steps fuel m = Some ms ∧
    last (m :: ms) = Some mf ∧
    Forall (good G o steps) ms ∧
    (∀ i m', ms !! i = Some m' → t m' = (t m + S i)%nat) ∧
    (∀ i m', (m :: ms) !! i = Some m' → (i < length ms)%nat →
             running m' = true) ∧
    running mf = false ∧
    alcanzados mf = alcanzados m ∪ ⋃ (frontera <$> ms) ∧
    log mf = log m ++ rows ∧ Forall2 (row_ok G) ms rows.
Proof.
  intros Hwf Ho. revert m.
  induction fuel as [|fuel IH]; intros m Hgood Hfuel;
    destruct (running m) eqn:Hrun.
  - destruct Hgood as (_ & _ & Hr & _). destruct (Hr Hrun). lia.
  - exists [], m, []. simpl. rewrite Hrun.
    repeat split; try done; try (intros ? ? ?; simpl; lia).
    + set_solver.
    + by rewrite app_nil_r.
  - destruct (sim_step_spec G o steps m Hwf Ho Hgood)
      as (m' & r & Hstep & Hgood' & Ht & Halc & Hlog & Hrow).
    destruct (IH m' Hgood') as
      (ms & mf & rows & Hloop & Hlast & Hall & Hts & Hruns & Hend & Hu & Hl & Hrows);
      [lia|].
    exists (m' :: ms), mf, (r :: rows). simpl. rewrite Hrun, Hstep. simpl.
    rewrite Hloop. simpl. repeat split; try done.
    + by constructor.
    + intros [|i] m'' Hi; simpl in Hi; simplify_eq; [lia|].
      rewrite (Hts _ _ Hi). lia.
    + intros [|i] m'' Hi Hlen; simpl in Hi; simplify_eq; [done|].
      apply (Hruns i); [done | simpl in Hlen; lia].
    + rewrite Hu, Halc. set_solver.
    + rewrite Hl, Hlog. by rewrite <- app_assoc.
    + by constructor.
  - exists [], m, []. simpl. rewrite Hrun.
    repeat split; try done; try (intros ? ? ?; simpl; lia).
    + set_solver.
    + by rewrite app_nil_r.
Qed.

(** The whole run from a valid origin. *)
Lemma run_states_spec G o rnd steps :
  Nx.wf_graph G = true → Nx.contains G o = true →
  ∃ ms mf, run_states G (Some o) rnd steps = Some ms ∧
    last ms = Some mf ∧
    (∃ m0, ms !! 0%nat = Some m0 ∧ frontera m0 = {[o]}) ∧
    Forall (good G o steps) ms ∧
    (∀ i m, ms !! i = Some m → t m = i) ∧
    (∀ i m, ms !! i = Some m → (S i < length ms)%nat → running m = true) ∧
    running mf = false ∧
    alcanzados mf = ⋃ (frontera <$> ms) ∧
    Forall2 (row_ok G) ms (log mf).
Proof.
  intros Hwf Ho.
  destruct (sim_setup_spec G o rnd steps Ho)
    as (m0 & r & Hsetup & Hgood & Ht & Halc & Hfro & Hlog & Hrow).
  apply contains_nodes in Ho.
  destruct (sim_loop_spec G o steps steps m0 Hwf Ho Hgood) as
    (ms & mf & rows & Hloop & Hlast & Hall & Hts & Hruns & Hend & Hu & Hl & Hrows);
    [lia|].
  exists (m0 :: ms), mf. unfold run_states. rewrite Hsetup. simpl.
  rewrite Hloop. simpl. repeat split; try done.
  - eauto.
  - by constructor.
  - intros [|i] m Hi; simpl in Hi; simplify_eq; [done|].
    rewrite (Hts _ _ Hi). lia.
  - intros i m Hi Hlen. apply (Hruns i); [done | simpl in Hlen; lia].
  - rewrite Hu, Halc, Hfro. done.
  - rewrite Hl, Hlog. by constructor.
Qed.

End ModelFacts.

(* ===================================================================== *)
(** ** Dictionaries *)
(* ===================================================================== *)

Section dict_facts.
Implicit Types d : Py.dict.

Lemma getitem_Some_elem d k v : Py.getitem d k = Some v → (k, v) ∈ d.
Proof.
  induction d as [|[k' v'] d IH]; simpl; [done|].
  case_decide; intros ?; simplify_eq; [left | right; auto].
Qed.

Lemma getitem_is_Some d k : is_Some (Py.getitem d k) ↔ k ∈ Py.keys d.
Proof.
  unfold Py.keys. induction d as [|[k' v'] d IH]; simpl.
  - split; [intros [? ?]; done | intros ?%elem_of_nil; done].
  - case_decide; subst.
    + split; [intros _; left | eauto].
    + rewrite IH. split; [by right|].
      intros [?|?]%elem_of_cons; [congruence | done].
Qed.

Lemma elem_getitem d k v :
  NoDup (Py.keys d) → (k, v) ∈ d → Py.getitem d k = Some v.
Proof.
  unfold Py.keys. induction d as [|[k' v'] d IH]; simpl.
  - intros _ ?%elem_of_nil. done.
  - intros [Hk Hnd]%NoDup_cons [?|Hin]%elem_of_cons; simplify_eq.
    + by rewrite decide_True.
    + rewrite decide_False; [auto|]. intros ->. apply Hk.
      apply list_elem_of_fmap. by exists (k, v).
Qed.

Lemma getitem_elem_iff d k v :
  NoDup (Py.keys d) → Py.getitem d k = Some v ↔ (k, v) ∈ d.
Proof. split; [apply getitem_Some_elem | by apply elem_getitem]. Qed.

Lemma setitem_fresh d k v : k ∉ Py.keys d → Py.setitem d k v = d ++ [(k, v)].
Proof.
  unfold Py.keys. induction d as [|[k' v'] d IH]; simpl; [done|].
  intros Hk. rewrite decide_False, IH; [done | |]; set_solver.
Qed.

Lemma dict_of_items_NoDup (items : list (Z * Z)) :
  NoDup items.*1 → Py.dict_of_items items = items.
Proof.
  unfold Py.dict_of_items.
  enough (∀ acc, NoDup ((acc ++ items).*1) →
            foldl (λ d '(k, v), Py.setitem d k v) acc items = acc ++ items)
    as H by (intros Hnd; by apply (H [])).
  induction items as [|[k v] items IH]; intros acc Hnd; simpl.
  - by rewrite app_nil_r.
  - rewrite setitem_fresh.
    + rewrite IH, <- app_assoc; [done|]. by rewrite <- app_assoc.
    + rewrite fmap_app in Hnd. apply NoDup_app in Hnd as (_ & Hd & _).
      intros Hk. apply (Hd k Hk). simpl. left.
Qed.

(** Filtering a dictionary on its keys. *)
Lemma getitem_filter_keys (P : Z → Prop) `{!∀ k, Decision (P k)} d k :
  Py.getitem (filter (λ '(u, _), P u) d) k
  = if decide (P k) then Py.getitem d k else None.
Proof.
  induction d as [|[k' v'] d IH]; simpl; [by case_decide|].
  rewrite filter_cons. simpl.
  destruct (decide (P k')) as [Hk'|Hk']; simpl.
  - destruct (decide (k' = k)) as [->|]; [by rewrite decide_True | done].
  - rewrite IH. destruct (decide (k' = k)) as [->|]; [|done].
    by destruct (decide (P k)).
Qed.

Lemma keys_filter_keys (P : Z → Prop) `{!∀ k, Decision (P k)} d :
  Py.keys (filter (λ '(u, _), P u) d) = filter P (Py.keys d).
Proof.
  unfold Py.keys. induction d as [|[k' v'] d IH]; simpl; [done|].
  rewrite !filter_cons. simpl. destruct (decide (P k')); simpl; by f_equal.
Qed.
End dict_facts.

(* ===================================================================== *)
(** ** networkx BFS: the distance dictionary holds the hop distances *)
(* ===================================================================== *)

Lemma hop_dist_pred G o v d :
  Paths.hop_dist G o v (S d) → ∃ w, Paths.hop_dist G o w d ∧ Paths.edge G w v.
Proof.
  intros [Hw Hmin]. inversion Hw as [|w v' n Hww He]; subst.
  exists w. split; [|done]. split; [done|].
  intros j Hj. assert (Paths.walk G o v (S j)) as Hv by (econstructor; eauto).
  apply Hmin in Hv. lia.
Qed.

Lemma hop_dist_below G o v d d' :
  Paths.hop_dist G o v d → (d' ≤ d)%nat → ∃ w, Paths.hop_dist G o w d'.
Proof.
  revert v. induction d as [|d IH]; intros v Hv Hle.
  - assert (d' = 0%nat) as -> by lia. eauto.
  - destruct (decide (d' = S d)) as [->|]; [eauto|].
    apply hop_dist_pred in Hv as (w & Hw & _). apply (IH w Hw). lia.
Qed.

Module BfsFacts.
Import Bfs.

Lemma scan_adj_spec ws : ∀ seen s nl,
  scan_adj seen ws = (s, nl) →
  s = seen ∪ list_to_set nl ∧ NoDup nl ∧
  (∀ w, w ∈ nl ↔ w ∈ ws ∧ w ∉ seen).
Proof.
  induction ws as [|w ws IH]; intros seen s nl; simpl.
  - intros ?; simplify_eq. split; [set_solver|]. split; [constructor|].
    set_solver.
  - case_decide as Hw.
    + intros (-> & Hnd & Hnl)%IH. split; [done|]. split; [done|].
      intros w'. rewrite Hnl. set_solver.
    + destruct (scan_adj ({[w]} ∪ seen) ws) as [s' nl'] eqn:Hscan.
      intros ?; simplify_eq. apply IH in Hscan as (-> & Hnd & Hnl).
      split; [set_solver|]. split.
      * constructor; [|done]. rewrite Hnl. set_solver.
      * intros w'. rewrite elem_of_cons, Hnl.
        destruct (decide (w' = w)) as [->|]; set_solver.
Qed.

Lemma scan_level_spec G n vs : ∀ seen s nl ret,
  scan_level G n seen vs = Some (s, nl, ret) →
  s = seen ∪ list_to_set nl ∧ NoDup nl ∧
  (∀ w, w ∈ nl → (w ∉ seen) ∧ ∃ v, v ∈ vs ∧ Paths.edge G v w) ∧
  (ret = false → ∀ v w, v ∈ vs → Paths.edge G v w → w ∈ s) ∧
  (ret = true → size s = n).
Proof.
  induction vs as [|v vs IH]; intros seen s nl ret; simpl.
  - intros ?; simplify_eq. split; [set_solver|]. split; [constructor|].
    split; [intros w ?%elem_of_nil; done|].
    split; [intros _ v w ?%elem_of_nil; done | done].
  - destruct (Nx.adj G v) as [nb|] eqn:Hadj; [simpl | done].
    destruct (scan_adj seen nb) as [s1 nl1] eqn:Hscan.
    apply scan_adj_spec in Hscan as (-> & Hnd1 & Hnl1).
    case_decide as Hsize.
    + intros ?; simplify_eq. split; [done|]. split; [done|].
      split; [|split; [done | by intros _]].
      intros w Hw%Hnl1. split; [by destruct Hw|].
      exists v. split; [left|]. exists nb. split; [done | by destruct Hw].
    + destruct (scan_level G n _ vs) as [[[s2 nl2] ret2]|] eqn:Hlev;
        [simpl | done].
      intros ?; simplify_eq.
      apply IH in Hlev as (-> & Hnd2 & Hnl2 & Hcl & Hsz).
      split; [set_solver|]. split; [|split; [|split]].
      * apply NoDup_app. split; [done|]. split; [|done].
        intros w Hw1 Hw2. apply Hnl2 in Hw2 as [Hw2 _]. set_solver.
      * intros w [Hw|Hw]%elem_of_app.
        -- split; [by apply Hnl1|]. exists v. split; [left|].
           exists nb. split; [done|]. by apply Hnl1.
        -- apply Hnl2 in Hw as (Hw & v' & Hv' & He).
           split; [set_solver|]. exists v'. split; [by right | done].
      * intros -> v' w [->|Hv']%elem_of_cons He.
        -- destruct He as (nb' & Hnb' & Hw). simplify_eq.
           destruct (decide (w ∈ seen)); [set_solver|].
           assert (w ∈ nl1) by (by apply Hnl1). set_solver.
        -- eapply Hcl; eauto.
      * done.
Qed.

Lemma scan_level_total G n vs : ∀ seen,
  (∀ v, v ∈ vs → v ∈ Nx.nodes G) → is_Some (scan_level G n seen vs).
Proof.
  induction vs as [|v vs IH]; intros seen Hvs; simpl; [by eexists|].
  destruct (proj2 (adj_is_Some G v)) as [nb ->]; [apply Hvs; left|]. simpl.
  destruct (scan_adj seen nb) as [s1 nl1]. case_decide; [by eexists|].
  destruct (IH s1) as [[[s2 nl2] ret] ->]; [|by eexists].
  intros v' Hv'. apply Hvs. by right.
Qed.

(** Leaving the loop early loses nothing: every node of the graph has been
    seen by then. *)
Lemma scan_level_full G vs seen s nl :
  Nx.wf_graph G = true →
  (∀ v, v ∈ seen → v ∈ Nx.nodes G) →
  scan_level G (Nx.number_of_nodes G) seen vs = Some (s, nl, true) →
  ∀ w, w ∈ Nx.nodes G → w ∈ s.
Proof.
  intros Hwf Hseen Hlev w Hw.
  pose proof (scan_level_spec _ _ _ _ _ _ _ Hlev) as (-> & Hnd & Hnl & Hcl & Hsz).
  assert (Hsub : seen ∪ list_to_set nl ⊆ list_to_set (Nx.nodes G)).
  { intros x [Hx|Hx%elem_of_list_to_set]%elem_of_union;
      apply elem_of_list_to_set; [auto|].
    apply Hnl in Hx as (_ & v' & _ & He').
    by apply (edge_nodes _ _ _ Hwf) in He' as [_ ?]. }
  apply set_subseteq_size_eq in Hsub.
  - rewrite Hsub. by apply elem_of_list_to_set.
  - rewrite size_list_to_set by (by apply wf_NoDup_nodes).
    rewrite (Hsz eq_refl). unfold Nx.number_of_nodes, Nx.nodes.
    by rewrite length_fmap.
Qed.

Lemma scan_level_closed G vs seen s nl ret :
  Nx.wf_graph G = true →
  (∀ v, v ∈ seen → v ∈ Nx.nodes G) →
  scan_level G (Nx.number_of_nodes G) seen vs = Some (s, nl, ret) →
  ∀ v w, v ∈ vs → Paths.edge G v w → w ∈ s.
Proof.
  intros Hwf Hseen Hlev. destruct ret.
  - intros v w _ He. apply (edge_nodes _ _ _ Hwf) in He as [_ Hw].
    eapply scan_level_full; eauto.
  - by apply (scan_level_spec _ _ _ _ _ _ _ Hlev).
Qed.

Lemma elem_of_level_items (nl : list Z) (z : Z) v z' :
  (v, z') ∈ (λ w, (w, z)) <$> nl ↔ z' = z ∧ v ∈ nl.
Proof.
  rewrite list_elem_of_fmap. split.
  - intros (w & ? & Hw); simplify_eq. done.
  - intros [-> Hv]. eauto.
Qed.

Lemma level_items_keys (nl : list Z) (z : Z) :
  ((λ w, (w, z)) <$> nl).*1 = nl.
Proof. rewrite <- list_fmap_compose. apply list_fmap_id. Qed.

(** The loop yields, level by level, exactly the nodes whose hop distance
    lies within the levels still allowed. *)
Lemma levels_spec G o k : ∀ lv seen thislevel,
  Nx.wf_graph G = true → o ∈ Nx.nodes G →
  bfs_inv G o lv seen (list_to_set thislevel) →
  ∃ out,
    levels G (Nx.number_of_nodes G) k seen thislevel (Z.of_nat lv) = Some out ∧
    NoDup out.*1 ∧
    (∀ v, v ∈ out.*1 → v ∉ seen) ∧
    (∀ v z, (v, z) ∈ out ↔
       ∃ d, z = Z.of_nat d ∧ (lv < d ≤ lv + k)%nat ∧ Paths.hop_dist G o v d).
Proof.
  induction k as [|k IH]; intros lv seen thislevel Hwf Ho Hinv.
  { exists []. simpl. split; [done|]. split; [constructor|].
    split; [intros v ?%elem_of_nil; done|]. intros v z. split.
    - intros ?%elem_of_nil. done.
    - intros (d & _ & ? & _). lia. }
  destruct thislevel as [|x xs].
  { exists []. simpl. split; [done|]. split; [constructor|].
    split; [intros v ?%elem_of_nil; done|]. intros v z. split.
    - intros ?%elem_of_nil. done.
    - intros (d & _ & ? & Hd). simpl in Hinv.
      pose proof (bfs_inv_exhausted_hop _ _ _ _ _ _ Hinv Hd). lia. }
  set (thislevel := x :: xs) in *.
  assert (Hseen : ∀ v, v ∈ seen → v ∈ Nx.nodes G).
  { intros v (j & _ & Hw)%(inv_alc _ _ _ _ _ Hinv).
    eapply walk_nodes; eauto. }
  destruct (scan_level_total G (Nx.number_of_nodes G) thislevel seen)
    as [[[s nl] ret] Hlev].
  { intros v Hv. apply Hseen. eapply bfs_inv_fro_alc; [done|].
    by apply elem_of_list_to_set. }
  pose proof (scan_level_spec _ _ _ _ _ _ _ Hlev) as (Hs & Hnd & Hnl & _ & _).
  pose proof (scan_level_closed _ _ _ _ _ _ Hwf Hseen Hlev) as Hcl.
  assert (Hnf : ∀ v, v ∈ (list_to_set nl : gset Z) ↔
            (v ∉ seen) ∧ ∃ u, u ∈ (list_to_set thislevel : gset Z) ∧
                               Paths.edge G u v).
  { intros v. rewrite elem_of_list_to_set. split.
    - intros (Hv & u & Hu & He)%Hnl. split; [done|].
      exists u. by rewrite elem_of_list_to_set.
    - intros (Hv & u & Hu%elem_of_list_to_set & He).
      pose proof (Hcl _ _ Hu He) as Hvs. rewrite Hs in Hvs.
      apply elem_of_union in Hvs as [?|?%elem_of_list_to_set]; done. }
  pose proof (bfs_inv_step _ _ _ _ _ _ Hinv Hnf) as Hinv'.
  rewrite <- Hs in Hinv'.
  assert (Hfirst : ∀ v z, (v, z) ∈ (λ w, (w, Z.of_nat lv + 1)) <$> nl ↔
            z = Z.of_nat (S lv) ∧ Paths.hop_dist G o v (S lv)).
  { intros v z. rewrite elem_of_level_items.
    rewrite <- (bfs_inv_hop _ _ _ _ _ v Hinv'), elem_of_list_to_set.
    split; intros [-> ?]; (split; [lia | done]). }
  assert (Hfresh : ∀ v, v ∈ nl → v ∉ seen) by (intros v Hv; by apply Hnl).
  unfold thislevel in Hlev |- *. cbn [levels]. rewrite Hlev.
  cbn [mbind option_bind]. destruct ret.
  - eexists. split; [done|]. rewrite level_items_keys.
    split; [done|]. split; [done|]. intros v z. rewrite Hfirst. split.
    + intros [-> Hd]. exists (S lv). split; [done|]. split; [lia | done].
    + intros (d & -> & Hlt & Hd). enough (d = S lv) as -> by done.
      assert (Hv : v ∈ s).
      { eapply scan_level_full; eauto.
        destruct Hd as [Hw _]. eapply walk_nodes; eauto. }
      apply (inv_alc _ _ _ _ _ Hinv') in Hv as (j & Hj & Hwj).
      destruct Hd as [_ Hmin]. apply Hmin in Hwj. lia.
  - replace (Z.of_nat lv + 1) with (Z.of_nat (S lv)) by lia.
    destruct (IH (S lv) s nl Hwf Ho Hinv') as (rest & -> & Hndr & Hfr & Hrest).
    cbn [mbind option_bind]. eexists. split; [done|].
    rewrite fmap_app, level_items_keys. split; [|split].
    + apply NoDup_app. split; [done|]. split; [|done].
      intros v Hv Hv'. apply (Hfr v Hv'). rewrite Hs.
      apply elem_of_union_r. by apply elem_of_list_to_set.
    + intros v [Hv|Hv]%elem_of_app; [auto|].
      intros Hvs. apply (Hfr v Hv). rewrite Hs. by apply elem_of_union_l.
    + intros v z. rewrite elem_of_app, Hrest.
      replace (Z.of_nat (S lv)) with (Z.of_nat lv + 1) by lia.
      rewrite Hfirst. split.
      * intros [[-> Hd] | (d & -> & Hlt & Hd)].
        -- exists (S lv). split; [done|]. split; [lia | done].
        -- exists d. split; [done|]. split; [lia | done].
      * intros (d & -> & Hlt & Hd). destruct (decide (d = S lv)) as [->|].
        -- left. done.
        -- right. exists d. split; [done|]. split; [lia | done].
Qed.

Lemma hop_dist_zero G o v : Paths.hop_dist G o v 0 ↔ v = o.
Proof.
  split.
  - intros [Hw _]. by inversion Hw.
  - intros ->. split; [constructor | intros; lia].
Qed.

(** What networkx returns: a dictionary without repeated keys that maps
    exactly the nodes within [cutoff] hops to their hop distance. *)
Lemma sssp_spec G o cutoff :
  Nx.wf_graph G = true → Nx.contains G o = true →
  ∃ dist, single_source_shortest_path_length G o cutoff = Some dist ∧
    NoDup (Py.keys dist) ∧
    (∀ v z, Py.getitem dist v = Some z ↔
       ∃ d, z = Z.of_nat d ∧ (d ≤ Z.to_nat cutoff)%nat ∧
            Paths.hop_dist G o v d).
Proof.
  intros Hwf Ho. unfold single_source_shortest_path_length. rewrite Ho.
  pose proof (bfs_inv_init G o) as Hinv.
  replace ({[o]} : gset Z) with (list_to_set [o] : gset Z) in Hinv at 2
    by (simpl; apply (right_id_L ∅ (∪))).
  destruct (levels_spec G o (Z.to_nat cutoff) 0 {[o]} [o] Hwf
              (proj1 (contains_nodes G o) Ho) Hinv)
    as (rest & Hrest & Hnd & Hfresh & Hiff).
  change (Z.of_nat 0) with 0 in Hrest. rewrite Hrest. simpl.
  assert (Hnd' : NoDup ((o, 0) :: rest).*1).
  { simpl. constructor; [|done]. intros Hin%Hfresh. set_solver. }
  rewrite dict_of_items_NoDup by done.
  eexists. split; [done|]. split; [done|].
  intros v z. rewrite getitem_elem_iff by done.
  rewrite elem_of_cons, Hiff. split.
  - intros [?|(d & -> & Hlt & Hd)]; simplify_eq.
    + exists 0%nat. split; [done|]. split; [lia|]. by apply hop_dist_zero.
    + exists d. split; [done|]. split; [lia | done].
  - intros (d & -> & Hle & Hd). destruct d as [|d].
    + left. apply hop_dist_zero in Hd as ->. done.
    + right. exists (S d). split; [done|]. split; [lia | done].
Qed.

Lemma sssp_invalid G o cutoff :
  Nx.contains G o = false → single_source_shortest_path_length G o cutoff = None.
Proof. intros Ho. unfold single_source_shortest_path_length. by rewrite Ho. Qed.

End BfsFacts.

(* ===================================================================== *)
(** ** [sorted]: a stable insertion sort on the keys *)
(* ===================================================================== *)

Module SortFacts.
Import Sort.


Lemma tuple_lt_false a b : Py.tuple_lt b a = false ↔ tuple_le a b.
Proof.
  unfold Py.tuple_lt, tuple_le. rewrite bool_decide_eq_false. lia.
Qed.

Lemma tuple_lt_true_le a b : Py.tuple_lt a b = true → tuple_le a b.
Proof.
  unfold Py.tuple_lt, tuple_le. rewrite bool_decide_eq_true. lia.
Qed.

Lemma tuple_lt_true_ne a b : Py.tuple_lt a b = true → a ≠ b.
Proof.
  unfold Py.tuple_lt. rewrite bool_decide_eq_true. intros H ->. lia.
Qed.

Lemma tuple_le_trans a b c : tuple_le a b → tuple_le b c → tuple_le a c.
Proof. unfold tuple_le. lia. Qed.

Lemma tuple_le_fst a b : tuple_le a b → a.1 ≤ b.1.
Proof. unfold tuple_le. lia. Qed.

Section isort.
Context {A : Type} (K : A → Z * Z).


Lemma insert_sorted_ins x l :
  Py.insert_sorted (K x, x) ((λ u, (K u, u)) <$> l)
  = (λ u, (K u, u)) <$> ins K x l.
Proof.
  induction l as [|y l IH]; simpl; [done|].
  destruct (Py.tuple_lt (K y) (K x)); simpl; [f_equal; exact IH | done].
Qed.

Lemma mapM_total (key : A → option (Z * Z)) l :
  (∀ u, u ∈ l → key u = Some (K u)) → mapM key l = Some (K <$> l).
Proof.
  induction l as [|x l IH]; intros Hkey; simpl; [done|].
  rewrite (Hkey x) by left. simpl. rewrite IH; [done|].
  intros u Hu. apply Hkey. by right.
Qed.

(** [sorted] computes [isort] when the key function raises nothing. *)
Lemma sorted_isort (key : A → option (Z * Z)) l :
  (∀ u, u ∈ l → key u = Some (K u)) → Py.sorted l key = Some (isort K l).
Proof.
  intros Hkey. unfold Py.sorted. rewrite (mapM_total _ _ Hkey). simpl.
  f_equal.
  assert (zip (K <$> l) l = (λ u, (K u, u)) <$> l) as ->.
  { clear. induction l; simpl; by f_equal. }
  enough (foldr Py.insert_sorted [] ((λ u, (K u, u)) <$> l)
          = (λ u, (K u, u)) <$> isort K l) as ->.
  { rewrite <- list_fmap_compose. apply list_fmap_id. }
  clear. induction l as [|x l IH]; [done|].
  rewrite fmap_cons. cbn [foldr]. rewrite IH. apply insert_sorted_ins.
Qed.

Lemma ins_perm x l : ins K x l ≡ₚ x :: l.
Proof.
  induction l as [|y l IH]; simpl; [done|].
  destruct (Py.tuple_lt (K y) (K x)); [|done].
  rewrite IH. apply Permutation_swap.
Qed.

Lemma isort_perm l : isort K l ≡ₚ l.
Proof.
  induction l as [|x l IH]; simpl; [done|]. by rewrite ins_perm, IH.
Qed.

Lemma ins_sorted x l :
  StronglySorted (key_le K) l → StronglySorted (key_le K) (ins K x l).
Proof.
  induction 1 as [|y l Hl IH Hy]; simpl.
  - repeat constructor.
  - destruct (Py.tuple_lt (K y) (K x)) eqn:Hlt.
    + constructor; [done|]. rewrite ins_perm. constructor; [|done].
      by apply tuple_lt_true_le.
    + apply tuple_lt_false in Hlt. constructor; [by constructor|].
      constructor; [done|].
      eapply Forall_impl; [exact Hy|]. intros z Hz.
      eapply tuple_le_trans; eauto.
Qed.

Lemma isort_sorted l : StronglySorted (key_le K) (isort K l).
Proof.
  induction l as [|x l IH]; simpl; [constructor | by apply ins_sorted].
Qed.

(** Stability: elements with the same key keep their order. *)
Lemma ins_stable c x l :
  filter (λ u, K u = c) (ins K x l) = filter (λ u, K u = c) (x :: l).
Proof.
  induction l as [|y l IH]; simpl; [done|].
  destruct (Py.tuple_lt (K y) (K x)) eqn:Hlt; [|done].
  apply tuple_lt_true_ne in Hlt.
  rewrite (filter_cons _ y), IH, !(filter_cons _ x), !(filter_cons _ y).
  destruct (decide (K x = c)), (decide (K y = c)); congruence.
Qed.

Lemma isort_stable c l :
  filter (λ u, K u = c) (isort K l) = filter (λ u, K u = c) l.
Proof.
  induction l as [|x l IH]; simpl; [done|].
  by rewrite ins_stable, !filter_cons, IH.
Qed.

(** Whatever a prefix of a sorted list leaves out does not come before
    what it keeps. *)
Lemma sorted_take_le n l u v :
  StronglySorted (key_le K) l → u ∈ take n l → v ∈ l → v ∉ take n l →
  key_le K u v.
Proof.
  intros Hl Hu Hv Hnv. rewrite <- (take_drop n l) in Hl, Hv.
  apply elem_of_app in Hv as [?|Hv]; [done|].
  eapply StronglySorted_app_1_elem_of; eauto.
Qed.
End isort.

End SortFacts.

(* ===================================================================== *)
(** ** The sampler inside [subgrafo_por_grados] *)
(* ===================================================================== *)

Module AnimFacts.
Import Anim Sort SortFacts Seleccion.


Lemma deg_dict_getitem G l u :
  Py.getitem (deg_dict G l) u = if decide (u ∈ l) then Nx.degree G u else None.
Proof.
  unfold deg_dict. induction l as [|x l IH]; simpl; [done|].
  destruct (Nx.degree G x) as [d|] eqn:Hd; simpl.
  - destruct (decide (x = u)) as [->|Hne].
    + rewrite decide_True by left. done.
    + etrans; [exact IH|]. destruct (decide (u ∈ l)) as [Hu|Hu].
      * rewrite decide_True by (by right). done.
      * rewrite decide_False; [done|]. set_solver.
  - etrans; [exact IH|]. destruct (decide (x = u)) as [->|Hne].
    + rewrite (decide_True (P := u ∈ u :: l)) by left. by case_decide.
    + destruct (decide (u ∈ l)) as [Hu|Hu].
      * rewrite decide_True by (by right). done.
      * rewrite decide_False; [done|]. set_solver.
Qed.

Lemma clave_total G dist u :
  u ∈ Py.keys dist →
  clave dist (deg_dict G (Py.keys dist)) u = Some (clave_de G dist u).
Proof.
  intros Hu. unfold clave, clave_de, grado.
  destruct (proj2 (getitem_is_Some dist u) Hu) as [d ->]. simpl.
  by rewrite deg_dict_getitem, decide_True.
Qed.

(** The selection in closed form: it never raises. *)
Lemma nodos_seleccionados_eq G dist max_nodos :
  nodos_seleccionados G dist max_nodos =
    Some (if decide (max_nodos < Z.of_nat (length (Py.keys dist)))
          then Py.slice_to (ordenados G dist) max_nodos
          else Py.keys dist).
Proof.
  unfold nodos_seleccionados. case_decide; [|done].
  rewrite (sorted_isort (clave_de G dist)); [done|].
  intros u Hu. by apply clave_total.
Qed.

Lemma ordenados_perm G dist : ordenados G dist ≡ₚ Py.keys dist.
Proof. apply isort_perm. Qed.

Lemma slice_to_take {A} (l : list A) n : ∃ k, Py.slice_to l n = take k l.
Proof. unfold Py.slice_to. case_decide; eauto. Qed.

(** In both branches the selection is a prefix of the sorted order. *)
Lemma seleccion_prefix G dist max_nodos sel :
  nodos_seleccionados G dist max_nodos = Some sel →
  ∃ k, sel ≡ₚ take k (ordenados G dist).
Proof.
  rewrite nodos_seleccionados_eq. intros ?; simplify_eq. case_decide.
  - destruct (slice_to_take (ordenados G dist) max_nodos) as [k ->]. eauto.
  - exists (length (ordenados G dist)).
    by rewrite firstn_all, ordenados_perm.
Qed.

Lemma seleccion_keys G dist max_nodos sel u :
  nodos_seleccionados G dist max_nodos = Some sel →
  u ∈ sel → u ∈ Py.keys dist.
Proof.
  intros (k & Hk)%seleccion_prefix. rewrite Hk.
  intros Hu%subseteq_take. by rewrite ordenados_perm in Hu.
Qed.

(** A kept node is never farther than a dropped one, so the selection is
    closed under going to a nearer reached node. *)
Lemma seleccion_closed G dist max_nodos sel u w du dw :
  nodos_seleccionados G dist max_nodos = Some sel →
  Py.getitem dist u = Some du → Py.getitem dist w = Some dw →
  u ∈ sel → dw < du → w ∈ sel.
Proof.
  intros (k & Hk)%seleccion_prefix Hu Hw Hin Hlt.
  rewrite Hk in Hin |- *.
  destruct (decide (w ∈ take k (ordenados G dist))) as [|Hnw]; [done|].
  assert (Hwo : w ∈ ordenados G dist).
  { rewrite ordenados_perm. apply getitem_is_Some. eauto. }
  pose proof (sorted_take_le _ _ _ _ _ (isort_sorted _ _) Hin Hwo Hnw) as Hle.
  apply tuple_le_fst in Hle. unfold clave_de in Hle. simpl in Hle.
  rewrite Hu, Hw in Hle. simpl in Hle. lia.
Qed.

(** Nodes of the induced subgraph. *)
Lemma subgraph_nodes G sel u :
  u ∈ Nx.nodes (Nx.subgraph G sel) ↔ u ∈ Nx.nodes G ∧ u ∈ sel.
Proof.
  unfold Nx.subgraph, Nx.nodes. rewrite <- list_fmap_compose.
  rewrite !list_elem_of_fmap. split.
  - intros ([u' nb] & -> & [Hin Hu]%list_elem_of_filter). simpl in *.
    split; [|done]. by exists (u', nb).
  - intros (([u' nb] & -> & Hin) & Hu). exists (u', nb). split; [done|].
    by apply list_elem_of_filter.
Qed.

(** [subgrafo_por_grados] from a valid origin: it returns, and its parts
    are the BFS dictionary, the selection and the induced subgraph. *)
Lemma subgrafo_por_grados_spec G o cutoff max_nodos :
  Nx.wf_graph G = true → Nx.contains G o = true →
  ∃ dist sel H dist_H,
    Bfs.single_source_shortest_path_length G o cutoff = Some dist ∧
    nodos_seleccionados G dist max_nodos = Some sel ∧
    subgrafo_por_grados G o cutoff max_nodos = Some (H, dist_H) ∧
    H = Nx.subgraph G sel ∧
    NoDup (Py.keys dist) ∧ NoDup (Py.keys dist_H) ∧
    (∀ v z, Py.getitem dist v = Some z ↔
       ∃ d, z = Z.of_nat d ∧ (d ≤ Z.to_nat cutoff)%nat ∧
            Paths.hop_dist G o v d) ∧
    (∀ v, v ∈ Nx.nodes H ↔ v ∈ sel) ∧
    (∀ v z, Py.getitem dist_H v = Some z ↔
       v ∈ sel ∧ Py.getitem dist v = Some z).
Proof.
  intros Hwf Ho.
  destruct (BfsFacts.sssp_spec G o cutoff Hwf Ho) as (dist & Hdist & Hnd & Hiff).
  pose proof (nodos_seleccionados_eq G dist max_nodos) as Hsel.
  set (sel := if decide (max_nodos < Z.of_nat (length (Py.keys dist)))
              then _ else _) in Hsel.
  assert (Hnodes : ∀ v, v ∈ Nx.nodes (Nx.subgraph G sel) ↔ v ∈ sel).
  { intros v. rewrite subgraph_nodes. split; [by intros [_ ?]|].
    intros Hv. split; [|done].
    apply (seleccion_keys _ _ _ _ _ Hsel), getitem_is_Some in Hv as [z Hz].
    apply Hiff in Hz as (d & _ & _ & [Hw _]).
    eapply walk_nodes; eauto. by apply contains_nodes. }
  exists dist, sel, (Nx.subgraph G sel),
    (filter (λ '(u, _), Nx.contains (Nx.subgraph G sel) u = true) dist).
  unfold subgrafo_por_grados. rewrite Hdist. simpl. rewrite Hsel. simpl.
  repeat (split; [done|]). split; [|split; [done|]; split; [done|]].
  - rewrite keys_filter_keys. by apply NoDup_filter.
  - intros v z. rewrite getitem_filter_keys. case_decide as Hc.
    + apply contains_nodes, Hnodes in Hc. naive_solver.
    + rewrite contains_nodes, Hnodes in Hc. naive_solver.
Qed.

End AnimFacts.

(* ===================================================================== *)
(** ** [construir_capas] and the frame projections *)
(* ===================================================================== *)

Module CapasFacts.
Import Anim.


Lemma construir_capas_fold dist mg :
  construir_capas dist mg
  = foldl (poner mg) (replicate (Z.to_nat (mg + 1)) ∅) dist.
Proof.
  unfold construir_capas. generalize (replicate (Z.to_nat (mg + 1)) (∅ : gset Z)).
  induction dist as [|[u d] dist IH]; intros capas; simpl; [done|].
  apply IH.
Qed.

Lemma poner_length mg capas item : length (poner mg capas item) = length capas.
Proof. unfold poner. case_decide; [apply length_alter | done]. Qed.

Lemma poner_lookup mg capas u d i v :
  v ∈ default ∅ (poner mg capas (u, d) !! i) ↔
  v ∈ default ∅ (capas !! i) ∨
  ((i < length capas)%nat ∧ v = u ∧ d = Z.of_nat i ∧ d ≤ mg).
Proof.
  unfold poner. cbn [fst snd].
  case_decide as Hd; [|split; [auto | intros [?|?]; [done | lia]]].
  destruct (decide (i = Z.to_nat d)) as [->|Hne].
  - rewrite list_lookup_alter, decide_True by done.
    destruct (capas !! Z.to_nat d) as [s|] eqn:Hs; simpl.
    + apply lookup_lt_Some in Hs. rewrite elem_of_union, elem_of_singleton.
      split; [intros [?|?]; [auto | right; lia] | intros [?|?]; [auto | right; tauto]].
    + apply lookup_ge_None in Hs. split; [auto | intros [?|?]; [done | lia]].
  - rewrite list_lookup_alter_ne by done.
    split; [auto | intros [?|?]; [done | lia]].
Qed.

Lemma foldl_poner mg dist : ∀ capas,
  length (foldl (poner mg) capas dist) = length capas ∧
  ∀ i v, v ∈ default ∅ (foldl (poner mg) capas dist !! i) ↔
         v ∈ default ∅ (capas !! i) ∨
         ((i < length capas)%nat ∧ (v, Z.of_nat i) ∈ dist ∧ Z.of_nat i ≤ mg).
Proof.
  induction dist as [|[u d] dist IH]; intros capas; simpl.
  - split; [done|]. intros i v. split; [auto|].
    intros [?|(_ & ?%elem_of_nil & _)]; done.
  - destruct (IH (poner mg capas (u, d))) as [Hlen Hlook].
    rewrite poner_length in Hlen. split; [done|]. intros i v.
    rewrite Hlook, poner_lookup, poner_length, elem_of_cons. split.
    + intros [[?|(? & -> & -> & ?)]|(? & ? & ?)]; auto 10.
    + intros [?|(? & [?|?] & ?)]; simplify_eq; auto 10.
Qed.

Lemma construir_capas_length dist mg :
  length (construir_capas dist mg) = Z.to_nat (mg + 1).
Proof.
  rewrite construir_capas_fold.
  rewrite (proj1 (foldl_poner mg dist _)). apply length_replicate.
Qed.

(** Layer [i] holds the nodes whose recorded distance is [i]. *)
Lemma construir_capas_lookup dist mg i v :
  v ∈ default ∅ (construir_capas dist mg !! i) ↔
  (v, Z.of_nat i) ∈ dist ∧ Z.of_nat i ≤ mg.
Proof.
  rewrite construir_capas_fold.
  rewrite (proj2 (foldl_poner mg dist _)), length_replicate. split.
  - intros [Hv|(_ & ? & ?)]; [|done].
    destruct (replicate _ _ !! i) as [s|] eqn:Hs; simpl in Hv.
    + apply lookup_replicate in Hs as [-> _]. set_solver.
    + set_solver.
  - intros [? ?]. right. split; [lia | done].
Qed.

Lemma frontera_elem dist mg t v :
  0 ≤ t →
  v ∈ frontera (construir_capas dist mg) t ↔ (v, t) ∈ dist ∧ t ≤ mg.
Proof.
  intros Ht. unfold frontera. rewrite construir_capas_length.
  case_decide as Hr.
  - rewrite construir_capas_lookup, Z2Nat.id by lia. done.
  - split; [intros ?%not_elem_of_empty; done | intros [_ ?]; lia].
Qed.

Lemma descubiertos_take capas (t : nat) :
  descubiertos capas (Z.of_nat t) = ⋃ take (S t) capas.
Proof.
  unfold descubiertos, Py.slice_to. rewrite decide_True by lia.
  by replace (Z.to_nat (Z.of_nat t + 1)) with (S t) by lia.
Qed.

Lemma take_S_layer (capas : list (gset Z)) (t : nat) :
  ⋃ take (S t) capas = ⋃ take t capas ∪ LayerIndex.layer capas t.
Proof.
  unfold LayerIndex.layer. destruct (capas !! t) as [s|] eqn:Hs; simpl.
  - rewrite (take_S_r _ _ _ Hs), union_list_app_L. simpl.
    by rewrite (right_id_L ∅ (∪)).
  - apply lookup_ge_None in Hs.
    rewrite !take_ge by lia. by rewrite (right_id_L ∅ (∪)).
Qed.

(** The cache built in one pass answers every query with a prefix union. *)
Lemma prefix_accumulation_query layers : ∀ acc t,
  layers ≠ [] →
  LayerIndex.discovered_cached (LayerIndex.prefix_accumulation acc layers) t
  = acc ∪ ⋃ take (S t) layers.
Proof.
  unfold LayerIndex.discovered_cached.
  induction layers as [|l ls IH]; intros acc t Hne; [done|].
  destruct t as [|t]; simpl.
  - by rewrite (right_id_L ∅ (∪)).
  - destruct ls as [|l' ls].
    + simpl. by rewrite (right_id_L ∅ (∪)).
    + specialize (IH (acc ∪ l) t ltac:(done)).
      cbn [LayerIndex.prefix_accumulation] in IH |- *.
      rewrite last_cons_cons. rewrite IH.
      by rewrite (assoc_L (∪)).
Qed.

(** The layers built from a dictionary partition its keys by distance. *)
Lemma capas_partition dist mg :
  NoDup (Py.keys dist) →
  (∀ v z, Py.getitem dist v = Some z → 0 ≤ z ≤ mg) →
  (∀ i v, v ∈ LayerIndex.layer (construir_capas dist mg) i ↔
          Py.getitem dist v = Some (Z.of_nat i)) ∧
  (∀ i j, i ≠ j → LayerIndex.layer (construir_capas dist mg) i ##
                  LayerIndex.layer (construir_capas dist mg) j) ∧
  ⋃ construir_capas dist mg = list_to_set (Py.keys dist).
Proof.
  intros Hnd Hrange.
  assert (Hlayer : ∀ i v, v ∈ LayerIndex.layer (construir_capas dist mg) i ↔
                          Py.getitem dist v = Some (Z.of_nat i)).
  { intros i v. unfold LayerIndex.layer.
    rewrite construir_capas_lookup, getitem_elem_iff by done.
    split; [by intros [? _]|]. intros Hv. split; [done|].
    apply elem_getitem, Hrange in Hv; [lia | done]. }
  split; [done|]. split.
  - intros i j Hij v Hi%Hlayer Hj%Hlayer. rewrite Hi in Hj.
    apply Hij. injection Hj. lia.
  - apply set_eq. intros v.
    rewrite elem_of_union_list, elem_of_list_to_set, <- getitem_is_Some.
    split.
    + intros (X & [i Hi]%list_elem_of_lookup & Hv).
      exists (Z.of_nat i). apply Hlayer. unfold LayerIndex.layer.
      by rewrite Hi.
    + intros [z Hz]. pose proof (Hrange _ _ Hz) as Hr.
      assert (Hv : v ∈ LayerIndex.layer (construir_capas dist mg) (Z.to_nat z)).
      { apply Hlayer. by rewrite Z2Nat.id by lia. }
      unfold LayerIndex.layer in Hv.
      destruct (construir_capas dist mg !! Z.to_nat z) as [X|] eqn:HX;
        simpl in Hv; [|set_solver].
      exists X. split; [|done]. apply list_elem_of_lookup. eauto.
Qed.

End CapasFacts.

(* ===================================================================== *)
(** ** The claims *)
(* ===================================================================== *)

(** C1.  For a graph and an origin that is one of its nodes, the layered
    search of [SevenDegreesModel] puts the origin alone in layer 0, puts in
    layer [d] exactly the nodes whose shortest walk from the origin has [d]
    edges, and its layers are pairwise disjoint with union the reached set.
    The distances used by [subgrafo_por_grados] are 0 at the origin and the
    hop distance, at most [cutoff], at every node, and the layers that
    [construir_capas] builds from the returned dictionary are pairwise
    disjoint with union the set of its nodes. *)
Theorem C1_layers_are_hop_distances G o rnd steps cutoff max_nodos :
  Nx.wf_graph G = true → Nx.contains G o = true → 0 ≤ cutoff →
  (∃ ms mf,
     SevenDegreesModel.run_states G (Some o) rnd steps = Some ms ∧
     last ms = Some mf ∧
     (SevenDegreesModel.frontera <$> ms) !! 0%nat = Some {[o]} ∧
     (∀ d capa, (SevenDegreesModel.frontera <$> ms) !! d = Some capa →
                ∀ v, v ∈ capa ↔ Paths.hop_dist G o v d) ∧
     (∀ i j ci cj, (SevenDegreesModel.frontera <$> ms) !! i = Some ci →
                   (SevenDegreesModel.frontera <$> ms) !! j = Some cj →
                   i ≠ j → ci ## cj) ∧
     ⋃ (SevenDegreesModel.frontera <$> ms) = SevenDegreesModel.alcanzados mf)
  ∧
  (∃ dist H dist_H,
     Bfs.single_source_shortest_path_length G o cutoff = Some dist ∧
     Anim.subgrafo_por_grados G o cutoff max_nodos = Some (H, dist_H) ∧
     Py.getitem dist o = Some 0 ∧
     (∀ v z, Py.getitem dist v = Some z ↔
        ∃ d, z = Z.of_nat d ∧ Z.of_nat d ≤ cutoff ∧ Paths.hop_dist G o v d) ∧
     (∀ v z, Py.getitem dist_H v = Some z → Py.getitem dist v = Some z) ∧
     (∀ i v, v ∈ LayerIndex.layer (Anim.construir_capas dist_H cutoff) i ↔
             Py.getitem dist_H v = Some (Z.of_nat i)) ∧
     (∀ i j, i ≠ j →
        LayerIndex.layer (Anim.construir_capas dist_H cutoff) i ##
        LayerIndex.layer (Anim.construir_capas dist_H cutoff) j) ∧
     ⋃ Anim.construir_capas dist_H cutoff = list_to_set (Py.keys dist_H)).
Proof.
  intros Hwf Ho Hcut. split.
  - destruct (ModelFacts.run_states_spec G o rnd steps Hwf Ho)
      as (ms & mf & Hrun & Hlast & (m0 & Hm0 & Hf0) & Hgood & Ht & _ & _ & Hu & _).
    exists ms, mf. split; [done|]. split; [done|].
    assert (Hlayer : ∀ d capa,
              (SevenDegreesModel.frontera <$> ms) !! d = Some capa →
              ∀ v, v ∈ capa ↔ Paths.hop_dist G o v d).
    { intros d capa Hd v. rewrite list_lookup_fmap in Hd.
      destruct (ms !! d) as [m|] eqn:Hm; simplify_eq/=.
      pose proof (Ht _ _ Hm) as Htm.
      rewrite Forall_forall in Hgood.
      destruct (Hgood m) as (_ & Hinv & _).
      { apply list_elem_of_lookup. eauto. }
      rewrite Htm in Hinv. by apply (bfs_inv_hop _ _ _ _ _ _ Hinv). }
    split; [by rewrite list_lookup_fmap, Hm0; simpl; rewrite Hf0|].
    split; [done|]. split; [|done].
    intros i j ci cj Hi Hj Hij v Hvi Hvj.
    apply (Hlayer _ _ Hi) in Hvi. apply (Hlayer _ _ Hj) in Hvj.
    apply Hij. eapply hop_dist_unique; eauto.
  - destruct (AnimFacts.subgrafo_por_grados_spec G o cutoff max_nodos Hwf Ho)
      as (dist & sel & H & dist_H & Hdist & Hsel & Hsub & _ & Hnd & HndH
          & Hiff & _ & HH).
    assert (Hiff' : ∀ v z, Py.getitem dist v = Some z ↔
              ∃ d, z = Z.of_nat d ∧ Z.of_nat d ≤ cutoff ∧
                   Paths.hop_dist G o v d).
    { intros v z. rewrite Hiff. split; intros (d & -> & Hle & Hd);
        exists d; (split; [done|]); (split; [lia | done]). }
    exists dist, H, dist_H. split; [done|]. split; [done|].
    split; [|split; [done|]; split].
    + apply Hiff'. exists 0%nat. split; [done|]. split; [lia|].
      by apply BfsFacts.hop_dist_zero.
    + intros v z Hz. by apply HH in Hz as [_ ?].
    + apply CapasFacts.capas_partition; [done|].
      intros v z [_ (d & -> & Hle & _)%Hiff']%HH. lia.
Qed.

Lemma C1_layers_are_hop_distances_witness :
  Nx.wf_graph star = true ∧ Nx.contains star 0 = true ∧ 0 ≤ 3 ∧
  (∃ ms mf,
     SevenDegreesModel.run_states star (Some 0) 0 7 = Some ms ∧
     last ms = Some mf ∧
     (SevenDegreesModel.frontera <$> ms) !! 0%nat = Some {[0]} ∧
     (∀ d capa, (SevenDegreesModel.frontera <$> ms) !! d = Some capa →
                ∀ v, v ∈ capa ↔ Paths.hop_dist star 0 v d) ∧
     (∀ i j ci cj, (SevenDegreesModel.frontera <$> ms) !! i = Some ci →
                   (SevenDegreesModel.frontera <$> ms) !! j = Some cj →
                   i ≠ j → ci ## cj) ∧
     ⋃ (SevenDegreesModel.frontera <$> ms) = SevenDegreesModel.alcanzados mf)
  ∧
  (∃ dist H dist_H,
     Bfs.single_source_shortest_path_length star 0 3 = Some dist ∧
     Anim.subgrafo_por_grados star 0 3 3 = Some (H, dist_H) ∧
     Py.getitem dist 0 = Some 0 ∧
     (∀ v z, Py.getitem dist v = Some z ↔
        ∃ d, z = Z.of_nat d ∧ Z.of_nat d ≤ 3 ∧ Paths.hop_dist star 0 v d) ∧
     (∀ v z, Py.getitem dist_H v = Some z → Py.getitem dist v = Some z) ∧
     (∀ i v, v ∈ LayerIndex.layer (Anim.construir_capas dist_H 3) i ↔
             Py.getitem dist_H v = Some (Z.of_nat i)) ∧
     (∀ i j, i ≠ j →
        LayerIndex.layer (Anim.construir_capas dist_H 3) i ##
        LayerIndex.layer (Anim.construir_capas dist_H 3) j) ∧
     ⋃ Anim.construir_capas dist_H 3 = list_to_set (Py.keys dist_H)).
Proof.
  split; [reflexivity|]. split; [reflexivity|]. split; [lia|].
  apply (C1_layers_are_hop_distances star 0 0%nat 7%nat 3 3);
    [reflexivity | reflexivity | lia].
Defined.

(** C2.  For a distance dictionary and a cap of at least 1: when the
    reached nodes are at most the cap, the selection is the whole list of
    reached nodes; otherwise it has exactly [cap] distinct reached nodes and
    the pair (distance, -degree) of a selected node is lexicographically at
    most that of any reached node left out. *)
Theorem C2_sampler_keeps_smallest_keys G dist cap :
  NoDup (Py.keys dist) → 1 ≤ cap →
  ∃ sel,
    Anim.nodos_seleccionados G dist cap = Some sel ∧
    (Z.of_nat (length (Py.keys dist)) ≤ cap → sel = Py.keys dist) ∧
    (cap < Z.of_nat (length (Py.keys dist)) →
       Z.of_nat (size (list_to_set sel : gset Z)) = cap ∧
       Z.of_nat (length sel) = cap ∧
       (∀ u, u ∈ sel → u ∈ Py.keys dist) ∧
       ∀ u v du dv,
         Py.getitem dist u = Some du → Py.getitem dist v = Some dv →
         u ∈ sel → v ∉ sel →
         Sort.tuple_le (du, - Seleccion.grado G u)
                            (dv, - Seleccion.grado G v)).
Proof.
  intros Hnd Hcap. eexists. split; [apply AnimFacts.nodos_seleccionados_eq|].
  split.
  - intros Hle. by rewrite decide_False by lia.
  - intros Hlt. rewrite decide_True by done.
    unfold Py.slice_to. rewrite decide_True by lia.
    pose proof (AnimFacts.ordenados_perm G dist) as Hperm.
    assert (Hlen : length (take (Z.to_nat cap) (Seleccion.ordenados G dist))
                   = Z.to_nat cap).
    { rewrite length_take, Hperm. lia. }
    assert (Hsub : ∀ u, u ∈ take (Z.to_nat cap) (Seleccion.ordenados G dist) →
                        u ∈ Py.keys dist).
    { intros u Hu%subseteq_take. by rewrite Hperm in Hu. }
    split; [|split; [lia | split; [done|]]].
    + rewrite size_list_to_set; [lia|].
      eapply sublist_NoDup; [|apply sublist_take]. by rewrite Hperm.
    + intros u v du dv Hu Hv Hin Hout.
      assert (Hvo : v ∈ Seleccion.ordenados G dist).
      { rewrite Hperm. apply getitem_is_Some. eauto. }
      pose proof (SortFacts.sorted_take_le _ _ _ _ _
                    (SortFacts.isort_sorted _ _) Hin Hvo Hout) as Hle.
      unfold Sort.key_le, Seleccion.clave_de in Hle.
      by rewrite Hu, Hv in Hle.
Qed.

Lemma C2_sampler_keeps_smallest_keys_witness :
  NoDup (Py.keys [(0,0); (1,1); (2,1); (3,1); (4,2)]) ∧ 1 ≤ 3 ∧
  ∃ sel,
    Anim.nodos_seleccionados star [(0,0); (1,1); (2,1); (3,1); (4,2)] 3
      = Some sel ∧
    (Z.of_nat (length (Py.keys [(0,0); (1,1); (2,1); (3,1); (4,2)])) ≤ 3 →
       sel = Py.keys [(0,0); (1,1); (2,1); (3,1); (4,2)]) ∧
    (3 < Z.of_nat (length (Py.keys [(0,0); (1,1); (2,1); (3,1); (4,2)])) →
       Z.of_nat (size (list_to_set sel : gset Z)) = 3 ∧
       Z.of_nat (length sel) = 3 ∧
       (∀ u, u ∈ sel → u ∈ Py.keys [(0,0); (1,1); (2,1); (3,1); (4,2)]) ∧
       ∀ u v du dv,
         Py.getitem [(0,0); (1,1); (2,1); (3,1); (4,2)] u = Some du →
         Py.getitem [(0,0); (1,1); (2,1); (3,1); (4,2)] v = Some dv →
         u ∈ sel → v ∉ sel →
         Sort.tuple_le (du, - Seleccion.grado star u)
                            (dv, - Seleccion.grado star v)).
Proof.
  assert (Hnd : NoDup (Py.keys [(0,0); (1,1); (2,1); (3,1); (4,2)])).
  { apply (bool_decide_unpack _). vm_compute. exact I. }
  split; [exact Hnd|]. split; [lia|].
  apply (C2_sampler_keeps_smallest_keys star
           [(0,0); (1,1); (2,1); (3,1); (4,2)] 3); [exact Hnd | lia].
Defined.

(** C3 (as stated, refuted).  The same star read from the lines
    0-3, 0-2, 0-1, 1-4: the search discovers 3 and 2 before 1, the code keeps
    0, 1 and 3, while sorting with the node id as last key keeps 0, 1, 2. *)
Lemma C3_counterexample_tie_by_discovery_order :
  Bfs.single_source_shortest_path_length star' 0 3
    = Some [(0,0); (3,1); (2,1); (1,1); (4,2)] ∧
  Anim.nodos_seleccionados star' [(0,0); (3,1); (2,1); (1,1); (4,2)] 3
    = Some [0; 1; 3] ∧
  SpecSampler.sample star' [(0,0); (3,1); (2,1); (1,1); (4,2)] 3
    = [0; 1; 2] ∧
  Anim.nodos_seleccionados star' [(0,0); (3,1); (2,1); (1,1); (4,2)] 3
    ≠ Some (SpecSampler.sample star' [(0,0); (3,1); (2,1); (1,1); (4,2)] 3).
Proof. repeat split; vm_compute; congruence. Qed.

(** C3 (amended).  When the reached nodes exceed the cap, the selection is
    the first [cap] nodes of the reached nodes sorted by (distance
    ascending, degree descending); nodes with the same key stay in the
    order of the distance dictionary, which is the order of discovery.  On
    the star read from 0-1, 0-2, 0-3, 1-4 with origin 0 and cap 3 this
    selects 0, 1, 2. *)
Theorem C3_sampler_is_stable_sort_prefix G dist cap :
  0 ≤ cap < Z.of_nat (length (Py.keys dist)) →
  (∃ ord,
     Py.sorted (Py.keys dist)
       (Anim.clave dist (Anim.deg_dict G (Py.keys dist))) = Some ord ∧
     Anim.nodos_seleccionados G dist cap = Some (take (Z.to_nat cap) ord) ∧
     ord ≡ₚ Py.keys dist ∧
     StronglySorted (Sort.key_le (Seleccion.clave_de G dist)) ord ∧
     ∀ c, filter (λ u, Seleccion.clave_de G dist u = c) ord
          = filter (λ u, Seleccion.clave_de G dist u = c) (Py.keys dist))
  ∧ Bfs.single_source_shortest_path_length star 0 3
      = Some [(0,0); (1,1); (2,1); (3,1); (4,2)]
  ∧ Anim.nodos_seleccionados star [(0,0); (1,1); (2,1); (3,1); (4,2)] 3
      = Some [0; 1; 2].
Proof.
  intros Hcap. split; [|split; vm_compute; reflexivity].
  exists (Seleccion.ordenados G dist). split.
  - apply SortFacts.sorted_isort. intros u Hu. by apply AnimFacts.clave_total.
  - split; [|split; [apply AnimFacts.ordenados_perm|split]].
    + rewrite AnimFacts.nodos_seleccionados_eq, decide_True by lia.
      unfold Py.slice_to. by rewrite decide_True by lia.
    + apply SortFacts.isort_sorted.
    + intros c. apply SortFacts.isort_stable.
Qed.

Lemma C3_sampler_is_stable_sort_prefix_witness :
  0 ≤ 3 < Z.of_nat (length (Py.keys [(0,0); (3,1); (2,1); (1,1); (4,2)])) ∧
  (∃ ord,
     Py.sorted (Py.keys [(0,0); (3,1); (2,1); (1,1); (4,2)])
       (Anim.clave [(0,0); (3,1); (2,1); (1,1); (4,2)]
          (Anim.deg_dict star'
             (Py.keys [(0,0); (3,1); (2,1); (1,1); (4,2)]))) = Some ord ∧
     Anim.nodos_seleccionados star' [(0,0); (3,1); (2,1); (1,1); (4,2)] 3
       = Some (take (Z.to_nat 3) ord)).
Proof.
  split; [simpl; lia|].
  destruct (C3_sampler_is_stable_sort_prefix star'
              [(0,0); (3,1); (2,1); (1,1); (4,2)] 3) as [(ord & H1 & H2 & _) _];
    [simpl; lia|].
  exists ord. split; [exact H1 | exact H2].
Defined.

(* --------------------------------------------------------------------- *)

Lemma random_choice_elem {A} rnd (l : list A) x :
  random_choice rnd l = Some x → x ∈ l.
Proof.
  unfold random_choice. destruct l; [done|].
  intros H. apply list_elem_of_lookup. eauto.
Qed.

Lemma random_choice_total {A} rnd (l : list A) :
  l ≠ [] → is_Some (random_choice rnd l).
Proof.
  unfold random_choice. destruct l as [|x l]; [done|]. intros _.
  apply lookup_lt_is_Some. apply Nat.mod_upper_bound. simpl. lia.
Qed.

(** C4 (as stated, refuted).  99 is not a node of the star, yet neither
    origin selection fails: both fall back to a drawn node (here node 0)
    and the animation pipeline goes on with it. *)
Lemma C4_counterexample_random_fallback :
  Nx.contains star 99 = false ∧
  Anim.elegir_origen star (Some 99) 0 = Some 0 ∧
  SevenDegreesModel.source <$> SevenDegreesModel.setup star (Some 99) 0
    = Some 0 ∧
  (λ r, r.1.1.1) <$> Anim.animar star (Some 99) 0 3 3 = Some 0.
Proof. repeat split; vm_compute; reflexivity. Qed.

(** C4 (amended).  When the requested origin is not a node of the graph,
    [elegir_origen] and [setup] do not fail: they take a node drawn from the
    graph's node list, which is a node other than the requested one, and
    only an empty graph makes the draw fail.  The distance computation
    itself, called with an origin that is not a node, fails. *)
Theorem C4_invalid_origin_falls_back G s rnd cutoff max_nodos :
  Nx.contains G s = false →
  Anim.elegir_origen G (Some s) rnd = random_choice rnd (Nx.nodes G) ∧
  SevenDegreesModel.source <$> SevenDegreesModel.setup G (Some s) rnd
    = random_choice rnd (Nx.nodes G) ∧
  (∀ o, random_choice rnd (Nx.nodes G) = Some o → o ∈ Nx.nodes G ∧ o ≠ s) ∧
  (Nx.nodes G ≠ [] → is_Some (random_choice rnd (Nx.nodes G))) ∧
  Bfs.single_source_shortest_path_length G s cutoff = None ∧
  Anim.subgrafo_por_grados G s cutoff max_nodos = None.
Proof.
  intros Hs. split; [|split; [|split; [|split; [|split]]]].
  - unfold Anim.elegir_origen. by rewrite Hs.
  - unfold SevenDegreesModel.setup. rewrite Hs.
    destruct (random_choice rnd (Nx.nodes G)) as [o|] eqn:Ho; [|done].
    apply random_choice_elem in Ho. simpl.
    destruct (ModelFacts.fraccion_total G (size ({[o]} : gset Z)) o Ho)
      as [fr Hfr].
    unfold SevenDegreesModel.record.
    cbn [SevenDegreesModel.alcanzados]. rewrite Hfr. done.
  - intros o Ho%random_choice_elem. split; [done|]. intros ->.
    apply contains_nodes in Ho. congruence.
  - apply random_choice_total.
  - by apply BfsFacts.sssp_invalid.
  - unfold Anim.subgrafo_por_grados.
    by rewrite BfsFacts.sssp_invalid.
Qed.

Lemma C4_invalid_origin_falls_back_witness :
  Nx.contains star 99 = false ∧
  Anim.elegir_origen star (Some 99) 2 = random_choice 2 (Nx.nodes star) ∧
  SevenDegreesModel.source <$> SevenDegreesModel.setup star (Some 99) 2
    = random_choice 2 (Nx.nodes star) ∧
  (∀ o, random_choice 2 (Nx.nodes star) = Some o →
        o ∈ Nx.nodes star ∧ o ≠ 99) ∧
  (Nx.nodes star ≠ [] → is_Some (random_choice 2 (Nx.nodes star))) ∧
  Bfs.single_source_shortest_path_length star 99 3 = None ∧
  Anim.subgrafo_por_grados star 99 3 3 = None.
Proof.
  split; [reflexivity|].
  apply (C4_invalid_origin_falls_back star 99 2%nat 3 3). reflexivity.
Defined.

(* --------------------------------------------------------------------- *)

Lemma filter_none {A} (P : A → Prop) `{!∀ x, Decision (P x)} (l : list A) :
  (∀ x, x ∈ l → ¬ P x) → filter P l = [].
Proof.
  induction l as [|x l IH]; intros HP; [done|].
  rewrite filter_cons, decide_False by (apply HP; left).
  apply IH. intros y Hy. apply HP. by right.
Qed.

(** C5 (as stated, refuted).  With cap 0 the call returns the empty
    subgraph and the empty dictionary, and with cap -1 it returns the
    subgraph without the last node of the sorted order. *)
Lemma C5_counterexample_cap_zero :
  Anim.subgrafo_por_grados star 0 3 0 = Some ([], []) ∧
  Anim.subgrafo_por_grados star 0 3 (-1)
  = Some ([(0, [1;2;3]); (1, [0]); (2, [0]); (3, [0])],
          [(0,0); (1,1); (2,1); (3,1)]).
Proof. split; vm_compute; reflexivity. Qed.

(** C5 (amended).  A cap below 1 is not rejected: from an origin of the
    graph the call returns the subgraph induced by the slice [[:cap]] of
    the sorted reached nodes, together with their distances; for cap 0
    these are the empty subgraph and the empty dictionary. *)
Theorem C5_cap_below_one_not_rejected G o cutoff cap :
  Nx.wf_graph G = true → Nx.contains G o = true → cap < 1 →
  ∃ dist,
    Bfs.single_source_shortest_path_length G o cutoff = Some dist ∧
    Anim.nodos_seleccionados G dist cap
      = Some (Py.slice_to (Seleccion.ordenados G dist) cap) ∧
    Anim.subgrafo_por_grados G o cutoff cap
      = Some (Nx.subgraph G (Py.slice_to (Seleccion.ordenados G dist) cap),
              filter (λ '(u, _),
                        Nx.contains
                          (Nx.subgraph G
                             (Py.slice_to (Seleccion.ordenados G dist) cap))
                          u = true) dist) ∧
    (cap = 0 → Anim.subgrafo_por_grados G o cutoff cap = Some ([], [])).
Proof.
  intros Hwf Ho Hcap.
  destruct (BfsFacts.sssp_spec G o cutoff Hwf Ho) as (dist & Hdist & Hnd & Hiff).
  assert (Hlen : (1 ≤ length (Py.keys dist))%nat).
  { assert (o ∈ Py.keys dist) as Hin.
    { apply getitem_is_Some. exists 0. apply Hiff. exists 0%nat.
      split; [done|]. split; [lia|]. by apply BfsFacts.hop_dist_zero. }
    destruct (Py.keys dist); [by apply elem_of_nil in Hin | simpl; lia]. }
  assert (Hsel : Anim.nodos_seleccionados G dist cap
                 = Some (Py.slice_to (Seleccion.ordenados G dist) cap)).
  { rewrite AnimFacts.nodos_seleccionados_eq. by rewrite decide_True by lia. }
  assert (Hsub : Anim.subgrafo_por_grados G o cutoff cap
      = Some (Nx.subgraph G (Py.slice_to (Seleccion.ordenados G dist) cap),
              filter (λ '(u, _),
                        Nx.contains
                          (Nx.subgraph G
                             (Py.slice_to (Seleccion.ordenados G dist) cap))
                          u = true) dist)).
  { unfold Anim.subgrafo_por_grados. rewrite Hdist. simpl. by rewrite Hsel. }
  exists dist. split; [done|]. split; [done|]. split; [done|].
  intros ->. rewrite Hsub.
  change (Py.slice_to (Seleccion.ordenados G dist) 0) with (@nil Z).
  assert (Nx.subgraph G [] = []) as ->.
  { unfold Nx.subgraph. rewrite filter_none; [done|].
    intros [u nb] _ ?%elem_of_nil. done. }
  f_equal. f_equal. apply filter_none. intros [u d] _. done.
Qed.

Lemma C5_cap_below_one_not_rejected_witness :
  Nx.wf_graph star = true ∧ Nx.contains star 0 = true ∧ -2 < 1 ∧
  ∃ dist,
    Bfs.single_source_shortest_path_length star 0 3 = Some dist ∧
    Anim.nodos_seleccionados star dist (-2)
      = Some (Py.slice_to (Seleccion.ordenados star dist) (-2)) ∧
    Anim.subgrafo_por_grados star 0 3 (-2)
      = Some (Nx.subgraph star
                (Py.slice_to (Seleccion.ordenados star dist) (-2)),
              filter (λ '(u, _),
                        Nx.contains
                          (Nx.subgraph star
                             (Py.slice_to (Seleccion.ordenados star dist) (-2)))
                          u = true) dist) ∧
    (-2 = 0 → Anim.subgrafo_por_grados star 0 3 (-2) = Some ([], [])).
Proof.
  split; [reflexivity|]. split; [reflexivity|]. split; [lia|].
  apply (C5_cap_below_one_not_rejected star 0 3 (-2));
    [reflexivity | reflexivity | lia].
Defined.

(* --------------------------------------------------------------------- *)

Lemma grados_seq G ms rows :
  Forall2 (row_ok G) ms rows →
  ∀ k, (∀ i m, ms !! i = Some m → SevenDegreesModel.t m = (k + i)%nat) →
       SevenDegreesModel.grado <$> rows = seq k (length ms).
Proof.
  induction 1 as [|m r ms rows (Hg & _) _ IH]; intros k Ht; simpl; [done|].
  f_equal.
  - rewrite Hg, (Ht 0%nat m eq_refl). lia.
  - apply IH. intros i m' Hi. rewrite (Ht (S i) m' Hi). lia.
Qed.

(** C6 (as stated, refuted).  On the star from origin 0 the frontiers are
    {0}, {1,2,3}, {4} and then the empty set; the last depth with a
    non-empty frontier is 2, yet the metrics hold a record for depth 3. *)
Lemma C6_counterexample_record_for_empty_frontier :
  (λ ms : list SevenDegreesModel.Model, SevenDegreesModel.frontera <$> ms) <$>
    SevenDegreesModel.run_states star (Some 0) 0 7
    = Some [{[0]}; {[1; 2; 3]}; {[4]}; ∅] ∧
  (λ m, SevenDegreesModel.grado <$> SevenDegreesModel.log m) <$>
    SevenDegreesModel.run star (Some 0) 0 7 = Some [0; 1; 2; 3]%nat ∧
  (λ m, SevenDegreesModel.grado <$> SevenDegreesModel.log m) <$>
    SevenDegreesModel.run star (Some 0) 0 7 ≠ Some (seq 0 (S 2)).
Proof. repeat split; vm_compute; congruence. Qed.

(** C6 (amended).  The run ends, and its metrics hold exactly one record
    per depth from 0 to the stop depth, in order, where the stop depth is
    the first depth whose frontier is empty, or the number of steps when no
    frontier is empty before: every earlier depth has a non-empty frontier,
    the record of the stop depth is written before the model stops, and
    nothing is recorded after it. *)
Theorem C6_records_until_first_empty_frontier G o rnd steps :
  Nx.wf_graph G = true → Nx.contains G o = true →
  ∃ ms mf,
    SevenDegreesModel.run_states G (Some o) rnd steps = Some ms ∧
    SevenDegreesModel.run G (Some o) rnd steps = Some mf ∧
    last ms = Some mf ∧
    SevenDegreesModel.running mf = false ∧
    (length ms ≤ S steps)%nat ∧
    Forall2 (row_ok G) ms (SevenDegreesModel.log mf) ∧
    SevenDegreesModel.grado <$> SevenDegreesModel.log mf
      = seq 0 (length ms) ∧
    (∀ d m, ms !! d = Some m → (S d < length ms)%nat →
            SevenDegreesModel.frontera m ≠ ∅) ∧
    (SevenDegreesModel.frontera mf = ∅ ∨ length ms = S steps).
Proof.
  intros Hwf Ho.
  destruct (ModelFacts.run_states_spec G o rnd steps Hwf Ho)
    as (ms & mf & Hrun & Hlast & _ & Hgood & Ht & Hruns & Hend & _ & Hrows).
  rewrite Forall_forall in Hgood.
  assert (Hne : ∀ d m, ms !! d = Some m → (S d < length ms)%nat →
                  SevenDegreesModel.frontera m ≠ ∅ ∧
                  (SevenDegreesModel.t m < steps)%nat).
  { intros d m Hd Hlt. destruct (Hgood m) as (_ & _ & Hr & _).
    { apply list_elem_of_lookup. eauto. }
    apply Hr. eauto. }
  assert (Hlen : (length ms ≤ S steps)%nat).
  { destruct (decide (length ms ≤ 1)%nat) as [|Hgt]; [lia|].
    destruct (lookup_lt_is_Some_2 ms (length ms - 2)) as [m Hm]; [lia|].
    destruct (Hne _ _ Hm) as [_ Hlt]; [lia|].
    rewrite (Ht _ _ Hm) in Hlt. lia. }
  exists ms, mf. split; [done|]. split.
  { unfold SevenDegreesModel.run. rewrite Hrun. done. }
  split; [done|]. split; [done|]. split; [done|]. split; [done|].
  split; [by apply (grados_seq G ms _ Hrows 0%nat)|].
  split; [intros d m Hd Hlt; by apply (Hne d m)|].
  rewrite last_lookup in Hlast. pose proof (Ht _ _ Hlast) as Htf.
  destruct (Hgood mf) as (_ & _ & _ & Hstop).
  { apply list_elem_of_lookup. eauto. }
  destruct (Hstop Hend) as [?|Hs]; [by left|]. right.
  apply lookup_lt_Some in Hlast. lia.
Qed.

Lemma C6_records_until_first_empty_frontier_witness :
  Nx.wf_graph star = true ∧ Nx.contains star 0 = true ∧
  ∃ ms mf,
    SevenDegreesModel.run_states star (Some 0) 0 7 = Some ms ∧
    SevenDegreesModel.run star (Some 0) 0 7 = Some mf ∧
    last ms = Some mf ∧
    SevenDegreesModel.running mf = false ∧
    (length ms ≤ S 7)%nat ∧
    Forall2 (row_ok star) ms (SevenDegreesModel.log mf) ∧
    SevenDegreesModel.grado <$> SevenDegreesModel.log mf
      = seq 0 (length ms) ∧
    (∀ d m, ms !! d = Some m → (S d < length ms)%nat →
            SevenDegreesModel.frontera m ≠ ∅) ∧
    (SevenDegreesModel.frontera mf = ∅ ∨ length ms = S 7).
Proof.
  split; [reflexivity|]. split; [reflexivity|].
  apply (C6_records_until_first_empty_frontier star 0 0%nat 7%nat);
    reflexivity.
Defined.

(* --------------------------------------------------------------------- *)

Lemma nueva_frontera_empty G alc :
  SevenDegreesModel.nueva_frontera G alc ∅ = Some ∅.
Proof.
  unfold SevenDegreesModel.nueva_frontera. by rewrite elements_empty.
Qed.

(** C7.  Once a frontier is empty, every later one is empty: in the run of
    [SevenDegreesModel] (no layer is produced after the stop, and a further
    step from an empty frontier would produce an empty one), and in the
    layers that [construir_capas] builds from the dictionary returned by
    [subgrafo_por_grados], truncated or not. *)
Theorem C7_exhausted_stays_exhausted
    G o rnd steps cutoff max_grados max_nodos :
  Nx.wf_graph G = true → Nx.contains G o = true →
  (∃ ms,
     SevenDegreesModel.run_states G (Some o) rnd steps = Some ms ∧
     ∀ t t', (t < t')%nat →
       LayerIndex.layer (SevenDegreesModel.frontera <$> ms) t = ∅ →
       LayerIndex.layer (SevenDegreesModel.frontera <$> ms) t' = ∅) ∧
  (∀ alc, SevenDegreesModel.nueva_frontera G alc ∅ = Some ∅) ∧
  (∃ H dist_H,
     Anim.subgrafo_por_grados G o cutoff max_nodos = Some (H, dist_H) ∧
     ∀ t t', 0 ≤ t < t' →
       Anim.frontera (Anim.construir_capas dist_H max_grados) t = ∅ →
       Anim.frontera (Anim.construir_capas dist_H max_grados) t' = ∅).
Proof.
  intros Hwf Ho. split; [|split; [apply nueva_frontera_empty|]].
  - destruct (ModelFacts.run_states_spec G o rnd steps Hwf Ho)
      as (ms & mf & Hrun & _ & _ & Hgood & _ & Hruns & _).
    exists ms. split; [done|]. intros t t' Hlt Ht.
    unfold LayerIndex.layer in *. rewrite !list_lookup_fmap in *.
    destruct (ms !! t') as [m'|] eqn:Hm'; [|done].
    apply lookup_lt_Some in Hm'.
    destruct (lookup_lt_is_Some_2 ms t) as [m Hm]; [lia|].
    rewrite Hm in Ht. simpl in Ht.
    rewrite Forall_forall in Hgood.
    destruct (Hgood m) as (_ & _ & Hr & _).
    { apply list_elem_of_lookup. eauto. }
    destruct Hr as [Hne _]; [|done]. apply (Hruns t); [done | lia].
  - destruct (AnimFacts.subgrafo_por_grados_spec G o cutoff max_nodos Hwf Ho)
      as (dist & sel & H & dist_H & Hdist & Hsel & Hsub & _ & Hnd & HndH
          & Hiff & _ & HH).
    exists H, dist_H. split; [done|]. intros t t' [Ht Hlt] Hempty.
    apply set_eq. intros v. split; [|intros ?%not_elem_of_empty; done].
    intros [Hv Hmg]%CapasFacts.frontera_elem; [|lia].
    apply elem_getitem, HH in Hv as [Hvs Hv]; [|done].
    pose proof Hv as (d' & Hd' & Hle' & Hhop)%Hiff.
    destruct (hop_dist_below G o v d' (Z.to_nat t) Hhop) as [w Hw]; [lia|].
    assert (Hwd : Py.getitem dist w = Some t).
    { apply Hiff. exists (Z.to_nat t). split; [lia|]. split; [lia | done]. }
    assert (Hws : w ∈ sel).
    { apply (AnimFacts.seleccion_closed G dist max_nodos sel v w t' t
               Hsel Hv Hwd Hvs). lia. }
    assert (Hin : w ∈ Anim.frontera (Anim.construir_capas dist_H max_grados) t).
    { apply CapasFacts.frontera_elem; [done|]. split; [|lia].
      apply getitem_Some_elem, HH. done. }
    by rewrite Hempty in Hin.
Qed.

Lemma C7_exhausted_stays_exhausted_witness :
  Nx.wf_graph star = true ∧ Nx.contains star 0 = true ∧
  (∃ ms,
     SevenDegreesModel.run_states star (Some 0) 0 7 = Some ms ∧
     ∀ t t', (t < t')%nat →
       LayerIndex.layer (SevenDegreesModel.frontera <$> ms) t = ∅ →
       LayerIndex.layer (SevenDegreesModel.frontera <$> ms) t' = ∅) ∧
  (∀ alc, SevenDegreesModel.nueva_frontera star alc ∅ = Some ∅) ∧
  (∃ H dist_H,
     Anim.subgrafo_por_grados star 0 6 3 = Some (H, dist_H) ∧
     ∀ t t', 0 ≤ t < t' →
       Anim.frontera (Anim.construir_capas dist_H 6) t = ∅ →
       Anim.frontera (Anim.construir_capas dist_H 6) t' = ∅).
Proof.
  split; [reflexivity|]. split; [reflexivity|].
  apply (C7_exhausted_stays_exhausted star 0 0%nat 7%nat 6 6 3); reflexivity.
Defined.

(* --------------------------------------------------------------------- *)

(** C8.  For every layer list and every depth [t], the union of the layers
    0..t that [dibujar_frame] recomputes on each frame equals the set given
    by the recurrence discovered(t) = discovered(t-1) ∪ layer(t), and
    equals the answer of the cache filled once in depth order. *)
Theorem C8_reunion_equals_prefix_accumulation (capas : list (gset Z)) (t : nat) :
  Anim.descubiertos capas (Z.of_nat t) = LayerIndex.discovered capas t ∧
  Anim.descubiertos capas (Z.of_nat t)
  = LayerIndex.discovered_cached
      (LayerIndex.prefix_accumulation ∅ capas) t.
Proof.
  rewrite CapasFacts.descubiertos_take. split.
  - induction t as [|t IH].
    + rewrite CapasFacts.take_S_layer. simpl.
      by rewrite (left_id_L ∅ (∪)).
    + rewrite CapasFacts.take_S_layer, IH. done.
  - destruct capas as [|l ls]; [done|].
    rewrite CapasFacts.prefix_accumulation_query by done.
    by rewrite (left_id_L ∅ (∪)).
Qed.

(* --------------------------------------------------------------------- *)

Lemma omap_ext_elem {A B} (f g : A → option B) (l : list A) :
  (∀ x, x ∈ l → f x = g x) → omap f l = omap g l.
Proof.
  induction l as [|x l IH]; intros Hfg; simpl; [done|].
  assert (omap f l = omap g l) as Hl.
  { apply IH. intros y Hy. apply Hfg. by right. }
  rewrite (Hfg x) by left. destruct (g x); [f_equal|]; exact Hl.
Qed.

(** C9.  Two runs of the sampler on the same distance dictionary and the
    same cap, over graphs that give every reached node the same degree,
    select the same list of nodes, element for element; and with a valid
    origin the whole pipeline does not depend on the random draw. *)
Theorem C9_sampler_deterministic
    G1 G2 dist cap o (rnd1 rnd2 : nat) max_grados :
  (∀ u, u ∈ Py.keys dist → Nx.degree G1 u = Nx.degree G2 u) →
  Nx.contains G1 o = true →
  Anim.nodos_seleccionados G1 dist cap = Anim.nodos_seleccionados G2 dist cap ∧
  Anim.animar G1 (Some o) rnd1 max_grados cap
  = Anim.animar G1 (Some o) rnd2 max_grados cap.
Proof.
  intros Hdeg Ho. split.
  - unfold Anim.nodos_seleccionados, Anim.deg_dict.
    rewrite (omap_ext_elem _ (λ u, d ← Nx.degree G2 u; Some (u, d))); [done|].
    intros u Hu. by rewrite Hdeg.
  - unfold Anim.animar, Anim.elegir_origen. by rewrite Ho.
Qed.

Lemma C9_sampler_deterministic_witness :
  (∀ u, u ∈ Py.keys [(0,0); (1,1); (2,1); (3,1); (4,2)] →
        Nx.degree star u = Nx.degree star' u) ∧
  Nx.contains star 0 = true ∧
  Anim.nodos_seleccionados star [(0,0); (1,1); (2,1); (3,1); (4,2)] 3
  = Anim.nodos_seleccionados star' [(0,0); (1,1); (2,1); (3,1); (4,2)] 3 ∧
  Anim.animar star (Some 0) 1 6 3 = Anim.animar star (Some 0) 5 6 3.
Proof.
  assert (Hdeg : ∀ u, u ∈ Py.keys [(0,0); (1,1); (2,1); (3,1); (4,2)] →
                      Nx.degree star u = Nx.degree star' u).
  { intros u Hu. simpl in Hu.
    repeat (apply elem_of_cons in Hu as [->|Hu]; [reflexivity|]).
    by apply elem_of_nil in Hu. }
  split; [exact Hdeg|]. split; [reflexivity|].
  apply (C9_sampler_deterministic star star'
           [(0,0); (1,1); (2,1); (3,1); (4,2)] 3 0 1%nat 5%nat 6);
    [exact Hdeg | reflexivity].
Defined.

(* --------------------------------------------------------------------- *)

(** C10.  For a graph, an origin that is one of its nodes and a cap of at
    least 1, the subgraph returned by [subgrafo_por_grados] contains the
    origin, at distance 0, and the returned dictionary is defined on
    exactly the nodes of the subgraph. *)
Theorem C10_origin_kept_and_distances_on_subgraph G o cutoff cap :
  Nx.wf_graph G = true → Nx.contains G o = true → 1 ≤ cap →
  ∃ H dist_H,
    Anim.subgrafo_por_grados G o cutoff cap = Some (H, dist_H) ∧
    o ∈ Nx.nodes H ∧
    Py.getitem dist_H o = Some 0 ∧
    (∀ v, v ∈ Nx.nodes H ↔ v ∈ Py.keys dist_H) ∧
    (∀ v, Nx.contains H v = true ↔ is_Some (Py.getitem dist_H v)).
Proof.
  intros Hwf Ho Hcap.
  destruct (AnimFacts.subgrafo_por_grados_spec G o cutoff cap Hwf Ho)
    as (dist & sel & H & dist_H & Hdist & Hsel & Hsub & _ & Hnd & HndH
        & Hiff & Hnodes & HH).
  assert (Ho0 : Py.getitem dist o = Some 0).
  { apply Hiff. exists 0%nat. split; [done|]. split; [lia|].
    by apply BfsFacts.hop_dist_zero. }
  assert (Hne : ∃ h, h ∈ sel).
  { pose proof Hsel as Hsel'.
    rewrite AnimFacts.nodos_seleccionados_eq in Hsel'. simplify_eq.
    case_decide as Hlt.
    - unfold Py.slice_to. rewrite decide_True by lia.
      pose proof (Permutation_length (AnimFacts.ordenados_perm G dist)) as Hl.
      destruct (Seleccion.ordenados G dist) as [|h l] eqn:Hord;
        [simpl in Hl; lia|].
      exists h. replace (Z.to_nat cap) with (S (Z.to_nat (cap - 1))) by lia.
      left.
    - exists o. apply getitem_is_Some. eauto. }
  assert (Hos : o ∈ sel).
  { destruct Hne as [h Hh].
    pose proof (AnimFacts.seleccion_keys _ _ _ _ _ Hsel Hh) as Hk.
    apply getitem_is_Some in Hk as [dh Hdh].
    pose proof Hdh as (d & -> & _ & Hd)%Hiff.
    destruct d as [|d].
    - apply BfsFacts.hop_dist_zero in Hd as ->. done.
    - apply (AnimFacts.seleccion_closed G dist cap sel h o _ 0
               Hsel Hdh Ho0 Hh). lia. }
  assert (Hkeys : ∀ v, v ∈ Nx.nodes H ↔ v ∈ Py.keys dist_H).
  { intros v. rewrite Hnodes, <- getitem_is_Some. split.
    - intros Hv.
      pose proof (AnimFacts.seleccion_keys _ _ _ _ _ Hsel Hv) as Hk.
      apply getitem_is_Some in Hk as [z Hz]. exists z. by apply HH.
    - intros [z [? _]%HH]. done. }
  exists H, dist_H. split; [done|]. split; [by apply Hnodes|].
  split; [by apply HH|]. split; [done|].
  intros v. by rewrite contains_nodes, Hkeys, getitem_is_Some.
Qed.

Lemma C10_origin_kept_and_distances_on_subgraph_witness :
  Nx.wf_graph star = true ∧ Nx.contains star 0 = true ∧ 1 ≤ 3 ∧
  ∃ H dist_H,
    Anim.subgrafo_por_grados star 0 6 3 = Some (H, dist_H) ∧
    0 ∈ Nx.nodes H ∧
    Py.getitem dist_H 0 = Some 0 ∧
    (∀ v, v ∈ Nx.nodes H ↔ v ∈ Py.keys dist_H) ∧
    (∀ v, Nx.contains H v = true ↔ is_Some (Py.getitem dist_H v)).
Proof.
  split; [reflexivity|]. split; [reflexivity|]. split; [lia|].
  apply (C10_origin_kept_and_distances_on_subgraph star 0 6 3);
    [reflexivity | reflexivity | lia].
Defined.

(* ===================================================================== *)
(** ** Further properties of the scripts *)
(* ===================================================================== *)

Example star_edges : NxViews.edges star = [(0,1); (0,2); (0,3); (1,4)].
Proof. reflexivity. Qed.

Example star_frame_1 :
  (λ f, (Frame.colores f, Frame.tama f, Frame.edges_visibles f,
         Frame.alcanzados f)) <$>
    Frame.dibujar_frame [{[0]}; {[1; 2; 3]}; {[4]}] [0; 1; 2; 3; 4]
      [(0,1); (0,2); (0,3); (1,4)] 5 1
  = Some (["#2166f3"; "#ff8f00"; "#ff8f00"; "#ff8f00"; "#d0d0d0"],
          [30; 70; 70; 70; 5], [(0,1); (0,2); (0,3)], 4%nat).
Proof. vm_compute. reflexivity. Qed.

(* --------------------------------------------------------------------- *)
(** *** Building the graph from the edge list *)

Module NxFacts.
Import Nx NxViews.

Lemma elem_adj G u nb : NoDup (nodes G) → (u, nb) ∈ G → adj G u = Some nb.
Proof.
  unfold nodes. induction G as [|[k nb'] G IH]; simpl.
  - intros _ ?%elem_of_nil. done.
  - intros [Hk Hnd]%NoDup_cons [?|Hin]%elem_of_cons; simplify_eq.
    + by rewrite decide_True.
    + rewrite decide_False; [auto|]. intros ->. apply Hk.
      apply list_elem_of_fmap. by exists (u, nb).
Qed.

(** [wf_graph] spelled out on the adjacency function. *)
Lemma wf_graph_iff G :
  wf_graph G = true ↔
  NoDup (nodes G) ∧
  ∀ u nb, adj G u = Some nb → NoDup nb ∧ ∀ v, v ∈ nb → is_Some (adj G v).
Proof.
  split.
  - intros Hwf. split; [by apply wf_NoDup_nodes|]. intros u nb Hadj. split.
    + unfold wf_graph in Hwf. apply andb_prop in Hwf as [_ Hall].
      rewrite forallb_forall in Hall.
      apply adj_Some_elem, list_elem_of_In, Hall in Hadj.
      apply andb_prop in Hadj as [Hnd _]. by apply bool_decide_eq_true in Hnd.
    + intros v Hv. apply adj_is_Some. eapply wf_neighbours; eauto.
  - intros [Hnd Hall]. unfold wf_graph. apply andb_true_intro. split.
    + by apply bool_decide_eq_true.
    + apply forallb_forall. intros [u nb] Hin%list_elem_of_In.
      apply (elem_adj _ _ _ Hnd), Hall in Hin as [Hnb Hnodes].
      apply andb_true_intro. split; [by apply bool_decide_eq_true|].
      apply forallb_forall. intros v Hv%list_elem_of_In.
      unfold contains. apply bool_decide_eq_true. auto.
Qed.

Lemma adj_app G1 G2 x :
  adj (G1 ++ G2) x = match adj G1 x with Some nb => Some nb | None => adj G2 x end.
Proof.
  induction G1 as [|[k nb] G1 IH]; simpl; [done|]. by case_decide.
Qed.

Lemma adj_add_node G u x :
  adj (add_node G u) x
  = match adj G x with
    | Some nb => Some nb
    | None => if decide (u = x) then Some [] else None
    end.
Proof.
  unfold add_node, contains. case_bool_decide as Hu.
  - destruct (adj G x) eqn:Hx; [done|]. case_decide; [|done].
    subst. rewrite Hx in Hu. by destruct Hu.
  - rewrite adj_app. simpl. destruct (adj G x); [done|]. done.
Qed.

Lemma nodes_add_node G u :
  nodes (add_node G u) = if contains G u then nodes G else nodes G ++ [u].
Proof.
  unfold add_node, nodes. destruct (contains G u); [done|].
  by rewrite fmap_app.
Qed.

Lemma NoDup_add_node G u : NoDup (nodes G) → NoDup (nodes (add_node G u)).
Proof.
  intros Hnd. rewrite nodes_add_node.
  destruct (contains G u) eqn:Hu; [done|].
  apply NoDup_app. split; [done|]. split; [|apply NoDup_singleton].
  intros x Hx ->%list_elem_of_singleton.
  apply contains_nodes in Hx. congruence.
Qed.

Lemma elem_of_con v nb y : y ∈ con v nb ↔ y ∈ nb ∨ y = v.
Proof.
  unfold con. case_decide.
  - split; [auto | intros [? | ->]; done].
  - rewrite elem_of_app, list_elem_of_singleton. done.
Qed.

Lemma NoDup_con v nb : NoDup nb → NoDup (con v nb).
Proof.
  intros Hnd. unfold con. case_decide; [done|].
  apply NoDup_app. split; [done|]. split; [|apply NoDup_singleton].
  intros x Hx ->%list_elem_of_singleton. done.
Qed.

Lemma adj_set_nbr G u v x :
  adj (set_nbr G u v) x
  = if decide (x = u) then con v <$> adj G x else adj G x.
Proof.
  induction G as [|[k nb] G IH]; simpl; [by case_decide|].
  destruct (decide (k = u)) as [->|Hku]; simpl.
  - destruct (decide (u = x)) as [->|Hux].
    + destruct (decide (x = x)) as [_|?]; [reflexivity | done].
    + destruct (decide (x = u)) as [?|_]; [congruence | done].
  - destruct (decide (k = x)) as [->|Hkx]; [|done].
    destruct (decide (x = u)) as [?|_]; [congruence | done].
Qed.

Lemma nodes_set_nbr G u v : nodes (set_nbr G u v) = nodes G.
Proof.
  unfold nodes. induction G as [|[k nb] G IH]; simpl; [done|].
  case_decide; simpl; [done | by f_equal].
Qed.

Lemma set_nbr_id G u v nb : adj G u = Some nb → v ∈ nb → set_nbr G u v = G.
Proof.
  induction G as [|[k nb'] G IH]; simpl; [done|].
  case_decide; intros ? Hv; simplify_eq.
  - by rewrite decide_True.
  - f_equal. by apply IH.
Qed.

Lemma add_node_id G u : is_Some (adj G u) → add_node G u = G.
Proof.
  intros Hu. unfold add_node, contains. by rewrite bool_decide_eq_true_2.
Qed.

Lemma adj_add_edge G u v x :
  adj (add_edge G (u, v)) x
  = (λ nb, if decide (x = v) then con u nb else nb) <$>
    ((λ nb, if decide (x = u) then con v nb else nb) <$>
     match adj G x with
     | Some nb => Some nb
     | None => if decide (x = u ∨ x = v) then Some [] else None
     end).
Proof.
  unfold add_edge. simpl. rewrite !adj_set_nbr, !adj_add_node.
  destruct (adj G x) as [nb|]; simpl.
  - repeat case_decide; done.
  - repeat case_decide; simplify_eq; simpl; try done; naive_solver.
Qed.

Lemma is_Some_adj_add_edge G u v x :
  is_Some (adj (add_edge G (u, v)) x) ↔ is_Some (adj G x) ∨ x = u ∨ x = v.
Proof.
  rewrite adj_add_edge, !fmap_is_Some.
  destruct (adj G x) as [nb|]; simpl.
  - split; [auto | by eexists].
  - case_decide as H.
    + split; [intros _; tauto | by eexists].
    + split; [intros [? ?]; done | intros [[? ?]|?]; [done | tauto]].
Qed.

Lemma elem_of_con_if (c : bool) v nb y :
  y ∈ (if c then con v nb else nb) ↔ y ∈ nb ∨ (c = true ∧ y = v).
Proof.
  destruct c; [rewrite elem_of_con|]; naive_solver.
Qed.

Lemma edge_add_edge G u v x y :
  Paths.edge (add_edge G (u, v)) x y ↔
  Paths.edge G x y ∨ (x = u ∧ y = v) ∨ (x = v ∧ y = u).
Proof.
  assert (Hsome : is_Some (adj (add_edge G (u, v)) x) ↔
                  is_Some (adj G x) ∨ x = u ∨ x = v)
    by apply is_Some_adj_add_edge.
  unfold Paths.edge. rewrite adj_add_edge in Hsome |- *.
  set (base := match adj G x with
               | Some nb => Some nb
               | None => if decide (x = u ∨ x = v) then Some [] else None
               end) in *.
  assert (Hbase : ∀ nb0, base = Some nb0 →
            ∀ z, z ∈ nb0 ↔ ∃ nb, adj G x = Some nb ∧ z ∈ nb).
  { intros nb0 Hb z. unfold base in Hb.
    destruct (adj G x) as [nb|]; simplify_eq.
    - split; [eauto | intros (? & ? & ?); by simplify_eq].
    - case_decide; simplify_eq.
      split; [intros ?%elem_of_nil; done | intros (? & ? & _); done]. }
  assert (Hmem : ∀ nb0 z,
            z ∈ (if decide (x = v) then con u
                   (if decide (x = u) then con v nb0 else nb0)
                 else if decide (x = u) then con v nb0 else nb0) ↔
            z ∈ nb0 ∨ (x = u ∧ z = v) ∨ (x = v ∧ z = u)).
  { intros nb0 z. destruct (decide (x = v)), (decide (x = u));
      rewrite ?elem_of_con; naive_solver. }
  split.
  - intros (nb & Hnb & Hy).
    destruct base as [nb0|] eqn:Hb; simplify_eq/=.
    apply Hmem in Hy as [Hy|Hy]; [|tauto].
    left. by apply (Hbase nb0).
  - intros Hcase.
    destruct (proj2 Hsome) as [nb Hnb].
    { destruct Hcase as [(nb & -> & _)|Hcase]; [left; by eexists | tauto]. }
    exists nb. split; [done|].
    destruct base as [nb0|] eqn:Hb; simplify_eq/=.
    apply Hmem. destruct Hcase as [Hcase|Hcase]; [|tauto].
    left. by apply (Hbase nb0).
Qed.

Lemma NoDup_nodes_add_edge G e : NoDup (nodes G) → NoDup (nodes (add_edge G e)).
Proof.
  intros Hnd. unfold add_edge. rewrite !nodes_set_nbr.
  by do 2 apply NoDup_add_node.
Qed.

Lemma NoDup_adj_add_edge G u v :
  (∀ x nb, adj G x = Some nb → NoDup nb) →
  ∀ x nb, adj (add_edge G (u, v)) x = Some nb → NoDup nb.
Proof.
  intros Hnb x nb. rewrite adj_add_edge.
  destruct (adj G x) as [nb0|] eqn:Hx; simpl.
  - intros ?; simplify_eq. apply Hnb in Hx.
    repeat case_decide; auto using NoDup_con.
  - destruct (decide (x = u ∨ x = v)); simpl; [|done].
    intros ?; simplify_eq.
    repeat case_decide; auto using NoDup_con, NoDup_nil_2.
Qed.

Lemma wf_add_edge G e : wf_graph G = true → wf_graph (add_edge G e) = true.
Proof.
  destruct e as [u v]. rewrite !wf_graph_iff. intros [Hnd Hall].
  split; [by apply NoDup_nodes_add_edge|]. intros x nb Hx. split.
  - eapply NoDup_adj_add_edge; [|done]. intros x' nb' Hx'.
    by apply Hall in Hx' as [? _].
  - intros y Hy. apply is_Some_adj_add_edge.
    assert (Paths.edge (add_edge G (u, v)) x y) as He by (by exists nb).
    apply edge_add_edge in He as [(nb0 & Hnb0 & Hy0)|[[-> ->]|[-> ->]]];
      [|tauto|tauto].
    left. by apply (Hall _ _ Hnb0).
Qed.

Lemma foldl_add_edge_wf edges : ∀ G,
  wf_graph G = true → wf_graph (foldl add_edge G edges) = true.
Proof.
  induction edges as [|e edges IH]; intros G Hwf; simpl; [done|].
  by apply IH, wf_add_edge.
Qed.

Lemma foldl_add_edge_edge edges : ∀ G x y,
  Paths.edge (foldl add_edge G edges) x y ↔
  Paths.edge G x y ∨ (x, y) ∈ edges ∨ (y, x) ∈ edges.
Proof.
  induction edges as [|[u v] edges IH]; intros G x y; simpl.
  - rewrite !elem_of_nil. tauto.
  - rewrite IH, edge_add_edge, !elem_of_cons. naive_solver.
Qed.

Lemma foldl_add_edge_nodes edges : ∀ G x,
  x ∈ nodes (foldl add_edge G edges) ↔
  x ∈ nodes G ∨ ∃ e, e ∈ edges ∧ (x = e.1 ∨ x = e.2).
Proof.
  induction edges as [|[u v] edges IH]; intros G x; simpl.
  - split; [auto | intros [?|(? & ?%elem_of_nil & _)]; done].
  - rewrite IH, <- !adj_is_Some, is_Some_adj_add_edge. split.
    + intros [[?|Hx]|(e & He & Hx)]; [by left| |].
      * right. exists (u, v). split; [left | done].
      * right. exists e. split; [by right | done].
    + intros [?|(e & [->|He]%elem_of_cons & Hx)]; [tauto| |].
      * left. simpl in Hx. tauto.
      * right. eauto.
Qed.

End NxFacts.

(** X1.  Whatever the edge list, the graph that [read_edgelist] builds is
    well formed: its nodes and each neighbour list have no repetition and
    every neighbour is a node. *)
Theorem X1_from_edgelist_wf edges : Nx.wf_graph (Nx.from_edgelist edges) = true.
Proof. apply NxFacts.foldl_add_edge_wf. reflexivity. Qed.

(** X2.  The graph built from an edge list is undirected and holds exactly
    the listed edges: [v] is a neighbour of [u] exactly when the line
    [u v] or the line [v u] is in the list, and the nodes are exactly the
    endpoints of the lines. *)
Theorem X2_from_edgelist_edges edges u v :
  (Paths.edge (Nx.from_edgelist edges) u v ↔
     (u, v) ∈ edges ∨ (v, u) ∈ edges) ∧
  (Paths.edge (Nx.from_edgelist edges) u v →
     Paths.edge (Nx.from_edgelist edges) v u) ∧
  (u ∈ Nx.nodes (Nx.from_edgelist edges) ↔
     ∃ e, e ∈ edges ∧ (u = e.1 ∨ u = e.2)).
Proof.
  assert (He : ∀ x y, Paths.edge (Nx.from_edgelist edges) x y ↔
                      (x, y) ∈ edges ∨ (y, x) ∈ edges).
  { intros x y. unfold Nx.from_edgelist.
    rewrite NxFacts.foldl_add_edge_edge. split; [|auto].
    intros [(nb & ? & _)|?]; done. }
  split; [apply He|]. split.
  - rewrite !He. tauto.
  - unfold Nx.from_edgelist. rewrite NxFacts.foldl_add_edge_nodes.
    split; [|auto]. intros [?%elem_of_nil|?]; done.
Qed.

Lemma add_edge_id G u v :
  Paths.edge G u v → Paths.edge G v u → Nx.add_edge G (u, v) = G.
Proof.
  intros (nbu & Hu & Hv) (nbv & Hv' & Hu'). unfold Nx.add_edge. simpl.
  rewrite (NxFacts.add_node_id G u) by eauto.
  rewrite (NxFacts.add_node_id G v) by eauto.
  rewrite (NxFacts.set_nbr_id G u v nbu) by done.
  by rewrite (NxFacts.set_nbr_id G v u nbv).
Qed.

(** X3.  A repeated line changes nothing: once the line [u v], or the line
    [v u], has been read, reading [u v] again later leaves the graph as it
    would be without that line, neighbour order included. *)
Theorem X3_duplicate_edge_ignored es1 es2 u v :
  (u, v) ∈ es1 ∨ (v, u) ∈ es1 →
  Nx.from_edgelist (es1 ++ (u, v) :: es2) = Nx.from_edgelist (es1 ++ es2).
Proof.
  intros Hin. unfold Nx.from_edgelist. rewrite !foldl_app. simpl.
  rewrite add_edge_id; [done| |].
  - apply NxFacts.foldl_add_edge_edge. tauto.
  - apply NxFacts.foldl_add_edge_edge. tauto.
Qed.

Lemma X3_duplicate_edge_ignored_witness :
  ((0, 1) ∈ [(1, 0); (1, 2)] ∨ (1, 0) ∈ [(1, 0); (1, 2)]) ∧
  Nx.from_edgelist ([(1, 0); (1, 2)] ++ (0, 1) :: [(2, 3)])
  = Nx.from_edgelist ([(1, 0); (1, 2)] ++ [(2, 3)]).
Proof.
  assert (H : (0, 1) ∈ [(1, 0); (1, 2)] ∨ (1, 0) ∈ [(1, 0); (1, 2)])
    by (right; left).
  split; [exact H|].
  apply (X3_duplicate_edge_ignored [(1, 0); (1, 2)] [(2, 3)] 0 1 H).
Defined.

(* --------------------------------------------------------------------- *)
(** *** The graph cache *)

(** X4.  Once [_load_graph_once] has loaded a graph, the cache holds it and
    every later call returns that same graph whatever path it is given, a
    path without a file included; the graph is well formed. *)
Theorem X4_cache_returns_first_graph fs path G cache paths :
  Loader._load_graph_once fs None path = Some (G, cache) →
  cache = Some G ∧
  Nx.wf_graph G = true ∧
  Loader.cargar_grafo fs path = Some G ∧
  Loader.load_calls fs cache paths = replicate (length paths) (Some G).
Proof.
  unfold Loader._load_graph_once, Loader.cargar_grafo.
  destruct (fs path) as [edges|]; [simpl | done].
  intros ?; simplify_eq. split; [done|].
  split; [by apply NxFacts.foldl_add_edge_wf|]. split; [done|].
  induction paths as [|p paths IH]; simpl; [done|]. by rewrite IH.
Qed.

Lemma X4_cache_returns_first_graph_witness :
  Loader._load_graph_once
    (λ p, if String.eqb p "facebook_combined.txt"
          then Some [(0,1); (0,2); (0,3); (1,4)] else None)
    None "facebook_combined.txt" = Some (star, Some star) ∧
  Loader.load_calls
    (λ p, if String.eqb p "facebook_combined.txt"
          then Some [(0,1); (0,2); (0,3); (1,4)] else None)
    (Some star) ["otro.txt"; "facebook_combined.txt"]
  = replicate (length ["otro.txt"; "facebook_combined.txt"]) (Some star).
Proof.
  assert (H : Loader._load_graph_once
    (λ p, if String.eqb p "facebook_combined.txt"
          then Some [(0,1); (0,2); (0,3); (1,4)] else None)
    None "facebook_combined.txt" = Some (star, Some star)) by reflexivity.
  split; [exact H|].
  apply (X4_cache_returns_first_graph _ _ _ _
           ["otro.txt"; "facebook_combined.txt"] H).
Defined.

(* --------------------------------------------------------------------- *)
(** *** SevenDegreesModel: the run as a whole *)

Module RunFacts.
Import SevenDegreesModel.

(** Consecutive states of the loop are one [sim_step] apart. *)
Lemma sim_loop_chain G steps fuel : ∀ m ms,
  sim_loop G steps fuel m = Some ms →
  ∀ i a b, (m :: ms) !! i = Some a → (m :: ms) !! S i = Some b →
           sim_step G steps a = Some b.
Proof.
  induction fuel as [|fuel IH]; intros m ms; simpl.
  - destruct (running m); [done|]. intros ?; simplify_eq.
    intros [|i] a b; simpl; intros; simplify_eq.
  - destruct (running m); [|by intros ?; simplify_eq; intros [|i] a b ? ?].
    destruct (sim_step G steps m) as [m'|] eqn:Hstep; [simpl | done].
    destruct (sim_loop G steps fuel m') as [ms'|] eqn:Hloop; [simpl | done].
    intros ?; simplify_eq. intros [|i] a b Ha Hb; simpl in *; simplify_eq.
    + done.
    + eapply (IH m' ms' Hloop i); eauto.
Qed.

(** Whatever [source_id] is, [setup] behaves as with the origin it picks. *)
Lemma setup_chosen G source_id rnd :
  G ≠ [] →
  ∃ o, Nx.contains G o = true ∧
       setup G source_id rnd = setup G (Some o) rnd ∧
       (∀ s, source_id = Some s → Nx.contains G s = true → o = s).
Proof.
  intros HG.
  destruct (random_choice_total rnd (Nx.nodes G)) as [o' Ho'].
  { unfold Nx.nodes. by destruct G. }
  pose proof Ho' as Hin%random_choice_elem%contains_nodes.
  destruct source_id as [s|]; [destruct (Nx.contains G s) eqn:Hs|].
  - exists s. split; [done|]. split; [done|]. by intros ? [= ->].
  - exists o'. split; [done|]. split; [|intros ? [= ->]; congruence].
    unfold setup. by rewrite Hs, Ho', Hin.
  - exists o'. split; [done|]. split; [|done].
    unfold setup. by rewrite Ho', Hin.
Qed.

(** The run from a valid origin, with all that the later properties use. *)
Lemma run_spec G o rnd steps :
  Nx.wf_graph G = true → Nx.contains G o = true →
  ∃ ms mf,
    run_states G (Some o) rnd steps = Some ms ∧
    run G (Some o) rnd steps = Some mf ∧
    last ms = Some mf ∧
    Forall (good G o steps) ms ∧
    (∀ i m, ms !! i = Some m → t m = i) ∧
    running mf = false ∧
    (length ms ≤ S steps)%nat ∧
    (frontera mf = ∅ ∨ length ms = S steps) ∧
    alcanzados mf = ⋃ (frontera <$> ms) ∧
    Forall2 (row_ok G) ms (log mf) ∧
    (∀ i a b, ms !! i = Some a → ms !! S i = Some b →
              sim_step G steps a = Some b).
Proof.
  intros Hwf Ho.
  destruct (ModelFacts.run_states_spec G o rnd steps Hwf Ho)
    as (ms & mf & Hrun & Hlast & _ & Hgood & Ht & Hruns & Hend & Hu & Hrows).
  exists ms, mf. split; [done|].
  split; [unfold run; by rewrite Hrun|].
  split; [done|]. split; [done|]. split; [done|]. split; [done|].
  pose proof Hgood as Hgood'. rewrite Forall_forall in Hgood'.
  assert (Hlen : (length ms ≤ S steps)%nat).
  { destruct (decide (length ms ≤ 1)%nat) as [|Hgt]; [lia|].
    destruct (lookup_lt_is_Some_2 ms (length ms - 2)) as [m Hm]; [lia|].
    destruct (Hgood' m) as (_ & _ & Hr & _).
    { apply list_elem_of_lookup. eauto. }
    destruct Hr as [_ Hlt]; [apply (Hruns _ _ Hm); lia|].
    rewrite (Ht _ _ Hm) in Hlt. lia. }
  split; [done|]. split.
  { pose proof Hlast as Hl. rewrite last_lookup in Hl.
    pose proof (Ht _ _ Hl) as Htf.
    destruct (Hgood' mf) as (_ & _ & _ & Hstop).
    { apply list_elem_of_lookup. eauto. }
    destruct (Hstop Hend) as [?|Hs]; [by left|]. right.
    apply lookup_lt_Some in Hl. lia. }
  split; [done|]. split; [done|].
  unfold run_states in Hrun.
  destruct (sim_setup G (Some o) rnd steps) as [m0|]; [simpl in Hrun | done].
  destruct (sim_loop G steps steps m0) as [ms'|] eqn:Hloop;
    [simpl in Hrun | done].
  simplify_eq. by apply (sim_loop_chain G steps steps m0 ms').
Qed.

(** One step, seen from the invariant: the new frontier is new. *)
Lemma sim_step_growth G o steps a b :
  Nx.wf_graph G = true → o ∈ Nx.nodes G → good G o steps a →
  sim_step G steps a = Some b →
  alcanzados b = alcanzados a ∪ frontera b ∧ frontera b ## alcanzados a.
Proof.
  intros Hwf Ho Hgood Hstep.
  destruct (ModelFacts.sim_step_spec G o steps a Hwf Ho Hgood)
    as (b' & r & Hstep' & Hgood' & Ht & Halc & _).
  rewrite Hstep in Hstep'. simplify_eq. split; [done|].
  destruct Hgood as (_ & Hinv & _). destruct Hgood' as (_ & Hinv' & _).
  intros v [_ Hmin]%(inv_fro _ _ _ _ _ Hinv')
           (j & Hj & Hw)%(inv_alc _ _ _ _ _ Hinv).
  apply (Hmin j); [lia | done].
Qed.

Lemma good_size G o steps m :
  Nx.wf_graph G = true → o ∈ Nx.nodes G → good G o steps m →
  (1 ≤ size (alcanzados m) ≤ Nx.number_of_nodes G)%nat.
Proof.
  intros Hwf Ho Hgood. split.
  - assert (o ∈ alcanzados m) as Hin.
    { destruct Hgood as (_ & Hinv & _). apply (inv_alc _ _ _ _ _ Hinv).
      exists 0%nat. split; [lia | constructor]. }
    destruct (decide (size (alcanzados m) = 0%nat)) as [Hz|]; [|lia].
    apply size_empty_inv in Hz. rewrite Hz in Hin. set_solver.
  - assert (alcanzados m ⊆ list_to_set (Nx.nodes G)) as Hsub.
    { intros v Hv. apply elem_of_list_to_set.
      eapply ModelFacts.good_nodes; eauto. }
    apply subseteq_size in Hsub.
    rewrite size_list_to_set in Hsub by (by apply wf_NoDup_nodes).
    unfold Nx.number_of_nodes. unfold Nx.nodes in Hsub.
    by rewrite length_fmap in Hsub.
Qed.

End RunFacts.

(** X5.  On a well-formed graph a run raises exactly when the graph has no
    node (the random draw of [setup] has nothing to choose from).
    Otherwise, whatever [source_id] and the draw are, the run ends stopped
    after at most [steps] steps, its origin is a node of the graph, and it
    is [source_id] itself when that is a node. *)
Theorem X5_run_ends_unless_graph_empty G source_id rnd steps :
  Nx.wf_graph G = true →
  (G = [] → SevenDegreesModel.run G source_id rnd steps = None) ∧
  (G ≠ [] →
   ∃ mf, SevenDegreesModel.run G source_id rnd steps = Some mf ∧
     SevenDegreesModel.source mf ∈ Nx.nodes G ∧
     SevenDegreesModel.running mf = false ∧
     (SevenDegreesModel.t mf ≤ steps)%nat ∧
     ∀ s, source_id = Some s → Nx.contains G s = true →
          SevenDegreesModel.source mf = s).
Proof.
  intros Hwf. split.
  - intros ->. by destruct source_id.
  - intros HG.
    destruct (RunFacts.setup_chosen G source_id rnd HG) as (o & Ho & Heq & Hs).
    destruct (RunFacts.run_spec G o rnd steps Hwf Ho)
      as (ms & mf & _ & Hrun & Hlast & Hgood & Ht & Hend & Hlen & _).
    exists mf.
    assert (SevenDegreesModel.run G source_id rnd steps
            = SevenDegreesModel.run G (Some o) rnd steps) as ->.
    { unfold SevenDegreesModel.run, SevenDegreesModel.run_states,
        SevenDegreesModel.sim_setup. by rewrite Heq. }
    split; [done|].
    rewrite last_lookup in Hlast. pose proof (Ht _ _ Hlast) as Htf.
    rewrite Forall_forall in Hgood.
    destruct (Hgood mf) as (Hsrc & _).
    { apply list_elem_of_lookup. eauto. }
    rewrite Hsrc. split; [by apply contains_nodes|]. split; [done|].
    split; [apply lookup_lt_Some in Hlast; lia|].
    intros s Hsid Hc. by apply Hs.
Qed.

Lemma X5_run_ends_unless_graph_empty_witness :
  Nx.wf_graph star = true ∧
  (star = [] → SevenDegreesModel.run star (Some 99) 3 7 = None) ∧
  (star ≠ [] →
   ∃ mf, SevenDegreesModel.run star (Some 99) 3 7 = Some mf ∧
     SevenDegreesModel.source mf ∈ Nx.nodes star ∧
     SevenDegreesModel.running mf = false ∧
     (SevenDegreesModel.t mf ≤ 7)%nat ∧
     ∀ s, Some 99 = Some s → Nx.contains star s = true →
          SevenDegreesModel.source mf = s).
Proof.
  split; [reflexivity|].
  apply (X5_run_ends_unless_graph_empty star (Some 99) 3%nat 7%nat).
  reflexivity.
Defined.

(** X6.  When the run ends, [alcanzados] is exactly the set of nodes within
    [steps] hops of the origin, whether the run used all its steps or
    stopped early on an empty frontier. *)
Theorem X6_run_reaches_everything_within_steps G o rnd steps :
  Nx.wf_graph G = true → Nx.contains G o = true →
  ∃ mf, SevenDegreesModel.run G (Some o) rnd steps = Some mf ∧
    ∀ v, v ∈ SevenDegreesModel.alcanzados mf ↔
         ∃ d, (d ≤ steps)%nat ∧ Paths.hop_dist G o v d.
Proof.
  intros Hwf Ho.
  destruct (RunFacts.run_spec G o rnd steps Hwf Ho)
    as (ms & mf & _ & Hrun & Hlast & Hgood & Ht & _ & Hlen & Hstop & Hu & _).
  exists mf. split; [done|]. intros v.
  rewrite Forall_forall in Hgood. split.
  - rewrite Hu. intros (X & HX & Hv)%elem_of_union_list.
    apply list_elem_of_fmap in HX as (m & -> & [d Hd]%list_elem_of_lookup).
    destruct (Hgood m) as (_ & Hinv & _).
    { apply list_elem_of_lookup. eauto. }
    rewrite (Ht _ _ Hd) in Hinv. exists d.
    split; [apply lookup_lt_Some in Hd; lia|].
    by apply (bfs_inv_hop _ _ _ _ _ _ Hinv).
  - intros (d & Hd & Hhop).
    rewrite last_lookup in Hlast. pose proof (Ht _ _ Hlast) as Htf.
    destruct (Hgood mf) as (_ & Hinv & _).
    { apply list_elem_of_lookup. eauto. }
    destruct Hstop as [Hempty|Hfull].
    + rewrite Hempty in Hinv. destruct Hhop as [Hw _].
      eapply bfs_inv_exhausted; eauto.
    + apply (inv_alc _ _ _ _ _ Hinv). exists d. destruct Hhop as [Hw _].
      split; [lia | done].
Qed.

Lemma X6_run_reaches_everything_within_steps_witness :
  Nx.wf_graph star = true ∧ Nx.contains star 0 = true ∧
  ∃ mf, SevenDegreesModel.run star (Some 0) 0 1 = Some mf ∧
    ∀ v, v ∈ SevenDegreesModel.alcanzados mf ↔
         ∃ d, (d ≤ 1)%nat ∧ Paths.hop_dist star 0 v d.
Proof.
  split; [reflexivity|]. split; [reflexivity|].
  apply (X6_run_reaches_everything_within_steps star 0 0%nat 1%nat);
    reflexivity.
Defined.

(** X7.  Along the metrics of a run, [personas_conocidas] starts at 1 and
    grows at each depth by exactly the size of that depth's frontier (so it
    never decreases), it never exceeds the number of nodes, and
    [fraccion_conocida] is that count over the number of nodes, in (0, 1]. *)
Theorem X7_metrics_grow_by_frontier G o rnd steps :
  Nx.wf_graph G = true → Nx.contains G o = true →
  ∃ ms mf,
    SevenDegreesModel.run_states G (Some o) rnd steps = Some ms ∧
    SevenDegreesModel.run G (Some o) rnd steps = Some mf ∧
    length (SevenDegreesModel.log mf) = length ms ∧
    (∀ r, SevenDegreesModel.log mf !! 0%nat = Some r →
          SevenDegreesModel.personas_conocidas r = 1%nat) ∧
    (∀ d r r' m',
       SevenDegreesModel.log mf !! d = Some r →
       SevenDegreesModel.log mf !! S d = Some r' →
       ms !! S d = Some m' →
       SevenDegreesModel.personas_conocidas r'
       = (SevenDegreesModel.personas_conocidas r
          + size (SevenDegreesModel.frontera m'))%nat) ∧
    (∀ r, r ∈ SevenDegreesModel.log mf →
       (1 ≤ SevenDegreesModel.personas_conocidas r
          ≤ Nx.number_of_nodes G)%nat ∧
       (SevenDegreesModel.fraccion_conocida r ==
          Z.of_nat (SevenDegreesModel.personas_conocidas r)
          # Pos.of_nat (Nx.number_of_nodes G))%Q ∧
       (0 < SevenDegreesModel.fraccion_conocida r)%Q ∧
       (SevenDegreesModel.fraccion_conocida r <= 1)%Q).
Proof.
  intros Hwf Ho. pose proof (proj1 (contains_nodes G o) Ho) as Hon.
  destruct (RunFacts.run_spec G o rnd steps Hwf Ho)
    as (ms & mf & Hstates & Hrun & Hlast & Hgood & Ht & _ & _ & _ & _
        & Hrows & Hchain).
  rewrite Forall_forall in Hgood.
  assert (Hg : ∀ i m, ms !! i = Some m → good G o steps m).
  { intros i m Hm. apply Hgood, list_elem_of_lookup. eauto. }
  exists ms, mf. split; [done|]. split; [done|].
  split; [symmetry; by eapply Forall2_length|]. split; [|split].
  - intros r Hr.
    destruct (Forall2_lookup_r _ _ _ _ _ Hrows Hr) as (m & Hm & _ & Hp & _).
    rewrite Hp.
    destruct (ModelFacts.sim_setup_spec G o rnd steps Ho)
      as (m0 & r0 & Hsetup & _ & _ & Halc & _).
    unfold SevenDegreesModel.run_states in Hstates. rewrite Hsetup in Hstates.
    simpl in Hstates.
    destruct (SevenDegreesModel.sim_loop G steps steps m0);
      simplify_eq/=. rewrite Halc. apply size_singleton.
  - intros d r r' m' Hr Hr' Hm'.
    destruct (Forall2_lookup_r _ _ _ _ _ Hrows Hr) as (m & Hm & _ & Hp & _).
    destruct (Forall2_lookup_r _ _ _ _ _ Hrows Hr') as (m'' & Hm'' & _ & Hp' & _).
    simplify_eq.
    destruct (RunFacts.sim_step_growth G o steps m m' Hwf Hon (Hg _ _ Hm)
                (Hchain _ _ _ Hm Hm')) as [Halc Hdisj].
    rewrite Hp, Hp', Halc. apply size_union. by symmetry.
  - intros r [i Hr]%list_elem_of_lookup.
    destruct (Forall2_lookup_r _ _ _ _ _ Hrows Hr) as (m & Hm & _ & Hp & Hf).
    pose proof (RunFacts.good_size G o steps m Hwf Hon (Hg _ _ Hm)) as Hsz.
    rewrite Hp. split; [done|].
    unfold SevenDegreesModel.fraccion in Hf.
    destruct (Nx.number_of_nodes G) as [|n] eqn:Hn; [done|].
    simplify_eq. rewrite <- Hf.
    assert (Z.pos (Pos.of_nat (S n)) = Z.of_nat (S n)) as Hpos.
    { rewrite <- positive_nat_Z, Nat2Pos.id; done. }
    split; [reflexivity|]. unfold Qlt, Qle. simpl Qnum. simpl Qden.
    rewrite Hpos. lia.
Qed.

Lemma X7_metrics_grow_by_frontier_witness :
  Nx.wf_graph star = true ∧ Nx.contains star 0 = true ∧
  ∃ ms mf,
    SevenDegreesModel.run_states star (Some 0) 0 7 = Some ms ∧
    SevenDegreesModel.run star (Some 0) 0 7 = Some mf ∧
    length (SevenDegreesModel.log mf) = length ms.
Proof.
  split; [reflexivity|]. split; [reflexivity|].
  destruct (X7_metrics_grow_by_frontier star 0 0%nat 7%nat)
    as (ms & mf & H1 & H2 & H3 & _); [reflexivity | reflexivity |].
  exists ms, mf. split; [exact H1|]. split; [exact H2 | exact H3].
Defined.

(* --------------------------------------------------------------------- *)
(** *** [elegir_origen] *)

(** X8.  [elegir_origen] returns a requested origin that is a node
    unchanged, whatever the random draw; whatever it returns is a node of
    the graph; and it raises exactly when the graph has no node. *)
Theorem X8_elegir_origen_returns_a_node G source_id rnd :
  (∀ s, source_id = Some s → Nx.contains G s = true →
        Anim.elegir_origen G source_id rnd = Some s) ∧
  (∀ o, Anim.elegir_origen G source_id rnd = Some o → o ∈ Nx.nodes G) ∧
  (Anim.elegir_origen G source_id rnd = None ↔ G = []).
Proof.
  assert (Hrc : random_choice rnd (Nx.nodes G) = None ↔ G = []).
  { split.
    - intros Hn. destruct G as [|x G]; [done|].
      destruct (random_choice_total rnd (Nx.nodes (x :: G))) as [? ?];
        [done | congruence].
    - by intros ->. }
  unfold Anim.elegir_origen. split; [|split].
  - intros s -> Hs. by rewrite Hs.
  - intros o. destruct source_id as [s|]; [destruct (Nx.contains G s) eqn:Hs|].
    + intros [= <-]. by apply contains_nodes.
    + apply random_choice_elem.
    + apply random_choice_elem.
  - destruct source_id as [s|]; [destruct (Nx.contains G s) eqn:Hs|]; [|done..].
    split; [done|]. intros ->. done.
Qed.

(* --------------------------------------------------------------------- *)
(** *** [subgrafo_por_grados]: the subgraph that is drawn *)

Module SubFacts.
Import Nx.

Lemma adj_subgraph G sel u :
  adj (subgraph G sel) u
  = if decide (u ∈ sel) then filter (λ v, v ∈ sel) <$> adj G u else None.
Proof.
  unfold subgraph. induction G as [|[k nb] G IH]; simpl.
  - by case_decide.
  - rewrite filter_cons. simpl. destruct (decide (k ∈ sel)) as [Hk|Hk]; simpl.
    + destruct (decide (k = u)) as [->|Hku].
      * destruct (decide (u ∈ sel)); done.
      * exact IH.
    + etrans; [exact IH|]. destruct (decide (k = u)) as [->|Hku]; [|done].
      destruct (decide (u ∈ sel)); done.
Qed.

Lemma nodes_subgraph G sel :
  nodes (subgraph G sel) = filter (λ u, u ∈ sel) (nodes G).
Proof.
  unfold subgraph, nodes. induction G as [|[k nb] G IH]; simpl; [done|].
  rewrite !filter_cons. simpl. destruct (decide (k ∈ sel)); simpl;
    [f_equal|]; exact IH.
Qed.

Lemma edge_subgraph G sel u v :
  Paths.edge (subgraph G sel) u v ↔ u ∈ sel ∧ v ∈ sel ∧ Paths.edge G u v.
Proof.
  unfold Paths.edge. rewrite adj_subgraph. split.
  - intros (nb & Hnb & Hv). case_decide; [|done].
    destruct (adj G u) as [nb0|]; simplify_eq/=.
    apply list_elem_of_filter in Hv as [? ?]. eauto.
  - intros (Hu & Hv & nb & Hnb & Hin). rewrite decide_True, Hnb by done.
    eexists. split; [done|]. by apply list_elem_of_filter.
Qed.

Lemma wf_subgraph G sel : wf_graph G = true → wf_graph (subgraph G sel) = true.
Proof.
  rewrite !NxFacts.wf_graph_iff. intros [Hnd Hall]. split.
  - rewrite nodes_subgraph. by apply NoDup_filter.
  - intros u nb. rewrite adj_subgraph. case_decide as Hu; [|done].
    destruct (adj G u) as [nb0|] eqn:Hadj; [simpl | done].
    intros ?; simplify_eq. destruct (Hall _ _ Hadj) as [Hnb Hnodes].
    split; [by apply NoDup_filter|].
    intros v [Hv Hin]%list_elem_of_filter. rewrite adj_subgraph.
    rewrite decide_True by done. apply fmap_is_Some. auto.
Qed.

Lemma length_subgraph G sel :
  NoDup (nodes G) → NoDup sel → (∀ u, u ∈ sel → u ∈ nodes G) →
  number_of_nodes (subgraph G sel) = length sel.
Proof.
  intros HG Hsel Hsub. unfold number_of_nodes.
  rewrite <- (length_fmap fst). change ((subgraph G sel).*1)
    with (nodes (subgraph G sel)).
  rewrite nodes_subgraph. apply Permutation_length.
  apply NoDup_Permutation; [by apply NoDup_filter | done |].
  intros u. rewrite list_elem_of_filter. naive_solver.
Qed.

End SubFacts.

Module PipeFacts.
Import Anim Seleccion.

Lemma seleccion_NoDup G dist max_nodos sel :
  NoDup (Py.keys dist) →
  nodos_seleccionados G dist max_nodos = Some sel → NoDup sel.
Proof.
  intros Hnd. rewrite AnimFacts.nodos_seleccionados_eq.
  intros ?; simplify_eq. case_decide; [|done].
  destruct (AnimFacts.slice_to_take (ordenados G dist) max_nodos) as [k ->].
  eapply sublist_NoDup; [|apply sublist_take].
  by rewrite AnimFacts.ordenados_perm.
Qed.

Lemma seleccion_length G dist max_nodos sel :
  0 ≤ max_nodos →
  nodos_seleccionados G dist max_nodos = Some sel →
  Z.of_nat (length sel) = Z.min (Z.of_nat (length dist)) max_nodos.
Proof.
  intros Hcap. rewrite AnimFacts.nodos_seleccionados_eq.
  intros ?; simplify_eq. unfold Py.keys. rewrite length_fmap.
  case_decide.
  - unfold Py.slice_to. rewrite decide_True by done.
    rewrite length_take.
    rewrite (Permutation_length (AnimFacts.ordenados_perm G dist)).
    unfold Py.keys. rewrite length_fmap. lia.
  - rewrite length_fmap. lia.
Qed.

(** The parts of the result, with what the size and order properties
    need. *)
Lemma subgrafo_parts G o cutoff max_nodos :
  Nx.wf_graph G = true → Nx.contains G o = true →
  ∃ dist sel dist_H,
    Bfs.single_source_shortest_path_length G o cutoff = Some dist ∧
    nodos_seleccionados G dist max_nodos = Some sel ∧
    subgrafo_por_grados G o cutoff max_nodos
      = Some (Nx.subgraph G sel, dist_H) ∧
    dist_H = filter (λ '(u, _), u ∈ sel) dist ∧
    NoDup (Py.keys dist) ∧ NoDup sel ∧
    (∀ u, u ∈ sel → u ∈ Py.keys dist) ∧
    (∀ u, u ∈ sel → u ∈ Nx.nodes G) ∧
    (∀ v z, Py.getitem dist v = Some z ↔
       ∃ d, z = Z.of_nat d ∧ (d ≤ Z.to_nat cutoff)%nat ∧
            Paths.hop_dist G o v d).
Proof.
  intros Hwf Ho.
  destruct (AnimFacts.subgrafo_por_grados_spec G o cutoff max_nodos Hwf Ho)
    as (dist & sel & H & dist_H & Hdist & Hsel & Hsub & -> & Hnd & _
        & Hiff & Hnodes & _).
  assert (Hin : ∀ u, u ∈ sel → u ∈ Nx.nodes G).
  { intros u Hu%Hnodes. by apply AnimFacts.subgraph_nodes in Hu as [? _]. }
  exists dist, sel, (filter (λ '(u, _), u ∈ sel) dist).
  split; [done|]. split; [done|]. split.
  { rewrite Hsub. f_equal. f_equal.
    unfold subgrafo_por_grados in Hsub. rewrite Hdist in Hsub.
    simpl in Hsub. rewrite Hsel in Hsub. simpl in Hsub. simplify_eq.
    apply list_filter_iff. intros [u d].
    rewrite contains_nodes, Hnodes. done. }
  split; [done|]. split; [done|].
  split; [by eapply seleccion_NoDup|].
  split; [intros u; by apply (AnimFacts.seleccion_keys G dist max_nodos)|].
  done.
Qed.

End PipeFacts.

(** X9.  The graph that [subgrafo_por_grados] returns is the subgraph of
    [G] induced by its nodes: it is well formed, and two of its nodes are
    neighbours in it exactly when they are neighbours in [G]. *)
Theorem X9_subgraph_is_induced G o cutoff max_nodos :
  Nx.wf_graph G = true → Nx.contains G o = true →
  ∃ H dist_H,
    Anim.subgrafo_por_grados G o cutoff max_nodos = Some (H, dist_H) ∧
    Nx.wf_graph H = true ∧
    (∀ u, u ∈ Nx.nodes H → u ∈ Nx.nodes G) ∧
    ∀ u v, Paths.edge H u v ↔
           u ∈ Nx.nodes H ∧ v ∈ Nx.nodes H ∧ Paths.edge G u v.
Proof.
  intros Hwf Ho.
  destruct (PipeFacts.subgrafo_parts G o cutoff max_nodos Hwf Ho)
    as (dist & sel & dist_H & _ & _ & Hsub & _ & _ & _ & _ & Hin & _).
  exists (Nx.subgraph G sel), dist_H. split; [done|].
  split; [by apply SubFacts.wf_subgraph|]. split.
  - intros u Hu. by apply AnimFacts.subgraph_nodes in Hu as [? _].
  - intros u v. rewrite SubFacts.edge_subgraph, !AnimFacts.subgraph_nodes.
    naive_solver.
Qed.

Lemma X9_subgraph_is_induced_witness :
  Nx.wf_graph star = true ∧ Nx.contains star 0 = true ∧
  ∃ H dist_H,
    Anim.subgrafo_por_grados star 0 6 3 = Some (H, dist_H) ∧
    Nx.wf_graph H = true ∧
    (∀ u, u ∈ Nx.nodes H → u ∈ Nx.nodes star) ∧
    ∀ u v, Paths.edge H u v ↔
           u ∈ Nx.nodes H ∧ v ∈ Nx.nodes H ∧ Paths.edge star u v.
Proof.
  split; [reflexivity|]. split; [reflexivity|].
  apply (X9_subgraph_is_induced star 0 6 3); reflexivity.
Defined.

(** X10.  For a cap that is not negative, the returned subgraph has exactly
    min(number of nodes within [cutoff] hops, cap) nodes, and the returned
    dictionary has one entry per node of the subgraph. *)
Theorem X10_subgraph_size G o cutoff max_nodos :
  Nx.wf_graph G = true → Nx.contains G o = true → 0 ≤ max_nodos →
  ∃ dist H dist_H,
    Bfs.single_source_shortest_path_length G o cutoff = Some dist ∧
    Anim.subgrafo_por_grados G o cutoff max_nodos = Some (H, dist_H) ∧
    Z.of_nat (Nx.number_of_nodes H)
      = Z.min (Z.of_nat (length dist)) max_nodos ∧
    length dist_H = Nx.number_of_nodes H.
Proof.
  intros Hwf Ho Hcap.
  destruct (PipeFacts.subgrafo_parts G o cutoff max_nodos Hwf Ho)
    as (dist & sel & dist_H & Hdist & Hsel & Hsub & -> & Hnd & Hnds & Hk
        & Hin & _).
  exists dist, (Nx.subgraph G sel), (filter (λ '(u, _), u ∈ sel) dist).
  split; [done|]. split; [done|].
  rewrite (SubFacts.length_subgraph G sel) by (by try apply wf_NoDup_nodes).
  split; [by eapply PipeFacts.seleccion_length|].
  rewrite <- (length_fmap fst).
  change ((filter (λ '(u, _), u ∈ sel) dist).*1)
    with (Py.keys (filter (λ '(u, _), u ∈ sel) dist)).
  rewrite (keys_filter_keys (λ u, u ∈ sel)). apply Permutation_length.
  apply NoDup_Permutation; [by apply NoDup_filter | done |].
  intros u. rewrite list_elem_of_filter. naive_solver.
Qed.

Lemma X10_subgraph_size_witness :
  Nx.wf_graph star = true ∧ Nx.contains star 0 = true ∧ 0 ≤ 3 ∧
  ∃ dist H dist_H,
    Bfs.single_source_shortest_path_length star 0 6 = Some dist ∧
    Anim.subgrafo_por_grados star 0 6 3 = Some (H, dist_H) ∧
    Z.of_nat (Nx.number_of_nodes H) = Z.min (Z.of_nat (length dist)) 3 ∧
    length dist_H = Nx.number_of_nodes H.
Proof.
  split; [reflexivity|]. split; [reflexivity|]. split; [lia|].
  apply (X10_subgraph_size star 0 6 3); [reflexivity | reflexivity | lia].
Defined.

(** X11.  Raising the cap never removes a node: for caps
    0 <= cap <= cap', every node of the subgraph drawn with [cap] is a
    node of the one drawn with [cap'], with the same distance. *)
Theorem X11_subgraph_grows_with_cap G o cutoff cap cap' :
  Nx.wf_graph G = true → Nx.contains G o = true → 0 ≤ cap ≤ cap' →
  ∃ H dist_H H' dist_H',
    Anim.subgrafo_por_grados G o cutoff cap = Some (H, dist_H) ∧
    Anim.subgrafo_por_grados G o cutoff cap' = Some (H', dist_H') ∧
    (∀ u, u ∈ Nx.nodes H → u ∈ Nx.nodes H') ∧
    (∀ u z, Py.getitem dist_H u = Some z → Py.getitem dist_H' u = Some z).
Proof.
  intros Hwf Ho Hcap.
  destruct (PipeFacts.subgrafo_parts G o cutoff cap Hwf Ho)
    as (dist & sel & dist_H & Hdist & Hsel & Hsub & -> & Hnd & _ & Hk & _).
  destruct (PipeFacts.subgrafo_parts G o cutoff cap' Hwf Ho)
    as (dist' & sel' & dist_H' & Hdist' & Hsel' & Hsub' & -> & _).
  rewrite Hdist in Hdist'. simplify_eq.
  assert (Hmono : ∀ u, u ∈ sel → u ∈ sel').
  { intros u Hu. pose proof (Hk u Hu) as Hkeys.
    rewrite AnimFacts.nodos_seleccionados_eq in Hsel, Hsel'. simplify_eq.
    destruct (decide (cap' < Z.of_nat (length (Py.keys dist'))));
      [|done].
    destruct (decide (cap < Z.of_nat (length (Py.keys dist')))); [|lia].
    unfold Py.slice_to in *.
    destruct (decide (0 ≤ cap)); [|lia].
    destruct (decide (0 ≤ cap')); [|lia].
    apply elem_of_take in Hu as (i & Hi & Hlt).
    apply elem_of_take. exists i. split; [done | lia]. }
  eexists _, _, _, _. split; [done|]. split; [done|]. split.
  - intros u. rewrite !AnimFacts.subgraph_nodes. naive_solver.
  - intros u z. rewrite !(getitem_filter_keys (λ u, u ∈ _)).
    destruct (decide (u ∈ sel)) as [Hu|]; [|done].
    by rewrite decide_True by auto.
Qed.

Lemma X11_subgraph_grows_with_cap_witness :
  Nx.wf_graph star = true ∧ Nx.contains star 0 = true ∧ 0 ≤ 2 ≤ 4 ∧
  ∃ H dist_H H' dist_H',
    Anim.subgrafo_por_grados star 0 6 2 = Some (H, dist_H) ∧
    Anim.subgrafo_por_grados star 0 6 4 = Some (H', dist_H') ∧
    (∀ u, u ∈ Nx.nodes H → u ∈ Nx.nodes H') ∧
    (∀ u z, Py.getitem dist_H u = Some z → Py.getitem dist_H' u = Some z).
Proof.
  split; [reflexivity|]. split; [reflexivity|]. split; [lia|].
  apply (X11_subgraph_grows_with_cap star 0 6 2 4);
    [reflexivity | reflexivity | lia].
Defined.

(** X12.  With a cutoff of 0 or less the search does not leave the origin:
    the result is the subgraph on the origin alone and the dictionary
    {origin: 0}. *)
Theorem X12_cutoff_not_positive G o cutoff max_nodos :
  Nx.contains G o = true → cutoff ≤ 0 → 1 ≤ max_nodos →
  Bfs.single_source_shortest_path_length G o cutoff = Some [(o, 0)] ∧
  Anim.subgrafo_por_grados G o cutoff max_nodos
  = Some (Nx.subgraph G [o], [(o, 0)]) ∧
  ∀ v, v ∈ Nx.nodes (Nx.subgraph G [o]) ↔ v = o.
Proof.
  intros Ho Hcut Hcap.
  assert (Hnodes : ∀ v, v ∈ Nx.nodes (Nx.subgraph G [o]) ↔ v = o).
  { intros v. rewrite AnimFacts.subgraph_nodes, list_elem_of_singleton.
    apply contains_nodes in Ho. naive_solver. }
  assert (Hdist : Bfs.single_source_shortest_path_length G o cutoff
                  = Some [(o, 0)]).
  { unfold Bfs.single_source_shortest_path_length. rewrite Ho.
    replace (Z.to_nat cutoff) with 0%nat by lia. reflexivity. }
  split; [done|]. split; [|done].
  unfold Anim.subgrafo_por_grados. rewrite Hdist. simpl.
  rewrite AnimFacts.nodos_seleccionados_eq. simpl.
  rewrite decide_False by lia. simpl. f_equal. f_equal.
  rewrite filter_cons, decide_True; [done|].
  apply contains_nodes, Hnodes. done.
Qed.

Lemma X12_cutoff_not_positive_witness :
  Nx.contains star 1 = true ∧ -2 ≤ 0 ∧ 1 ≤ 5 ∧
  Bfs.single_source_shortest_path_length star 1 (-2) = Some [(1, 0)] ∧
  Anim.subgrafo_por_grados star 1 (-2) 5
  = Some (Nx.subgraph star [1], [(1, 0)]) ∧
  ∀ v, v ∈ Nx.nodes (Nx.subgraph star [1]) ↔ v = 1.
Proof.
  split; [reflexivity|]. split; [lia|]. split; [lia|].
  apply (X12_cutoff_not_positive star 1 (-2) 5); [reflexivity | lia | lia].
Defined.

Lemma filter_all {A} (P : A → Prop) `{!∀ x, Decision (P x)} (l : list A) :
  (∀ x, x ∈ l → P x) → filter P l = l.
Proof.
  induction l as [|x l IH]; intros HP; [done|].
  rewrite filter_cons, decide_True by (apply HP; left).
  f_equal. apply IH. intros y Hy. apply HP. by right.
Qed.

(** X13.  When the nodes within [cutoff] hops fit the cap nothing is cut:
    the dictionary returned is the whole dictionary of the search, and the
    nodes of the subgraph are exactly the nodes within [cutoff] hops of the
    origin. *)
Theorem X13_no_truncation_keeps_every_reached_node G o cutoff max_nodos dist :
  Nx.wf_graph G = true → Nx.contains G o = true →
  Bfs.single_source_shortest_path_length G o cutoff = Some dist →
  Z.of_nat (length dist) ≤ max_nodos →
  ∃ H,
    Anim.subgrafo_por_grados G o cutoff max_nodos = Some (H, dist) ∧
    ∀ v, v ∈ Nx.nodes H ↔
         ∃ d, (d ≤ Z.to_nat cutoff)%nat ∧ Paths.hop_dist G o v d.
Proof.
  intros Hwf Ho Hdist Hfit.
  destruct (PipeFacts.subgrafo_parts G o cutoff max_nodos Hwf Ho)
    as (dist' & sel & dist_H & Hdist' & Hsel & Hsub & -> & Hnd & _ & Hk
        & Hin & Hiff).
  rewrite Hdist in Hdist'. simplify_eq.
  rewrite AnimFacts.nodos_seleccionados_eq in Hsel.
  unfold Py.keys in Hsel. rewrite length_fmap in Hsel.
  rewrite decide_False in Hsel by lia. simplify_eq.
  exists (Nx.subgraph G dist'.*1). split.
  - rewrite Hsub. f_equal. f_equal.
    apply filter_all. intros [u d] Hud.
    apply list_elem_of_fmap. by exists (u, d).
  - intros v. rewrite AnimFacts.subgraph_nodes. split.
    + intros [_ [z Hz]%getitem_is_Some].
      apply Hiff in Hz as (d & _ & ? & ?). eauto.
    + intros (d & Hd & Hhop).
      assert (Py.getitem dist' v = Some (Z.of_nat d)) as Hg
        by (apply Hiff; eauto).
      assert (v ∈ Py.keys dist') as Hv by (apply getitem_is_Some; eauto).
      split; [by apply Hin | done].
Qed.

Lemma X13_no_truncation_keeps_every_reached_node_witness :
  Nx.wf_graph star = true ∧ Nx.contains star 0 = true ∧
  Bfs.single_source_shortest_path_length star 0 1
    = Some [(0,0); (1,1); (2,1); (3,1)] ∧
  Z.of_nat (length [(0,0); (1,1); (2,1); (3,1)]) ≤ 10 ∧
  ∃ H,
    Anim.subgrafo_por_grados star 0 1 10
      = Some (H, [(0,0); (1,1); (2,1); (3,1)]) ∧
    ∀ v, v ∈ Nx.nodes H ↔
         ∃ d, (d ≤ Z.to_nat 1)%nat ∧ Paths.hop_dist star 0 v d.
Proof.
  split; [reflexivity|]. split; [reflexivity|]. split; [reflexivity|].
  split; [simpl; lia|].
  apply (X13_no_truncation_keeps_every_reached_node star 0 1 10
           [(0,0); (1,1); (2,1); (3,1)]);
    [reflexivity | reflexivity | reflexivity | simpl; lia].
Defined.

(* --------------------------------------------------------------------- *)
(** *** The order of the distance dictionary *)

Module OrderFacts.
Import Bfs.

(** The loop yields its pairs level after level. *)
Lemma levels_sorted G n k : ∀ seen nl lv out,
  levels G n k seen nl lv = Some out →
  StronglySorted (λ a b : Z * Z, a.2 ≤ b.2) out ∧
  Forall (λ a : Z * Z, lv < a.2) out.
Proof.
  induction k as [|k IH]; intros seen nl lv out; simpl.
  { destruct nl; intros ?; simplify_eq; split; constructor. }
  destruct nl as [|x xs]; [intros ?; simplify_eq; split; constructor|].
  destruct (scan_level G n seen (x :: xs)) as [[[s nl'] ret]|]; [simpl | done].
  assert (Hfirst : StronglySorted (λ a b : Z * Z, a.2 ≤ b.2)
                     ((λ w, (w, lv + 1)) <$> nl') ∧
                   Forall (λ a : Z * Z, a.2 = lv + 1)
                     ((λ w, (w, lv + 1)) <$> nl')).
  { clear. induction nl' as [|w nl' [IH1 IH2]]; simpl;
      [split; constructor|].
    split; [|by constructor]. constructor; [done|].
    eapply Forall_impl; [exact IH2|]. intros a Ha; simpl in *; lia. }
  destruct Hfirst as [Hs1 Hl1]. destruct ret.
  - intros ?; simplify_eq. split; [done|].
    eapply Forall_impl; [exact Hl1|]. intros a Ha; simpl in *; lia.
  - destruct (levels G n k s nl' (lv + 1)) as [rest|] eqn:Hrest;
      [simpl | done].
    intros ?; simplify_eq. apply IH in Hrest as [Hs2 Hl2]. split.
    + apply StronglySorted_app_2; [|done..].
      intros a b Ha Hb. rewrite Forall_forall in Hl1, Hl2.
      apply Hl1 in Ha. apply Hl2 in Hb. simpl in *. lia.
    + apply Forall_app. split.
      * eapply Forall_impl; [exact Hl1|]. intros a Ha; simpl in *; lia.
      * eapply Forall_impl; [exact Hl2|]. intros a Ha; simpl in *; lia.
Qed.

Lemma StronglySorted_filter {A} (R : relation A) (P : A → Prop)
    `{!∀ x, Decision (P x)} (l : list A) :
  StronglySorted R l → StronglySorted R (filter P l).
Proof.
  induction 1 as [|x l Hl IH Hx]; [constructor|].
  rewrite filter_cons. case_decide; [|done].
  constructor; [done|]. rewrite Forall_forall in Hx |- *.
  intros y [_ Hy]%list_elem_of_filter. auto.
Qed.

(** The dictionary of the search: the origin first, then the other nodes
    by level. *)
Lemma sssp_shape G o cutoff :
  Nx.wf_graph G = true → Nx.contains G o = true →
  ∃ rest,
    single_source_shortest_path_length G o cutoff = Some ((o, 0) :: rest) ∧
    StronglySorted (λ a b : Z * Z, a.2 ≤ b.2) ((o, 0) :: rest) ∧
    Forall (λ a : Z * Z, 0 < a.2) rest.
Proof.
  intros Hwf Ho. unfold single_source_shortest_path_length. rewrite Ho.
  pose proof (bfs_inv_init G o) as Hinv.
  replace ({[o]} : gset Z) with (list_to_set [o] : gset Z) in Hinv at 2
    by (simpl; apply (right_id_L ∅ (∪))).
  destruct (BfsFacts.levels_spec G o (Z.to_nat cutoff) 0 {[o]} [o] Hwf
              (proj1 (contains_nodes G o) Ho) Hinv)
    as (rest & Hrest & Hnd & Hfresh & _).
  change (Z.of_nat 0) with 0 in Hrest. rewrite Hrest. simpl.
  pose proof (levels_sorted _ _ _ _ _ _ _ Hrest) as [Hs Hl].
  assert (Hnd' : NoDup ((o, 0) :: rest).*1).
  { simpl. constructor; [|done]. intros Hin%Hfresh. set_solver. }
  exists rest. split; [by rewrite dict_of_items_NoDup|]. split; [|done].
  constructor; [done|]. eapply Forall_impl; [exact Hl|].
  intros a Ha; simpl in *; lia.
Qed.

(** With a cap of at least 1 the origin is selected. *)
Lemma origen_seleccionado G o cutoff max_nodos dist sel :
  Nx.wf_graph G = true → Nx.contains G o = true → 1 ≤ max_nodos →
  single_source_shortest_path_length G o cutoff = Some dist →
  Anim.nodos_seleccionados G dist max_nodos = Some sel →
  o ∈ sel.
Proof.
  intros Hwf Ho Hcap Hdist Hsel.
  destruct (BfsFacts.sssp_spec G o cutoff Hwf Ho) as (dist' & Hdist' & _ & Hiff).
  rewrite Hdist in Hdist'. simplify_eq.
  assert (Ho0 : Py.getitem dist' o = Some 0).
  { apply Hiff. exists 0%nat. split; [done|]. split; [lia|].
    by apply BfsFacts.hop_dist_zero. }
  assert (Hne : ∃ h, h ∈ sel).
  { pose proof Hsel as Hsel'.
    rewrite AnimFacts.nodos_seleccionados_eq in Hsel'. simplify_eq.
    case_decide as Hlt.
    - unfold Py.slice_to. destruct (decide (0 ≤ max_nodos)); [|lia].
      pose proof (Permutation_length (AnimFacts.ordenados_perm G dist')) as Hl.
      destruct (Seleccion.ordenados G dist') as [|h tl] eqn:Hord;
        [simpl in Hl; lia|].
      exists h.
      replace (Z.to_nat max_nodos) with (S (Z.to_nat (max_nodos - 1))) by lia.
      left.
    - exists o. apply getitem_is_Some. eauto. }
  destruct Hne as [h Hh].
  pose proof (AnimFacts.seleccion_keys _ _ _ _ _ Hsel Hh) as Hk.
  apply getitem_is_Some in Hk as [dh Hdh].
  pose proof Hdh as (d & -> & _ & Hd)%Hiff.
  destruct d as [|d].
  - apply BfsFacts.hop_dist_zero in Hd as ->. done.
  - apply (AnimFacts.seleccion_closed G dist' max_nodos sel h o _ 0
             Hsel Hdh Ho0 Hh). lia.
Qed.

End OrderFacts.

(** X14.  The dictionary that the search returns lists the origin first and
    the other nodes in order of distance, and so does the dictionary that
    [subgrafo_por_grados] returns when the cap is at least 1: cutting the
    node list never reorders the distances. *)
Theorem X14_distances_listed_in_order G o cutoff max_nodos :
  Nx.wf_graph G = true → Nx.contains G o = true → 1 ≤ max_nodos →
  ∃ rest H rest_H,
    Bfs.single_source_shortest_path_length G o cutoff
      = Some ((o, 0) :: rest) ∧
    Anim.subgrafo_por_grados G o cutoff max_nodos
      = Some (H, (o, 0) :: rest_H) ∧
    rest_H `sublist_of` rest ∧
    StronglySorted (λ a b : Z * Z, a.2 ≤ b.2) ((o, 0) :: rest) ∧
    StronglySorted (λ a b : Z * Z, a.2 ≤ b.2) ((o, 0) :: rest_H) ∧
    Forall (λ a : Z * Z, 0 < a.2) rest.
Proof.
  intros Hwf Ho Hcap.
  destruct (OrderFacts.sssp_shape G o cutoff Hwf Ho) as (rest & Hdist & Hs & Hpos).
  destruct (PipeFacts.subgrafo_parts G o cutoff max_nodos Hwf Ho)
    as (dist & sel & dist_H & Hdist' & Hsel & Hsub & -> & _).
  rewrite Hdist in Hdist'. simplify_eq.
  pose proof (OrderFacts.origen_seleccionado G o cutoff max_nodos _ sel
                Hwf Ho Hcap Hdist Hsel) as Hos.
  rewrite filter_cons, decide_True in Hsub by done.
  eexists rest, _, _. split; [done|]. split; [done|].
  split; [apply sublist_filter|]. split; [done|]. split; [|done].
  apply StronglySorted_cons in Hs as [Hall Hs].
  constructor; [by apply OrderFacts.StronglySorted_filter|].
  rewrite Forall_forall in Hall |- *.
  intros y [_ Hy]%list_elem_of_filter. auto.
Qed.

Lemma X14_distances_listed_in_order_witness :
  Nx.wf_graph star' = true ∧ Nx.contains star' 0 = true ∧ 1 ≤ 3 ∧
  ∃ rest H rest_H,
    Bfs.single_source_shortest_path_length star' 0 6
      = Some ((0, 0) :: rest) ∧
    Anim.subgrafo_por_grados star' 0 6 3 = Some (H, (0, 0) :: rest_H) ∧
    rest_H `sublist_of` rest ∧
    StronglySorted (λ a b : Z * Z, a.2 ≤ b.2) ((0, 0) :: rest) ∧
    StronglySorted (λ a b : Z * Z, a.2 ≤ b.2) ((0, 0) :: rest_H) ∧
    Forall (λ a : Z * Z, 0 < a.2) rest.
Proof.
  split; [reflexivity|]. split; [reflexivity|]. split; [lia|].
  apply (X14_distances_listed_in_order star' 0 6 3);
    [reflexivity | reflexivity | lia].
Defined.

(* --------------------------------------------------------------------- *)
(** *** The frames of the animation *)

Module FrameFacts.
Import Anim.

Lemma frontera_layer capas (t : nat) :
  frontera capas (Z.of_nat t) = LayerIndex.layer capas t.
Proof.
  unfold frontera, LayerIndex.layer. case_decide as Ht.
  - by rewrite Nat2Z.id.
  - rewrite lookup_ge_None_2; [done | lia].
Qed.

Lemma frontera_negative capas t : t < 0 → frontera capas t = ∅.
Proof. intros Ht. unfold frontera. rewrite decide_False; [done | lia]. Qed.

Lemma elem_descubiertos capas (t : nat) u :
  u ∈ descubiertos capas (Z.of_nat t) ↔
  ∃ i, (i ≤ t)%nat ∧ u ∈ LayerIndex.layer capas i.
Proof.
  rewrite CapasFacts.descubiertos_take, elem_of_union_list.
  unfold LayerIndex.layer. split.
  - intros (X & [i Hi]%list_elem_of_lookup & Hu).
    apply lookup_take_Some in Hi as [Hi Hlt].
    exists i. split; [lia|]. by rewrite Hi.
  - intros (i & Hi & Hu). destruct (capas !! i) as [X|] eqn:HX;
      simpl in Hu; [|set_solver].
    exists X. split; [|done]. apply list_elem_of_lookup. exists i.
    apply lookup_take_Some. split; [done | lia].
Qed.

(** In the layers built from a dictionary, the nodes discovered at frame
    [t] are those whose distance is between 0 and min(t, max_grados). *)
Lemma elem_descubiertos_capas dist mg (t : nat) u :
  NoDup (Py.keys dist) →
  u ∈ descubiertos (construir_capas dist mg) (Z.of_nat t) ↔
  ∃ d, Py.getitem dist u = Some d ∧ 0 ≤ d ≤ Z.of_nat t ∧ d ≤ mg.
Proof.
  intros Hnd. rewrite elem_descubiertos. unfold LayerIndex.layer. split.
  - intros (i & Hi & [Hu Hmg]%CapasFacts.construir_capas_lookup).
    exists (Z.of_nat i). split; [by apply elem_getitem|]. lia.
  - intros (d & Hd & Hr & Hmg). exists (Z.to_nat d). split; [lia|].
    apply CapasFacts.construir_capas_lookup. rewrite Z2Nat.id by lia.
    split; [by apply getitem_Some_elem | done].
Qed.

Lemma elem_frontera_capas dist mg (t : nat) u :
  NoDup (Py.keys dist) →
  u ∈ frontera (construir_capas dist mg) (Z.of_nat t) ↔
  Py.getitem dist u = Some (Z.of_nat t) ∧ Z.of_nat t ≤ mg.
Proof.
  intros Hnd. rewrite CapasFacts.frontera_elem by lia.
  by rewrite getitem_elem_iff.
Qed.

End FrameFacts.

(** X15.  [construir_capas] returns max_grados + 1 layers (none when
    [max_grados] is negative); layer [i] holds exactly the keys whose value
    is [i], so a key whose value is negative or above [max_grados] is in no
    layer, and no key is in two layers. *)
Theorem X15_construir_capas_layers dist max_grados :
  NoDup (Py.keys dist) →
  length (Anim.construir_capas dist max_grados) = Z.to_nat (max_grados + 1) ∧
  (∀ i v, v ∈ LayerIndex.layer (Anim.construir_capas dist max_grados) i ↔
          Py.getitem dist v = Some (Z.of_nat i) ∧ Z.of_nat i ≤ max_grados) ∧
  (∀ v z, Py.getitem dist v = Some z → z < 0 ∨ max_grados < z →
          ∀ i, v ∉ LayerIndex.layer (Anim.construir_capas dist max_grados) i) ∧
  (∀ i j v, v ∈ LayerIndex.layer (Anim.construir_capas dist max_grados) i →
            v ∈ LayerIndex.layer (Anim.construir_capas dist max_grados) j →
            i = j).
Proof.
  intros Hnd.
  assert (Hl : ∀ i v,
            v ∈ LayerIndex.layer (Anim.construir_capas dist max_grados) i ↔
            Py.getitem dist v = Some (Z.of_nat i) ∧ Z.of_nat i ≤ max_grados).
  { intros i v. unfold LayerIndex.layer.
    by rewrite CapasFacts.construir_capas_lookup, getitem_elem_iff. }
  split; [apply CapasFacts.construir_capas_length|]. split; [done|]. split.
  - intros v z Hz Hout i [Hi Hle]%Hl. rewrite Hz in Hi. simplify_eq. lia.
  - intros i j v [Hi _]%Hl [Hj _]%Hl. rewrite Hi in Hj. simplify_eq. lia.
Qed.

Lemma X15_construir_capas_layers_witness :
  NoDup (Py.keys [(0, 0); (7, 1); (5, -1); (9, 4)]) ∧
  length (Anim.construir_capas [(0, 0); (7, 1); (5, -1); (9, 4)] 2)
    = Z.to_nat (2 + 1) ∧
  (∀ v z, Py.getitem [(0, 0); (7, 1); (5, -1); (9, 4)] v = Some z →
          z < 0 ∨ 2 < z →
          ∀ i, v ∉ LayerIndex.layer
                     (Anim.construir_capas [(0, 0); (7, 1); (5, -1); (9, 4)] 2)
                     i).
Proof.
  assert (Hnd : NoDup (Py.keys [(0, 0); (7, 1); (5, -1); (9, 4)])).
  { apply (bool_decide_unpack _). vm_compute. exact I. }
  split; [exact Hnd|].
  destruct (X15_construir_capas_layers [(0, 0); (7, 1); (5, -1); (9, 4)] 2 Hnd)
    as (H1 & _ & H3 & _).
  split; [exact H1 | exact H3].
Defined.

(** X16.  In [dibujar_frame], for frames 0 <= t <= t' and any list of
    layers: the discovered set only grows from frame [t] to frame [t'],
    the frontier of a frame is part of its discovered set, and from the
    index of the last layer on the discovered set is the union of all the
    layers. *)
Theorem X16_descubiertos_grows (capas : list (gset Z)) (t t' : nat) :
  (t ≤ t')%nat →
  Anim.descubiertos capas (Z.of_nat t)
    ⊆ Anim.descubiertos capas (Z.of_nat t') ∧
  Anim.frontera capas (Z.of_nat t) ⊆ Anim.descubiertos capas (Z.of_nat t) ∧
  ((length capas ≤ S t)%nat →
     Anim.descubiertos capas (Z.of_nat t) = ⋃ capas).
Proof.
  intros Hle. split; [|split].
  - intros u (i & Hi & Hu)%FrameFacts.elem_descubiertos.
    apply FrameFacts.elem_descubiertos. exists i. split; [lia | done].
  - intros u Hu. rewrite FrameFacts.frontera_layer in Hu.
    apply FrameFacts.elem_descubiertos. eauto.
  - intros Hlen. rewrite CapasFacts.descubiertos_take.
    by rewrite take_ge by lia.
Qed.

Lemma X16_descubiertos_grows_witness :
  (1 ≤ 2)%nat ∧
  Anim.descubiertos [{[0]}; {[1; 2; 3]}; {[4]}] (Z.of_nat 1)
    ⊆ Anim.descubiertos [{[0]}; {[1; 2; 3]}; {[4]}] (Z.of_nat 2).
Proof.
  split; [lia|].
  apply (X16_descubiertos_grows [{[0]}; {[1; 2; 3]}; {[4]}] 1 2). lia.
Defined.

(** X17.  For the layers built from a dictionary, the frontier of frame
    [t >= 1] is what the discovered set gained since frame [t - 1], and at
    frame 0 the frontier is the whole discovered set. *)
Theorem X17_frontier_is_what_was_gained dist max_grados (t : nat) :
  NoDup (Py.keys dist) →
  Anim.frontera (Anim.construir_capas dist max_grados) 0
  = Anim.descubiertos (Anim.construir_capas dist max_grados) 0 ∧
  Anim.frontera (Anim.construir_capas dist max_grados) (Z.of_nat (S t))
  = Anim.descubiertos (Anim.construir_capas dist max_grados) (Z.of_nat (S t))
    ∖ Anim.descubiertos (Anim.construir_capas dist max_grados) (Z.of_nat t).
Proof.
  intros Hnd. split.
  - apply set_eq. intros u.
    rewrite (FrameFacts.elem_frontera_capas dist max_grados 0 u Hnd).
    rewrite (FrameFacts.elem_descubiertos_capas dist max_grados 0 u Hnd).
    split.
    + intros [Hd Hmg]. exists 0. split; [done | lia].
    + intros (d & Hd & Hr & Hmg). assert (d = 0) as -> by lia.
      split; [done | lia].
  - apply set_eq. intros u. rewrite elem_of_difference.
    rewrite (FrameFacts.elem_frontera_capas dist max_grados (S t) u Hnd).
    rewrite !(FrameFacts.elem_descubiertos_capas dist max_grados _ u Hnd).
    split.
    + intros [Hd Hmg]. split; [exists (Z.of_nat (S t)); split; [done | lia]|].
      intros (d & Hd' & Hr & _). rewrite Hd in Hd'. simplify_eq. lia.
    + intros [(d & Hd & Hr & Hmg) Hnot].
      destruct (decide (d = Z.of_nat (S t))) as [->|Hne]; [done|].
      destruct Hnot. exists d. split; [done | lia].
Qed.

Lemma X17_frontier_is_what_was_gained_witness :
  NoDup (Py.keys [(0,0); (1,1); (2,1); (3,1); (4,2)]) ∧
  Anim.frontera (Anim.construir_capas [(0,0); (1,1); (2,1); (3,1); (4,2)] 6) 0
  = Anim.descubiertos
      (Anim.construir_capas [(0,0); (1,1); (2,1); (3,1); (4,2)] 6) 0 ∧
  Anim.frontera (Anim.construir_capas [(0,0); (1,1); (2,1); (3,1); (4,2)] 6)
    (Z.of_nat (S 1))
  = Anim.descubiertos
      (Anim.construir_capas [(0,0); (1,1); (2,1); (3,1); (4,2)] 6)
      (Z.of_nat (S 1))
    ∖ Anim.descubiertos
        (Anim.construir_capas [(0,0); (1,1); (2,1); (3,1); (4,2)] 6)
        (Z.of_nat 1).
Proof.
  assert (Hnd : NoDup (Py.keys [(0,0); (1,1); (2,1); (3,1); (4,2)])).
  { apply (bool_decide_unpack _). vm_compute. exact I. }
  split; [exact Hnd|].
  apply (X17_frontier_is_what_was_gained
           [(0,0); (1,1); (2,1); (3,1); (4,2)] 6 1 Hnd).
Defined.

(** X18.  In a frame drawn from the layers of a dictionary, the colour and
    size of a node tell its distance: orange and 70 when the distance is
    the frame number, blue and 30 when it is smaller, grey and 5 when it is
    larger, beyond [max_grados], negative or unknown.  The lists of
    colours and sizes are aligned with the node list. *)
Theorem X18_colour_tells_distance
    dist max_grados nodos_todos edges_todos grados_total (t : nat) f :
  NoDup (Py.keys dist) →
  Frame.dibujar_frame (Anim.construir_capas dist max_grados) nodos_todos
    edges_todos grados_total (Z.of_nat t) = Some f →
  length (Frame.colores f) = length nodos_todos ∧
  length (Frame.tama f) = length nodos_todos ∧
  ∀ i u, nodos_todos !! i = Some u →
    ∃ c s, Frame.colores f !! i = Some c ∧ Frame.tama f !! i = Some s ∧
      (c, s) = match Py.getitem dist u with
               | Some d =>
                   if decide (d = Z.of_nat t ∧ d ≤ max_grados)
                   then (Frame.COLOR_FRONTERA, 70)
                   else if decide (0 ≤ d < Z.of_nat t ∧ d ≤ max_grados)
                        then (Frame.COLOR_DESCUBIERTO, 30)
                        else (Frame.COLOR_OCULTO, 5)
               | None => (Frame.COLOR_OCULTO, 5)
               end.
Proof.
  intros Hnd. unfold Frame.dibujar_frame.
  destruct grados_total as [|n]; [done|]. intros ?; simplify_eq. simpl.
  rewrite !length_fmap. split; [done|]. split; [done|].
  intros i u Hu. rewrite !list_lookup_fmap, Hu. simpl.
  eexists _, _. split; [done|]. split; [done|].
  rewrite <- surjective_pairing. unfold Frame.pintar.
  pose proof (FrameFacts.elem_frontera_capas dist max_grados t u Hnd) as Hfro.
  pose proof (FrameFacts.elem_descubiertos_capas dist max_grados t u Hnd)
    as Hdesc.
  destruct (Py.getitem dist u) as [d|] eqn:Hd.
  - destruct (decide (d = Z.of_nat t ∧ d ≤ max_grados)) as [[-> Hmg]|Hn1].
    + rewrite decide_True; [done|]. apply Hfro. done.
    + rewrite decide_False.
      2:{ intros [? ?]%Hfro. simplify_eq. tauto. }
      destruct (decide (0 ≤ d < Z.of_nat t ∧ d ≤ max_grados)) as [Hr|Hn2].
      * rewrite decide_True; [done|]. apply Hdesc. exists d.
        split; [done | lia].
      * rewrite decide_False; [done|].
        intros (d' & ? & ? & ?)%Hdesc. simplify_eq.
        destruct (decide (d' = Z.of_nat t)) as [->|]; [tauto | lia].
  - rewrite decide_False by (intros [? _]%Hfro; done).
    rewrite decide_False by (intros (? & ? & _)%Hdesc; done). done.
Qed.

Lemma X18_colour_tells_distance_witness :
  NoDup (Py.keys [(0,0); (1,1); (2,1); (3,1); (4,2)]) ∧
  ∃ f,
    Frame.dibujar_frame
      (Anim.construir_capas [(0,0); (1,1); (2,1); (3,1); (4,2)] 6)
      [0; 1; 4] [(0, 1); (1, 4)] 3 (Z.of_nat 1) = Some f ∧
    length (Frame.colores f) = length [0; 1; 4] ∧
    length (Frame.tama f) = length [0; 1; 4].
Proof.
  assert (Hnd : NoDup (Py.keys [(0,0); (1,1); (2,1); (3,1); (4,2)])).
  { apply (bool_decide_unpack _). vm_compute. exact I. }
  split; [exact Hnd|]. eexists. split; [reflexivity|].
  pose proof (X18_colour_tells_distance
                [(0,0); (1,1); (2,1); (3,1); (4,2)] 6 [0; 1; 4]
                [(0, 1); (1, 4)] 3 1 _ Hnd eq_refl) as (H1 & H2 & _).
  split; [exact H1 | exact H2].
Defined.

Lemma frames_lookup max_grados (i : nat) :
  (i < Z.to_nat (max_grados + 1))%nat →
  Frame.frames max_grados !! i = Some (Z.of_nat i).
Proof.
  intros Hi. unfold Frame.frames. rewrite list_lookup_fmap.
  by rewrite lookup_seq_lt.
Qed.

Lemma frames_length max_grados :
  length (Frame.frames max_grados) = Z.to_nat (max_grados + 1).
Proof. unfold Frame.frames. by rewrite length_fmap, length_seq. Qed.

(** X19.  With a valid origin, [max_grados >= 0] and a cap of at least 1,
    the animation has max_grados + 1 frames and none of them divides by
    zero; the first frame shows the origin alone, as discovered and as
    frontier; in the last frame every node of the subgraph is discovered,
    the count is the number of nodes drawn (100%), and no node is grey. *)
Theorem X19_animation_ends_fully_discovered G o rnd max_grados max_nodos :
  Nx.wf_graph G = true → Nx.contains G o = true →
  0 ≤ max_grados → 1 ≤ max_nodos →
  ∃ H fs,
    Frame.animar G (Some o) rnd max_grados max_nodos = Some (o, H, fs) ∧
    length fs = Z.to_nat (max_grados + 1) ∧
    (∀ i, (i < length fs)%nat → ∃ f, fs !! i = Some (Some f)) ∧
    (∃ f0, fs !! 0%nat = Some (Some f0) ∧
       Frame.frontera f0 = {[o]} ∧ Frame.descubiertos f0 = {[o]} ∧
       Frame.alcanzados f0 = 1%nat) ∧
    (∃ fl, fs !! Z.to_nat max_grados = Some (Some fl) ∧
       Frame.descubiertos fl = list_to_set (Nx.nodes H) ∧
       Frame.alcanzados fl = Nx.number_of_nodes H ∧
       (Frame.porcentaje fl == 100)%Q ∧
       ∀ c, c ∈ Frame.colores fl → c ≠ Frame.COLOR_OCULTO).
Proof.
  intros Hwf Ho Hmg Hcap.
  destruct (PipeFacts.subgrafo_parts G o max_grados max_nodos Hwf Ho)
    as (dist & sel & dist_H & Hdist & Hsel & Hsub & HdH & Hnd & Hnds & Hk
        & Hin & Hiff).
  pose proof (OrderFacts.origen_seleccionado G o max_grados max_nodos dist sel
                Hwf Ho Hcap Hdist Hsel) as Hos.
  set (H := Nx.subgraph G sel) in *.
  set (capas := Anim.construir_capas dist_H max_grados).
  assert (HndH : NoDup (Py.keys dist_H)).
  { rewrite HdH, (keys_filter_keys (λ u, u ∈ sel)). by apply NoDup_filter. }
  assert (HgH : ∀ v z, Py.getitem dist_H v = Some z ↔
                       v ∈ sel ∧ Py.getitem dist v = Some z).
  { intros v z. rewrite HdH, (getitem_filter_keys (λ u, u ∈ sel)).
    case_decide; naive_solver. }
  assert (HnodesH : ∀ v, v ∈ Nx.nodes H ↔ v ∈ sel).
  { intros v. unfold H. rewrite AnimFacts.subgraph_nodes. naive_solver. }
  assert (HNoDupH : NoDup (Nx.nodes H)).
  { apply wf_NoDup_nodes. by apply SubFacts.wf_subgraph. }
  assert (Hn : ∃ n, Nx.number_of_nodes H = S n).
  { assert (o ∈ Nx.nodes H) as HoH by (by apply HnodesH).
    unfold Nx.number_of_nodes, Nx.nodes in *.
    destruct H as [|x H']; [by apply elem_of_nil in HoH | by eexists]. }
  destruct Hn as [n Hn].
  assert (Hanim : Frame.animar G (Some o) rnd max_grados max_nodos
                  = Some (o, H,
                          Frame.dibujar_frame capas (Nx.nodes H)
                            (NxViews.edges H) (Nx.number_of_nodes H)
                          <$> Frame.frames max_grados)).
  { unfold Frame.animar, Anim.animar, Anim.elegir_origen. rewrite Ho.
    simpl. rewrite Hsub. done. }
  assert (Hframe : ∀ i, (i < Z.to_nat (max_grados + 1))%nat →
            (Frame.dibujar_frame capas (Nx.nodes H) (NxViews.edges H)
               (Nx.number_of_nodes H) <$> Frame.frames max_grados) !! i
            = Some (Frame.dibujar_frame capas (Nx.nodes H) (NxViews.edges H)
                      (Nx.number_of_nodes H) (Z.of_nat i))).
  { intros i Hi. by rewrite list_lookup_fmap, frames_lookup. }
  assert (Hdist0 : ∀ u, Py.getitem dist_H u = Some 0 ↔ u = o).
  { intros u. rewrite HgH. split.
    - intros [_ Hd]. apply Hiff in Hd as (d' & Hd' & _ & Hhop).
      assert (d' = 0%nat) as -> by lia.
      by apply BfsFacts.hop_dist_zero in Hhop.
    - intros ->. split; [done|]. apply Hiff. exists 0%nat.
      split; [done|]. split; [lia|]. by apply BfsFacts.hop_dist_zero. }
  assert (Hdesc0 : Anim.descubiertos capas 0 = {[o]}).
  { apply set_eq. intros u. rewrite elem_of_singleton, <- Hdist0.
    etrans;
      [apply (FrameFacts.elem_descubiertos_capas dist_H max_grados 0 u HndH)|].
    split.
    - intros (d & Hd & Hr & _). by assert (d = 0) as <- by lia.
    - intros Hd. exists 0. split; [done | lia]. }
  assert (Hfro0 : Anim.frontera capas 0 = {[o]}).
  { apply set_eq. intros u. rewrite elem_of_singleton, <- Hdist0.
    etrans;
      [apply (FrameFacts.elem_frontera_capas dist_H max_grados 0 u HndH)|].
    split; [by intros [? _] | intros ?; split; [done | lia]]. }
  assert (Hdescl : Anim.descubiertos capas max_grados
                   = list_to_set (Nx.nodes H)).
  { apply set_eq. intros u. rewrite elem_of_list_to_set, HnodesH.
    pose proof (FrameFacts.elem_descubiertos_capas dist_H max_grados
                  (Z.to_nat max_grados) u HndH) as Hd.
    rewrite Z2Nat.id in Hd by done. fold capas in Hd. rewrite Hd. split.
    - intros (d & [? _]%HgH & _). done.
    - intros Hu. pose proof (Hk u Hu) as [z Hz]%getitem_is_Some.
      exists z. split; [by apply HgH|].
      apply Hiff in Hz as (d & -> & Hdle & _). lia. }
  exists H, (Frame.dibujar_frame capas (Nx.nodes H) (NxViews.edges H)
               (Nx.number_of_nodes H) <$> Frame.frames max_grados).
  split; [done|]. rewrite length_fmap, frames_length. split; [done|].
  split; [|split].
  - intros i Hi. rewrite (Hframe i Hi). unfold Frame.dibujar_frame.
    rewrite Hn. eauto.
  - rewrite (Hframe 0%nat) by lia. change (Z.of_nat 0) with 0.
    unfold Frame.dibujar_frame. rewrite Hn, Hdesc0, Hfro0.
    eexists. split; [done|].
    cbn [Frame.frontera Frame.descubiertos Frame.alcanzados].
    split; [done|]. split; [done|]. apply size_singleton.
  - rewrite (Hframe (Z.to_nat max_grados)) by lia.
    rewrite Z2Nat.id by done. unfold Frame.dibujar_frame.
    rewrite Hn, Hdescl.
    eexists. split; [done|].
    cbn [Frame.descubiertos Frame.alcanzados Frame.porcentaje Frame.colores].
    assert (Hsize : size (list_to_set (Nx.nodes H) : gset Z) = S n).
    { rewrite size_list_to_set by done. rewrite <- Hn.
      unfold Nx.number_of_nodes, Nx.nodes. by rewrite length_fmap. }
    split; [done|]. split; [done|]. split.
    + rewrite Hsize. unfold Qeq. cbn [Qnum Qden].
      assert (Z.pos (Pos.of_nat (S n)) = Z.of_nat (S n)) as ->.
      { rewrite <- positive_nat_Z, Nat2Pos.id; done. }
      lia.
    + intros c (p & -> & (u & -> & Hu)%list_elem_of_fmap)%list_elem_of_fmap.
      unfold Frame.pintar. repeat case_decide; [done | done |].
      exfalso. match goal with Hx : _ ∉ list_to_set _ |- _ => apply Hx end.
      by apply elem_of_list_to_set.
Qed.

Lemma X19_animation_ends_fully_discovered_witness :
  Nx.wf_graph star = true ∧ Nx.contains star 0 = true ∧ 0 ≤ 6 ∧ 1 ≤ 3 ∧
  ∃ H fs,
    Frame.animar star (Some 0) 0 6 3 = Some (0, H, fs) ∧
    length fs = Z.to_nat (6 + 1) ∧
    (∀ i, (i < length fs)%nat → ∃ f, fs !! i = Some (Some f)).
Proof.
  split; [reflexivity|]. split; [reflexivity|]. split; [lia|]. split; [lia|].
  destruct (X19_animation_ends_fully_discovered star 0 0%nat 6 3)
    as (H & fs & H1 & H2 & H3 & _); [reflexivity | reflexivity | lia | lia |].
  exists H, fs. split; [exact H1|]. split; [exact H2 | exact H3].
Defined.



(* --------------------------------------------------------------------- *)
(** *** The edge list and the visible edges *)

Module EdgeFacts.
Import NxViews.

Lemma edges_from_elem G : ∀ seen x y,
  (x, y) ∈ edges_from seen G →
  (∃ nb, (x, nb) ∈ G ∧ y ∈ nb) ∧ y ∉ seen.
Proof.
  induction G as [|[k nb] G IH]; intros seen x y; simpl.
  - intros ?%elem_of_nil. done.
  - intros [Hin|Hin]%elem_of_app.
    + apply list_elem_of_fmap in Hin as (z & ? & [Hz Hnb]%list_elem_of_filter).
      simplify_eq. split; [|done]. exists nb. split; [left | done].
    + apply IH in Hin as [(nb' & Hnb' & Hy) Hs]. split; [|set_solver].
      exists nb'. split; [by right | done].
Qed.

Lemma edges_from_complete G : ∀ seen x y nbx nby,
  NoDup G.*1 →
  (x, nbx) ∈ G → y ∈ nbx → (y, nby) ∈ G → x ∈ nby →
  x ∉ seen → y ∉ seen →
  (x, y) ∈ edges_from seen G ∨ (y, x) ∈ edges_from seen G.
Proof.
  induction G as [|[k nb] G IH]; intros seen x y nbx nby; simpl.
  - intros _ ?%elem_of_nil. done.
  - intros [Hk Hnd]%NoDup_cons Hx Hy Hy' Hx' Hsx Hsy.
    assert (Hfresh : ∀ nb', (k, nb') ∈ G → False).
    { intros nb' Hin. apply Hk, list_elem_of_fmap. by exists (k, nb'). }
    apply elem_of_cons in Hx as [Hx|Hx]; simplify_eq.
    { left. apply elem_of_app. left. apply list_elem_of_fmap.
      exists y. split; [done|]. by apply list_elem_of_filter. }
    apply elem_of_cons in Hy' as [Hy'|Hy']; simplify_eq.
    { right. apply elem_of_app. left. apply list_elem_of_fmap.
      exists x. split; [done|]. by apply list_elem_of_filter. }
    assert (k ≠ x) by (intros ->; eauto).
    assert (k ≠ y) by (intros ->; eauto).
    destruct (IH ({[k]} ∪ seen) x y nbx nby) as [?|?]; try done;
      [set_solver | set_solver | left | right];
      apply elem_of_app; by right.
Qed.

Lemma edges_from_NoDup G : ∀ seen,
  NoDup G.*1 → (∀ k nb, (k, nb) ∈ G → NoDup nb) →
  NoDup (edges_from seen G).
Proof.
  induction G as [|[k nb] G IH]; intros seen; simpl; [constructor|].
  intros [Hk Hnd]%NoDup_cons Hnb. apply NoDup_app. split; [|split].
  - apply NoDup_fmap_2; [by intros ? ? [= ->]|].
    apply NoDup_filter, (Hnb k). left.
  - intros [x y] (z & ? & _)%list_elem_of_fmap Hin. simplify_eq.
    apply edges_from_elem in Hin as [(nb' & Hnb' & _) _].
    apply Hk, list_elem_of_fmap. by exists (k, nb').
  - apply IH; [done|]. intros k' nb' Hin. apply (Hnb k'). by right.
Qed.

Lemma edges_from_once G : ∀ seen x y,
  NoDup G.*1 → x ≠ y →
  (x, y) ∈ edges_from seen G → (y, x) ∈ edges_from seen G → False.
Proof.
  induction G as [|[k nb] G IH]; intros seen x y; simpl.
  - intros _ _ ?%elem_of_nil. done.
  - intros [Hk Hnd]%NoDup_cons Hxy [H1|H1]%elem_of_app [H2|H2]%elem_of_app.
    + apply list_elem_of_fmap in H1 as (? & ? & _).
      apply list_elem_of_fmap in H2 as (? & ? & _). simplify_eq.
    + apply list_elem_of_fmap in H1 as (? & ? & _). simplify_eq.
      apply edges_from_elem in H2 as [_ Hs]. set_solver.
    + apply list_elem_of_fmap in H2 as (? & ? & _). simplify_eq.
      apply edges_from_elem in H1 as [_ Hs]. set_solver.
    + eapply IH; eauto.
Qed.

Lemma sublist_filter_impl {A} (P Q : A → Prop)
    `{!∀ x, Decision (P x)} `{!∀ x, Decision (Q x)} (l : list A) :
  (∀ x, P x → Q x) → filter P l `sublist_of` filter Q l.
Proof.
  intros HPQ. induction l as [|x l IH]; [done|].
  rewrite !filter_cons. destruct (decide (P x)) as [HP|HP].
  - rewrite decide_True by auto. by constructor.
  - case_decide; [by constructor | done].
Qed.

End EdgeFacts.

(** X21.  On a well-formed undirected graph, the edge list holds every
    edge exactly once: it has no repetition, each of its pairs joins two
    neighbours, every pair of neighbours is in it in one direction, and
    never in both unless it is a self loop. *)
Theorem X21_edges_lists_each_edge_once G :
  Nx.wf_graph G = true →
  (∀ u v, Paths.edge G u v → Paths.edge G v u) →
  NoDup (NxViews.edges G) ∧
  (∀ u v, (u, v) ∈ NxViews.edges G → Paths.edge G u v) ∧
  (∀ u v, Paths.edge G u v →
          (u, v) ∈ NxViews.edges G ∨ (v, u) ∈ NxViews.edges G) ∧
  (∀ u v, u ≠ v → (u, v) ∈ NxViews.edges G → (v, u) ∉ NxViews.edges G).
Proof.
  intros Hwf Hsym.
  pose proof (proj1 (NxFacts.wf_graph_iff G) Hwf) as [Hnd Hall].
  unfold NxViews.edges. split; [|split; [|split]].
  - apply EdgeFacts.edges_from_NoDup; [done|]. intros k nb Hin.
    by apply (NxFacts.elem_adj _ _ _ Hnd), Hall in Hin as [? _].
  - intros u v [(nb & Hnb & Hv) _]%EdgeFacts.edges_from_elem.
    exists nb. split; [by apply NxFacts.elem_adj | done].
  - intros u v Huv. pose proof (Hsym _ _ Huv) as (nbv & Hnbv & Hu).
    destruct Huv as (nbu & Hnbu & Hv).
    apply (EdgeFacts.edges_from_complete G ∅ u v nbu nbv);
      [done | by apply adj_Some_elem | done | by apply adj_Some_elem
      | done | set_solver | set_solver].
  - intros u v Hne H1 H2. eapply EdgeFacts.edges_from_once; eauto.
Qed.

Lemma X21_edges_lists_each_edge_once_witness :
  Nx.wf_graph star = true ∧
  (∀ u v, Paths.edge star u v → Paths.edge star v u) ∧
  NoDup (NxViews.edges star) ∧
  (∀ u v, (u, v) ∈ NxViews.edges star → Paths.edge star u v) ∧
  (∀ u v, Paths.edge star u v →
          (u, v) ∈ NxViews.edges star ∨ (v, u) ∈ NxViews.edges star) ∧
  (∀ u v, u ≠ v → (u, v) ∈ NxViews.edges star →
          (v, u) ∉ NxViews.edges star).
Proof.
  assert (Hsym : ∀ u v, Paths.edge star u v → Paths.edge star v u).
  { intros u v. unfold star, Nx.from_edgelist.
    rewrite !NxFacts.foldl_add_edge_edge. unfold Paths.edge. simpl.
    naive_solver. }
  split; [reflexivity|]. split; [exact Hsym|].
  apply (X21_edges_lists_each_edge_once star); [reflexivity | exact Hsym].
Defined.

(** X22.  Edges only appear as the animation advances: for frames
    t <= t' over the same layers and edge list, the visible edges of frame
    [t] are a sublist of those of frame [t'], which are a sublist of the
    edge list; both ends of a visible edge are discovered; and once every
    layer is included, all edges between nodes of the layers are visible. *)
Theorem X22_visible_edges_grow
    capas nodos_todos edges_todos grados_total (t t' : nat) f f' :
  (t ≤ t')%nat →
  Frame.dibujar_frame capas nodos_todos edges_todos grados_total (Z.of_nat t)
    = Some f →
  Frame.dibujar_frame capas nodos_todos edges_todos grados_total (Z.of_nat t')
    = Some f' →
  Frame.edges_visibles f `sublist_of` Frame.edges_visibles f' ∧
  Frame.edges_visibles f' `sublist_of` edges_todos ∧
  (∀ u v, (u, v) ∈ Frame.edges_visibles f →
          u ∈ Frame.descubiertos f ∧ v ∈ Frame.descubiertos f) ∧
  ((length capas ≤ S t')%nat →
   (∀ u v, (u, v) ∈ edges_todos → u ∈ ⋃ capas ∧ v ∈ ⋃ capas) →
   Frame.edges_visibles f' = edges_todos).
Proof.
  intros Hle. unfold Frame.dibujar_frame.
  destruct grados_total as [|n]; [done|].
  intros ? ?; simplify_eq.
  cbn [Frame.edges_visibles Frame.descubiertos]. unfold Frame.visibles.
  assert (Hmono : Anim.descubiertos capas (Z.of_nat t)
                  ⊆ Anim.descubiertos capas (Z.of_nat t')).
  { intros u (i & Hi & Hu)%FrameFacts.elem_descubiertos.
    apply FrameFacts.elem_descubiertos. exists i. split; [lia | done]. }
  split; [|split; [|split]].
  - apply EdgeFacts.sublist_filter_impl. intros [u v] [? ?]. split; auto.
  - apply sublist_filter.
  - intros u v [[? ?] _]%list_elem_of_filter. done.
  - intros Hlen Hall. apply filter_all. intros [u v] Hin.
    rewrite CapasFacts.descubiertos_take, take_ge by lia.
    by apply Hall.
Qed.

Lemma X22_visible_edges_grow_witness :
  (1 ≤ 2)%nat ∧
  ∃ f f',
    Frame.dibujar_frame [{[0]}; {[1; 2; 3]}; {[4]}] [0; 1; 2; 3; 4]
      [(0,1); (0,2); (0,3); (1,4)] 5 (Z.of_nat 1) = Some f ∧
    Frame.dibujar_frame [{[0]}; {[1; 2; 3]}; {[4]}] [0; 1; 2; 3; 4]
      [(0,1); (0,2); (0,3); (1,4)] 5 (Z.of_nat 2) = Some f' ∧
    Frame.edges_visibles f `sublist_of` Frame.edges_visibles f' ∧
    Frame.edges_visibles f' `sublist_of` [(0,1); (0,2); (0,3); (1,4)].
Proof.
  split; [lia|]. eexists _, _. split; [reflexivity|]. split; [reflexivity|].
  destruct (X22_visible_edges_grow [{[0]}; {[1; 2; 3]}; {[4]}]
              [0; 1; 2; 3; 4] [(0,1); (0,2); (0,3); (1,4)] 5 1 2 _ _
              ltac:(lia) eq_refl eq_refl) as (H1 & H2 & _).
  split; [exact H1 | exact H2].
Defined.

(* --------------------------------------------------------------------- *)
(** *** The two searches side by side *)

(** X23.  The two scripts compute the same layers: from the same origin,
    the frontier of [SevenDegreesModel] at each depth of its run is the
    layer of that depth that [construir_capas] builds from the networkx
    dictionary computed with the number of steps as cutoff. *)
Theorem X23_model_frontier_is_networkx_layer G o rnd steps :
  Nx.wf_graph G = true → Nx.contains G o = true →
  ∃ ms dist,
    SevenDegreesModel.run_states G (Some o) rnd steps = Some ms ∧
    Bfs.single_source_shortest_path_length G o (Z.of_nat steps) = Some dist ∧
    (length ms ≤ length (Anim.construir_capas dist (Z.of_nat steps)))%nat ∧
    ∀ d m, ms !! d = Some m →
      SevenDegreesModel.frontera m
      = LayerIndex.layer (Anim.construir_capas dist (Z.of_nat steps)) d.
Proof.
  intros Hwf Ho.
  destruct (RunFacts.run_spec G o rnd steps Hwf Ho)
    as (ms & mf & Hstates & _ & _ & Hgood & Ht & _ & Hlen & _).
  destruct (BfsFacts.sssp_spec G o (Z.of_nat steps) Hwf Ho)
    as (dist & Hdist & Hnd & Hiff).
  exists ms, dist. split; [done|]. split; [done|]. split.
  { rewrite CapasFacts.construir_capas_length. lia. }
  intros d m Hm. apply set_eq. intros v.
  rewrite Forall_forall in Hgood.
  destruct (Hgood m) as (_ & Hinv & _).
  { apply list_elem_of_lookup. eauto. }
  rewrite (Ht _ _ Hm) in Hinv.
  rewrite (bfs_inv_hop _ _ _ _ _ v Hinv).
  unfold LayerIndex.layer.
  rewrite CapasFacts.construir_capas_lookup, <- getitem_elem_iff by done.
  rewrite Hiff. apply lookup_lt_Some in Hm. split.
  - intros Hhop. split; [|lia]. exists d. split; [done|]. split; [lia | done].
  - intros [(d' & Hd' & _ & Hhop) _].
    by assert (d' = d) as -> by lia.
Qed.

Lemma X23_model_frontier_is_networkx_layer_witness :
  Nx.wf_graph star = true ∧ Nx.contains star 0 = true ∧
  ∃ ms dist,
    SevenDegreesModel.run_states star (Some 0) 0 7 = Some ms ∧
    Bfs.single_source_shortest_path_length star 0 (Z.of_nat 7) = Some dist ∧
    (length ms ≤ length (Anim.construir_capas dist (Z.of_nat 7)))%nat ∧
    ∀ d m, ms !! d = Some m →
      SevenDegreesModel.frontera m
      = LayerIndex.layer (Anim.construir_capas dist (Z.of_nat 7)) d.
Proof.
  split; [reflexivity|]. split; [reflexivity|].
  apply (X23_model_frontier_is_networkx_layer star 0 0%nat 7%nat);
    reflexivity.
Defined.
